(** * A console file explorer (Main.cpp): model and verified properties

    The program is a menu loop over a "current directory" cursor.  Every
    command is a thin wrapper around a [std::filesystem] primitive, so the
    development has three layers:

    - [Str], [Path]: the string and [fs::path] operations the source uses
      ([find], [operator/], [parent_path], [filename], ...), for POSIX
      pathnames;
    - [Fs]: an in-memory POSIX file tree (directories, regular files,
      symbolic links, special files, permission bits) with the
      [std::filesystem] queries and mutations the source calls, including the
      errors they raise;
    - [Explorer]: the functions of Main.cpp, written in a state-and-exception
      monad over a [world] (file tree, standard streams, log of file-system
      calls). *)

From Stdlib Require Import String Ascii List ZArith NArith Bool Arith Lia.
From Stdlib Require Import DecimalString.
Import ListNotations.
Local Open Scope list_scope.
Local Open Scope string_scope.

(* ================================================================== *)
(** ** Strings *)
(* ================================================================== *)

Module Str.

Definition slash : ascii := "/"%char.
Definition is_slash (c : ascii) : bool := Ascii.eqb c slash.

(** [std::string::empty]. *)
Definition empty (s : string) : bool :=
  match s with EmptyString => true | String _ _ => false end.

(** [starts needle hay]: [hay.compare(0, needle.size(), needle) == 0]. *)
Fixpoint starts (needle hay : string) : bool :=
  match needle, hay with
  | EmptyString, _ => true
  | String _ _, EmptyString => false
  | String a n', String b h' => Ascii.eqb a b && starts n' h'
  end.

(** [find_from pos hay needle]: lowest index [>= pos] (counted from an
    offset of [pos] already consumed) at which [needle] occurs in [hay];
    [None] is [std::string::npos]. *)
Fixpoint find_from (pos : nat) (hay needle : string) : option nat :=
  if starts needle hay then Some pos
  else match hay with
       | EmptyString => None
       | String _ h' => find_from (S pos) h' needle
       end.

(** [hay.find(needle)]. *)
Definition find (hay needle : string) : option nat := find_from 0 hay needle.

(** The test of [search_recursive]: [hay.find(needle) != npos]. *)
Definition found (hay needle : string) : bool :=
  match find hay needle with Some _ => true | None => false end.

(** [needle] occurs in [hay] as a contiguous, case-sensitive substring. *)
Definition substring_of (needle hay : string) : Prop :=
  exists pre post, hay = pre ++ needle ++ post.

Fixpoint has_slash (s : string) : bool :=
  match s with
  | EmptyString => false
  | String c s' => is_slash c || has_slash s'
  end.

Fixpoint all_slashes (s : string) : bool :=
  match s with
  | EmptyString => true
  | String c s' => is_slash c && all_slashes s'
  end.

(** Splitting at every ['/']; the result is never empty, and empty pieces
    stand for doubled, leading or trailing separators. *)
Fixpoint split (s : string) : list string :=
  match s with
  | EmptyString => [EmptyString]
  | String c s' =>
      match split s' with
      | hd :: tl => if is_slash c then EmptyString :: hd :: tl
                    else String c hd :: tl
      | [] => [String c EmptyString]
      end
  end.

(** [std::setw(n) << std::left << s]: pad on the right up to width [n]. *)
Fixpoint spaces (n : nat) : string :=
  match n with O => EmptyString | S k => String " "%char (spaces k) end.

Definition setw_left (n : nat) (s : string) : string :=
  s ++ spaces (n - String.length s).

(** Decimal rendering of an unsigned integer ([operator<<] on
    [std::uintmax_t]). *)
Definition of_N (n : N) : string := NilZero.string_of_uint (N.to_uint n).

End Str.

(* ================================================================== *)
(** ** [fs::path] on POSIX pathnames *)
(* ================================================================== *)

Module Path.
Import Str.

(** A path is its native string, as in [fs::path]. *)
Definition path := string.

(** [p.is_absolute()]: on POSIX, the pathname starts with a separator. *)
Definition is_absolute (p : path) : bool :=
  match p with
  | String c _ => is_slash c
  | EmptyString => false
  end.

(** [p.has_relative_path()]: something besides the root directory. *)
Definition has_relative_path (p : path) : bool := negb (all_slashes p).

(** [p.filename()]: what follows the last separator. *)
Fixpoint filename (p : path) : string :=
  match p with
  | EmptyString => EmptyString
  | String c p' =>
      if has_slash p' then filename p'
      else if is_slash c then p' else String c p'
  end.

Definition has_filename (p : path) : bool := negb (empty (filename p)).

(** The prefix of [p] up to and including its last separator. *)
Fixpoint dir_part (p : path) : string :=
  match p with
  | EmptyString => EmptyString
  | String c p' =>
      if has_slash p' then String c (dir_part p')
      else if is_slash c then String c EmptyString else EmptyString
  end.

Fixpoint strip_trailing (s : string) : string :=
  match s with
  | EmptyString => EmptyString
  | String c s' =>
      match strip_trailing s' with
      | EmptyString => if is_slash c then EmptyString else String c EmptyString
      | t => String c t
      end
  end.

(** [p.parent_path()]: [p] itself when it has no relative path (a root, or
    the empty path); otherwise the longest prefix with one element
    fewer, which is the root directory, one separator, when nothing but
    separators is left. *)
Definition parent_path (p : path) : path :=
  if has_relative_path p then
    let d := dir_part p in
    match strip_trailing d with
    | EmptyString =>
        if empty d then EmptyString else String slash EmptyString
    | t => t
    end
  else p.

(** [p.has_parent_path()]: [!parent_path().empty()]. *)
Definition has_parent_path (p : path) : bool := negb (empty (parent_path p)).

(** [l / r] ([operator/]): [r] replaces [l] when [r] is absolute; otherwise
    a separator is added after a non-empty filename and [r] is appended. *)
Definition append (l r : path) : path :=
  if is_absolute r then r
  else if has_filename l then l ++ String slash r
  else l ++ r.

(** [std::cout << p] for a path prints [std::quoted(p.string())]. *)
Definition dquote : ascii := "034"%char.
Definition backslash : ascii := "092"%char.

Fixpoint escape (s : string) : string :=
  match s with
  | EmptyString => EmptyString
  | String c s' =>
      if Ascii.eqb c dquote || Ascii.eqb c backslash
      then String backslash (String c (escape s'))
      else String c (escape s')
  end.

Definition quoted (p : path) : string :=
  String dquote (escape p ++ String dquote EmptyString).

(** The pathname of a location given by its components below the root:
    ["/"] for the root itself, ["/a/b"] for [["a"; "b"]]. *)
Fixpoint join (cs : list string) : string :=
  match cs with
  | [] => EmptyString
  | c :: r => String slash c ++ join r
  end.

Definition render (cs : list string) : path :=
  match cs with
  | [] => String slash EmptyString
  | _ => join cs
  end.

(** A name a directory entry can have: not empty, no separator. *)
Definition valid_name (c : string) : bool :=
  negb (empty c) && negb (has_slash c).

(** The components of a pathname as path resolution reads them: empty
    pieces (doubled or leading separators) are dropped, except a final
    empty piece, which records a trailing separator. *)
Fixpoint pieces (l : list string) : list string :=
  match l with
  | [] => []
  | [c] => [c]
  | c :: r => if empty c then pieces r else c :: pieces r
  end.

Definition components (p : path) : list string := pieces (split p).

(** A valid name ends in a character that is not a separator. *)
Definition ends_plain (s : string) : Prop :=
  exists t a, s = t ++ String a "" /\ is_slash a = false.

End Path.

(* ================================================================== *)
(** ** Permission bits and [perms_to_string] *)
(* ================================================================== *)

Module Perms.

(** [fs::perms] is a bit mask; the constants are those of the standard. *)
Definition perms := N.

Definition none : perms := 0%N.
Definition owner_read : perms := 256%N.   (* 0400 *)
Definition owner_write : perms := 128%N.  (* 0200 *)
Definition owner_exec : perms := 64%N.    (* 0100 *)
Definition group_read : perms := 32%N.    (* 040 *)
Definition group_write : perms := 16%N.   (* 020 *)
Definition group_exec : perms := 8%N.     (* 010 *)
Definition others_read : perms := 4%N.    (* 04 *)
Definition others_write : perms := 2%N.   (* 02 *)
Definition others_exec : perms := 1%N.    (* 01 *)
Definition all : perms := 511%N.          (* 0777 *)
Definition unknown : perms := 65535%N.    (* 0xFFFF *)

(** The lambda [check] of [perms_to_string]. *)
Definition check (p bit : perms) (c : ascii) : ascii :=
  if negb (N.eqb (N.land p bit) none) then c else "-"%char.

Definition perms_to_string (p : perms) : string :=
  let s := EmptyString in
  let s := s ++ String (check p owner_read "r") EmptyString in
  let s := s ++ String (check p owner_write "w") EmptyString in
  let s := s ++ String (check p owner_exec "x") EmptyString in
  let s := s ++ String (check p group_read "r") EmptyString in
  let s := s ++ String (check p group_write "w") EmptyString in
  let s := s ++ String (check p group_exec "x") EmptyString in
  let s := s ++ String (check p others_read "r") EmptyString in
  let s := s ++ String (check p others_write "w") EmptyString in
  let s := s ++ String (check p others_exec "x") EmptyString in
  s.

(** The alphabet of the PERMS column. *)
Definition rwx_char (c : ascii) : bool :=
  Ascii.eqb c "r" || Ascii.eqb c "w" || Ascii.eqb c "x" || Ascii.eqb c "-".

Fixpoint all_chars (f : ascii -> bool) (s : string) : bool :=
  match s with
  | EmptyString => true
  | String c s' => f c && all_chars f s'
  end.

End Perms.

(* ================================================================== *)
(** ** The file system *)
(* ================================================================== *)

(** An in-memory POSIX file tree, as seen by one unprivileged process that
    owns every file (so the owner triad decides access).  The queries and
    mutations below follow the C++17 [std::filesystem] specification over
    POSIX system calls: which errors exist, which of them a query turns into
    "not found", and which are thrown as [fs::filesystem_error]. *)

Module Fs.
Import Str Path Perms.

Inductive errno :=
| ENOENT | ENOTDIR | EACCES | ELOOP | EEXIST | EISDIR | ENOTEMPTY
| EINVAL | EBUSY | ENOTSUP.

(** [fs::file_type]. *)
Inductive file_type :=
| ft_none | ft_not_found | ft_regular | ft_directory | ft_symlink
| ft_block | ft_character | ft_fifo | ft_socket | ft_unknown.

Definition file_type_eqb (a b : file_type) : bool :=
  match a, b with
  | ft_none, ft_none | ft_not_found, ft_not_found | ft_regular, ft_regular
  | ft_directory, ft_directory | ft_symlink, ft_symlink
  | ft_block, ft_block | ft_character, ft_character | ft_fifo, ft_fifo
  | ft_socket, ft_socket | ft_unknown, ft_unknown => true
  | _, _ => false
  end.

(** [fs::file_status]: a type and permission bits. *)
Record file_status := mk_status { st_type : file_type; st_perms : perms }.

Inductive special := Block | Character | Fifo | Socket.

(** A node of the tree.  A directory lists its entries in iteration
    order. *)
#[warnings="-register-all"]
Inductive node :=
| File (pm : perms) (mtime : Z) (content : string)
| Special (k : special) (pm : perms) (mtime : Z)
| Link (mtime : Z) (target : string)
| Dir (pm : perms) (mtime : Z) (entries : list (string * node)).

(** The tree and the working directory of the process. *)
Record filesys := mk_fs { root : node; cwd : list string }.

Definition special_type (k : special) : file_type :=
  match k with
  | Block => ft_block | Character => ft_character
  | Fifo => ft_fifo | Socket => ft_socket
  end.

Definition node_type (n : node) : file_type :=
  match n with
  | File _ _ _ => ft_regular
  | Special k _ _ => special_type k
  | Link _ _ => ft_symlink
  | Dir _ _ _ => ft_directory
  end.

Definition node_perms (n : node) : perms :=
  match n with
  | File pm _ _ | Special _ pm _ | Dir pm _ _ => pm
  | Link _ _ => all
  end.

Definition node_mtime (n : node) : Z :=
  match n with
  | File _ m _ | Special _ _ m | Dir _ m _ | Link m _ => m
  end.

Definition node_status (n : node) : file_status :=
  mk_status (node_type n) (node_perms n).

Definition is_dir (n : node) : bool :=
  match n with Dir _ _ _ => true | _ => false end.

Definition entries_of (n : node) : list (string * node) :=
  match n with Dir _ _ es => es | _ => [] end.

Definition has (p bit : perms) : bool := negb (N.eqb (N.land p bit) none).
Definition can_read (p : perms) : bool := has p owner_read.
Definition can_write (p : perms) : bool := has p owner_write.
Definition can_search (p : perms) : bool := has p owner_exec.

Fixpoint lookup_entry (name : string) (es : list (string * node))
  : option node :=
  match es with
  | [] => None
  | (k, n) :: r => if String.eqb name k then Some n else lookup_entry name r
  end.

(** *** Path resolution *)

(** A position in the tree: the entries entered from the root, innermost
    first.  The empty stack is the root. *)
Definition stack := list (string * node).

Definition here (rt : node) (st : stack) : node :=
  match st with
  | [] => rt
  | (_, n) :: _ => n
  end.

Definition location (st : stack) : list string := rev (map fst st).

Inductive resolved :=
| Found (st : stack)
| Missing (parent : stack) (name : string).

Definition is_nil {A} (l : list A) : bool :=
  match l with [] => true | _ => false end.

(** The kernel gives up after this many symbolic links (Linux: 40). *)
Definition max_symlinks : nat := 40.

(** [walk fuel rt follow_last st todo] resolves the components [todo] from
    position [st].  Every lookup needs search permission on the directory;
    dot stays, dot-dot goes back (and stays at the root); an empty
    component (a trailing separator) only asks for a directory; a symbolic
    link is followed when it is not the last component, or when
    [follow_last] is set, its target being read from the directory that
    holds it (from the root when absolute); [Missing] reports a last
    component that is absent from an existing directory. *)
Fixpoint walk (fuel : nat) (rt : node) (follow_last : bool)
  : stack -> list string -> errno + resolved :=
  fix go (st : stack) (todo : list string) {struct todo}
    : errno + resolved :=
    match todo with
    | [] => inr (Found st)
    | c :: rest =>
        match here rt st with
        | Dir pm _ es =>
            if empty c then go st rest
            else if negb (can_search pm) then inl EACCES
            else if String.eqb c "." then go st rest
            else if String.eqb c ".." then go (tl st) rest
            else
              match lookup_entry c es with
              | None =>
                  if is_nil rest then inr (Missing st c) else inl ENOENT
              | Some (Link m target) =>
                  if follow_last || negb (is_nil rest) then
                    match fuel with
                    | O => inl ELOOP
                    | S fuel' =>
                        if empty target then inl ENOENT
                        else walk fuel' rt follow_last
                               (if is_absolute target then [] else st)
                               (components target ++ rest)%list
                    end
                  else go ((c, Link m target) :: st) rest
              | Some n => go ((c, n) :: st) rest
              end
        | _ => inl ENOTDIR
        end
    end.

(** Resolution of a pathname: from the root when absolute, from the
    working directory otherwise. *)
Definition resolve (fs : filesys) (follow_last : bool) (p : path)
  : errno + resolved :=
  if empty p then inl ENOENT
  else if is_absolute p then
    walk max_symlinks (root fs) follow_last [] (components p)
  else
    match walk max_symlinks (root fs) true [] (cwd fs) with
    | inr (Found st) =>
        walk max_symlinks (root fs) follow_last st (components p)
    | inr (Missing _ _) => inl ENOENT
    | inl e => inl e
    end.

(** [stat] (following) and [lstat] (not following the last link). *)
Definition stat_node (fs : filesys) (follow : bool) (p : path)
  : errno + node :=
  match resolve fs follow p with
  | inr (Found st) => inr (here (root fs) st)
  | inr (Missing _ _) => inl ENOENT
  | inl e => inl e
  end.

(** *** Queries *)

(** An error a status query reports as "file not found" instead of
    failing. *)
Definition is_not_found_error (e : errno) : bool :=
  match e with ENOENT | ENOTDIR => true | _ => false end.

(** [fs::status(p, ec)] / [fs::symlink_status(p, ec)]: the status, and the
    error code left in [ec]. *)
Definition status_ec (fs : filesys) (follow : bool) (p : path)
  : file_status * option errno :=
  match stat_node fs follow p with
  | inr n => (node_status n, None)
  | inl e =>
      (mk_status (if is_not_found_error e then ft_not_found else ft_none)
                 unknown, Some e)
  end.

(** The throwing overload: it throws exactly when the type is [none]. *)
Definition status (fs : filesys) (follow : bool) (p : path)
  : errno + file_status :=
  match status_ec fs follow p with
  | (s, Some e) =>
      if file_type_eqb (st_type s) ft_none then inl e else inr s
  | (s, None) => inr s
  end.

(** [fs::exists(file_status)], [fs::is_directory(file_status)]. *)
Definition status_exists (s : file_status) : bool :=
  negb (file_type_eqb (st_type s) ft_none)
  && negb (file_type_eqb (st_type s) ft_not_found).

Definition status_is_directory (s : file_status) : bool :=
  file_type_eqb (st_type s) ft_directory.

(** [fs::canonical(p)]: the absolute pathname of what [p] resolves to,
    with no symbolic link, dot or dot-dot left; any failure is thrown. *)
Definition canonical (fs : filesys) (p : path) : errno + path :=
  match resolve fs true p with
  | inr (Found st) => inr (render (location st))
  | inr (Missing _ _) => inl ENOENT
  | inl e => inl e
  end.

(** [fs::file_size(p)]. *)
Definition file_size (fs : filesys) (p : path) : errno + N :=
  match stat_node fs true p with
  | inr (File _ _ c) => inr (N.of_nat (String.length c))
  | inr (Dir _ _ _) => inl EISDIR
  | inr _ => inl ENOTSUP
  | inl e => inl e
  end.

(** [fs::last_write_time(p)]. *)
Definition last_write_time (fs : filesys) (p : path) : errno + Z :=
  match stat_node fs true p with
  | inr n => inr (node_mtime n)
  | inl e => inl e
  end.

(** *** Directory iteration *)

(** [fs::directory_entry] as an iterator yields it: the pathname and the
    type that [readdir] reported for the entry itself. *)
Record directory_entry := mk_entry { de_path : path; de_type : file_type }.

(** [opendir]: the directory must resolve and be readable. *)
Definition opendir (fs : filesys) (p : path) : errno + node :=
  match stat_node fs true p with
  | inr (Dir pm m es) =>
      if can_read pm then inr (Dir pm m es) else inl EACCES
  | inr _ => inl ENOTDIR
  | inl e => inl e
  end.

(** [fs::directory_iterator(p)]: the immediate children, in the
    directory's own order. *)
Definition directory_iterator (fs : filesys) (p : path)
  : errno + list directory_entry :=
  match opendir fs p with
  | inr d =>
      inr (map (fun e => mk_entry (append p (fst e)) (node_type (snd e)))
               (entries_of d))
  | inl e => inl e
  end.

(** What [fs::recursive_directory_iterator] with [skip_permission_denied]
    yields below an opened directory [n] named [p]: each entry, followed
    at once by the entries below it when it is a directory (not a link to
    one) that can be opened; a directory that cannot is skipped. *)
Fixpoint below (p : path) (n : node) {struct n} : list directory_entry :=
  match n with
  | Dir pm _ es =>
      if can_read pm then
        (fix each (es : list (string * node)) : list directory_entry :=
           match es with
           | [] => []
           | (name, c) :: rest =>
               (mk_entry (append p name) (node_type c)
                :: (if can_search pm then below (append p name) c else []))
               ++ each rest
           end%list) es
      else []
  | _ => []
  end.

(** The whole iteration: a root that cannot be opened for lack of
    permission yields nothing; any other failure is thrown. *)
Definition recursive_directory_iterator (fs : filesys) (p : path)
  : errno + list directory_entry :=
  match opendir fs p with
  | inr d => inr (below p d)
  | inl EACCES => inr []
  | inl e => inl e
  end.

(** *** Mutations *)

(** Apply [g] to the first entry called [name]; drop that entry. *)
Fixpoint map_entry (name : string) (g : node -> node)
  (es : list (string * node)) : list (string * node) :=
  match es with
  | [] => []
  | (k, n) :: r =>
      if String.eqb name k then (k, g n) :: r
      else (k, n) :: map_entry name g r
  end.

Fixpoint remove_entry (name : string) (es : list (string * node))
  : list (string * node) :=
  match es with
  | [] => []
  | (k, n) :: r =>
      if String.eqb name k then r else (k, n) :: remove_entry name r
  end.

(** Rewrite the node at a location given by names from the root. *)
Fixpoint update (loc : list string) (g : node -> node) (n : node) : node :=
  match loc with
  | [] => g n
  | c :: loc' =>
      match n with
      | Dir pm m es => Dir pm m (map_entry c (update loc' g) es)
      | _ => n
      end
  end.

(** Pure descent by names: the node at a location, if any. *)
Fixpoint node_at (loc : list string) (n : node) : option node :=
  match loc with
  | [] => Some n
  | c :: loc' =>
      match lookup_entry c (entries_of n) with
      | Some n' => node_at loc' n'
      | None => None
      end
  end.

(** [fs::current_path()] ([getcwd]): the pathname of the working
    directory, as long as it is a directory of the tree; it is an error
    once the directory is gone. *)
Definition current_path (fs : filesys) : errno + path :=
  match node_at (cwd fs) (root fs) with
  | Some (Dir _ _ _) => inr (render (cwd fs))
  | _ => inl ENOENT
  end.

Definition drop_child (now : Z) (name : string) (d : node) : node :=
  match d with
  | Dir pm _ es => Dir pm now (remove_entry name es)
  | _ => d
  end.

Definition add_child (now : Z) (name : string) (c : node) (d : node)
  : node :=
  match d with
  | Dir pm _ es => Dir pm now (es ++ [(name, c)])%list
  | _ => d
  end.

(** [unlink]/[rmdir] of the entry on top of [st]: the parent directory
    must be writable and searchable. *)
Definition unlink (now : Z) (rt : node) (st : stack) : errno + node :=
  match st with
  | [] => inl EBUSY
  | (name, _) :: parent =>
      match here rt parent with
      | Dir pm _ _ =>
          if can_write pm && can_search pm
          then inr (update (location parent) (drop_child now name) rt)
          else inl EACCES
      | _ => inl ENOTDIR
      end
  end.

(** The last name of a pathname is a dot or dot-dot: such a pathname
    cannot be removed. *)
Definition ends_in_dot (p : path) : bool :=
  let c := last (filter (fun c => negb (empty c)) (components p)) "" in
  String.eqb c "." || String.eqb c "..".

(** [fs::remove(p)]: [false] when there is nothing to remove, [true] after
    removing a file, a link (itself, not its target) or an empty
    directory; every other failure is thrown. *)
Definition remove (now : Z) (fs : filesys) (p : path)
  : errno + (bool * node) :=
  match resolve fs false p with
  | inl ENOENT => inr (false, root fs)
  | inl e => inl e
  | inr (Missing _ _) => inr (false, root fs)
  | inr (Found st) =>
      if ends_in_dot p then inl EINVAL
      else
        match here (root fs) st with
        | Dir _ _ (_ :: _) => inl ENOTEMPTY
        | _ =>
            match unlink now (root fs) st with
            | inr rt' => inr (true, rt')
            | inl e => inl e
            end
        end
  end.

(** Number of file-system entries in a subtree, the node itself
    included. *)
Fixpoint tree_size (n : node) : N :=
  match n with
  | Dir _ _ es =>
      (fix sum (es : list (string * node)) : N :=
         match es with
         | [] => 0
         | (_, c) :: rest => tree_size c + sum rest
         end%N) es + 1
  | _ => 1
  end%N.

(** Removal of a subtree, children first, stopping at the first entry
    that cannot go: a directory must be readable to be emptied, and
    writable and searchable to lose an entry.  The result is the number of
    entries removed and what is left of the node ([None]: nothing,
    provided the parent lets the node itself go). *)
Fixpoint purge (n : node) : N * option node :=
  match n with
  | Dir pm m es =>
      if can_read pm then
        match
          (fix each (es : list (string * node))
             : N * list (string * node) :=
             match es with
             | [] => (0%N, [])
             | (name, c) :: rest =>
                 if can_write pm && can_search pm then
                   match purge c with
                   | (k, None) =>
                       let (k', rest') := each rest in ((k + k')%N, rest')
                   | (k, Some c') => (k, (name, c') :: rest)
                   end
                 else (0%N, es)
             end) es
        with
        | (k, []) => ((k + 1)%N, None)
        | (k, es') => (k, Some (Dir pm m es'))
        end
      else (0%N, Some n)
  | _ => (1%N, None)
  end.

Definition emptied (n : node) : node :=
  match n with
  | Dir pm m _ => Dir pm m []
  | _ => n
  end.

(** Where [purge] stops: the names, from the node down, of the entry that
    cannot go; no name when the node itself cannot be opened (and when
    nothing stops the removal). *)
Fixpoint stuck_at (n : node) : list string :=
  match n with
  | Dir pm _ es =>
      if can_read pm then
        (fix each (es : list (string * node)) : list string :=
           match es with
           | [] => []
           | (name, c) :: rest =>
               if can_write pm && can_search pm then
                 match purge c with
                 | (_, None) => each rest
                 | (_, Some _) => name :: stuck_at c
                 end
               else [name]
           end) es
      else []
  | _ => []
  end.

(** How [fs::remove_all] fails: while it empties the directory, at the
    pathname itself or at an entry below it, or in the [fs::remove] of the
    pathname that ends it. *)
Inductive removal_error :=
| WhileEmptying (e : errno) (names : list string)
| AtLast (e : errno).

(** [fs::remove_all(p)]: the number of entries removed, or the error
    thrown, and in both cases the tree left behind.  A symbolic link is
    removed itself; its target is left alone. *)
Definition remove_all (now : Z) (fs : filesys) (p : path)
  : (removal_error + N) * node :=
  match resolve fs false p with
  | inl ENOENT => (inr 0%N, root fs)
  | inl ENOTDIR => (inl (AtLast ENOTDIR), root fs)
  | inl ELOOP => (inl (AtLast ELOOP), root fs)
  | inl e => (inl (WhileEmptying e []), root fs)
  | inr (Missing _ _) => (inr 0%N, root fs)
  | inr (Found st) =>
      match purge (here (root fs) st) with
      | (_, Some n') =>
          (inl (WhileEmptying EACCES (stuck_at (here (root fs) st))),
           update (location st) (fun _ => n') (root fs))
      | (k, None) =>
          let stuck :=
            update (location st) emptied (root fs) in
          if ends_in_dot p then (inl (AtLast EINVAL), stuck)
          else
            match unlink now (root fs) st with
            | inr rt' => (inr k, rt')
            | inl e => (inl (AtLast e), stuck)
            end
      end
  end.

(** Opening a file for writing as [std::ofstream] does
    ([O_WRONLY|O_CREAT|O_TRUNC], mode 0666 less the umask): an absent last
    component is created in its directory, which must exist and be
    writable; an existing regular file is truncated.  No directory is
    ever created. *)
Definition new_file (now : Z) (mask : perms) : node :=
  File (N.ldiff 438%N mask) now EmptyString.

Definition open_trunc (now : Z) (mask : perms) (fs : filesys) (p : path)
  : errno + node :=
  match resolve fs true p with
  | inl e => inl e
  | inr (Missing parent name) =>
      if can_write (node_perms (here (root fs) parent))
      then inr (update (location parent)
                       (add_child now name (new_file now mask)) (root fs))
      else inl EACCES
  | inr (Found st) =>
      match here (root fs) st with
      | File pm _ _ =>
          if can_write pm
          then inr (update (location st) (fun _ => File pm now EmptyString)
                           (root fs))
          else inl EACCES
      | Dir _ _ _ => inl EISDIR
      | Special _ pm _ => if can_write pm then inr (root fs) else inl EACCES
      | Link _ _ => inl ELOOP
      end
  end.

(** *** The loops over entries, on their own *)

(** The inner loops of [purge], [below] and [tree_size], as functions of
    the entry list. *)
Fixpoint purge_each (ok : bool) (es : list (string * node))
  : N * list (string * node) :=
  match es with
  | [] => (0%N, [])
  | (name, c) :: rest =>
      if ok then
        match purge c with
        | (k, None) =>
            let (k', rest') := purge_each ok rest in ((k + k')%N, rest')
        | (k, Some c') => (k, (name, c') :: rest)
        end
      else (0%N, es)
  end.

Fixpoint below_each (pm : perms) (p : path) (es : list (string * node))
  : list directory_entry :=
  match es with
  | [] => []
  | (name, c) :: rest =>
      ((mk_entry (append p name) (node_type c)
        :: (if can_search pm then below (append p name) c else []))
       ++ below_each pm p rest)%list
  end.

Fixpoint size_each (es : list (string * node)) : N :=
  match es with
  | [] => 0%N
  | (_, c) :: rest => (tree_size c + size_each rest)%N
  end.

(** *** Well-formed trees and positions *)

(** A name an entry can have: valid, and neither dot nor dot-dot. *)
Definition proper_name (c : string) : bool :=
  valid_name c && negb (String.eqb c ".") && negb (String.eqb c "..").

(** In a well-formed tree every directory has proper, distinct names. *)
Fixpoint wf (n : node) : Prop :=
  match n with
  | Dir _ _ es =>
      NoDup (map fst es)
      /\ Forall (fun c => proper_name c = true) (map fst es)
      /\ (fix each (es : list (string * node)) : Prop :=
            match es with
            | [] => True
            | (_, c) :: rest => wf c /\ each rest
            end) es
  | _ => True
  end.

(** A stack is a chain of [rt] when each entry on it is what its name
    denotes in the directory below it, and that directory can be
    searched. *)
Fixpoint chain (rt : node) (st : stack) : Prop :=
  match st with
  | [] => True
  | (c, n) :: st' =>
      chain rt st'
      /\ lookup_entry c (entries_of (here rt st')) = Some n
      /\ can_search (node_perms (here rt st')) = true
      /\ proper_name c = true
  end.


(** Number of directories in a subtree. *)
Fixpoint dir_count (n : node) : nat :=
  match n with
  | Dir _ _ es =>
      S ((fix sum (es : list (string * node)) : nat :=
            match es with
            | [] => 0
            | (_, c) :: rest => dir_count c + sum rest
            end) es)
  | _ => 0
  end.

Fixpoint dirs_each (es : list (string * node)) : nat :=
  match es with
  | [] => 0
  | (_, c) :: rest => dir_count c + dirs_each rest
  end.

(** The entries the recursive iterator yields below a directory, as
    relative lists of names with the node reached, in iteration order. *)
Fixpoint reach (n : node) : list (list string * node) :=
  match n with
  | Dir pm _ es =>
      if can_read pm then
        (fix each (es : list (string * node)) : list (list string * node) :=
           match es with
           | [] => []
           | (name, c) :: rest =>
               (([name], c)
                :: (if can_search pm
                    then map (fun r => (name :: fst r, snd r)) (reach c)
                    else []))
               ++ each rest
           end%list) es
      else []
  | _ => []
  end.

Fixpoint reach_each (pm : perms) (es : list (string * node))
  : list (list string * node) :=
  match es with
  | [] => []
  | (name, c) :: rest =>
      ((([name], c)
        :: (if can_search pm
            then map (fun r => (name :: fst r, snd r)) (reach c)
            else []))
       ++ reach_each pm rest)%list
  end.

(** [descends d names c]: [c] is reached from the directory [d] along
    [names], every directory on the way (and [d] itself) being one the
    recursive iterator opens: readable, and entered only from a directory
    that can be searched. *)
Inductive descends : node -> list string -> node -> Prop :=
| descends_child pm m es name c :
    can_read pm = true -> In (name, c) es ->
    descends (Dir pm m es) [name] c
| descends_deeper pm m es name c' names c :
    can_read pm = true -> can_search pm = true -> In (name, c') es ->
    descends c' names c ->
    descends (Dir pm m es) (name :: names) c.

(** The pathname of a descendant: [p / n1 / ... / nk]. *)
Definition path_of (p : path) (names : list string) : path :=
  fold_left append names p.

(** *** Properties of resolutions *)

Definition is_link (n : node) : bool :=
  match n with Link _ _ => true | _ => false end.

Definition no_links (st : stack) : Prop :=
  Forall (fun e => is_link (snd e) = false) st.

(** What [walk] returns is a chain again; a missing last name is
    reported for a directory of the tree that can be searched and has no
    such entry. *)
Definition good_result (rt : node) (r : errno + resolved) : Prop :=
  match r with
  | inr (Found st) => chain rt st
  | inr (Missing parent name) =>
      chain rt parent
      /\ is_dir (here rt parent) = true
      /\ can_search (node_perms (here rt parent)) = true
      /\ lookup_entry name (entries_of (here rt parent)) = None
      /\ proper_name name = true
  | inl _ => True
  end.

(** The entry the iterator yields for a reachable relative path. *)
Definition entry_of (p : path) (r : list string * node) : directory_entry :=
  mk_entry (path_of p (fst r)) (node_type (snd r)).

End Fs.

(* ================================================================== *)
(** ** The program *)
(* ================================================================== *)

Module Explorer.
Import Str Path Perms Fs.

(** *** Exceptions *)

(** [fs::filesystem_error]: the failed operation, the error code and the
    two pathnames it carries ([path1()] and [path2()]); a pathname the
    operation does not give is empty. *)
Record fs_error := mk_error2 {
  fe_op : string;
  fe_code : errno;
  fe_path : path;
  fe_path2 : path
}.

(** The error of an operation on one pathname. *)
Definition mk_error (op : string) (e : errno) (p : path) : fs_error :=
  mk_error2 op e p EmptyString.

Definition strerror (e : errno) : string :=
  match e with
  | ENOENT => "No such file or directory"
  | ENOTDIR => "Not a directory"
  | EACCES => "Permission denied"
  | ELOOP => "Too many levels of symbolic links"
  | EEXIST => "File exists"
  | EISDIR => "Is a directory"
  | ENOTEMPTY => "Directory not empty"
  | EINVAL => "Invalid argument"
  | EBUSY => "Device or resource busy"
  | ENOTSUP => "Operation not supported"
  end.

(** [e.what()]: the operation, the message of the error code, and each
    pathname that is not empty, in brackets. *)
Definition bracketed (p : path) : string :=
  if empty p then EmptyString else " [" ++ p ++ "]".

Definition what (e : fs_error) : string :=
  "filesystem error: " ++ fe_op e ++ ": " ++ strerror (fe_code e)
  ++ bracketed (fe_path e) ++ bracketed (fe_path2 e).

(** *** The world *)

(** Every call into the file-system library, in order. *)
Inductive fs_call :=
| CCurrentPath
| CStatus (p : path)
| CSymlinkStatus (p : path)
| CCanonical (p : path)
| CFileSize (p : path)
| CLastWriteTime (p : path)
| COpendir (p : path)
| CRecursiveOpendir (p : path)
| COpenWrite (p : path)
| CCreateDirectories (p : path)
| CRemove (p : path)
| CRemoveAll (p : path)
| CCopy (from to : path)
| CCopyFile (from to : path)
| CRename (from to : path).

Record world := mk_world {
  w_fs : filesys;            (* the file tree and working directory *)
  w_now : Z;                 (* the file clock *)
  w_umask : perms;           (* the file creation mask *)
  w_in : list string;        (* lines left on standard input *)
  w_out : list string;       (* what was written to standard output *)
  w_err : list string;       (* what was written to standard error *)
  w_calls : list fs_call     (* file-system calls made so far *)
}.

Definition set_root (rt : node) (w : world) : world :=
  mk_world (mk_fs rt (cwd (w_fs w))) (w_now w) (w_umask w) (w_in w)
           (w_out w) (w_err w) (w_calls w).

Definition set_in (l : list string) (w : world) : world :=
  mk_world (w_fs w) (w_now w) (w_umask w) l (w_out w) (w_err w) (w_calls w).

Definition put_out (s : string) (w : world) : world :=
  mk_world (w_fs w) (w_now w) (w_umask w) (w_in w) (w_out w ++ [s])%list
           (w_err w) (w_calls w).

Definition put_err (s : string) (w : world) : world :=
  mk_world (w_fs w) (w_now w) (w_umask w) (w_in w) (w_out w)
           (w_err w ++ [s])%list (w_calls w).

Definition log_call (c : fs_call) (w : world) : world :=
  mk_world (w_fs w) (w_now w) (w_umask w) (w_in w) (w_out w) (w_err w)
           (w_calls w ++ [c])%list.

(** *** The monad: state and exceptions *)

Inductive outcome (A : Type) :=
| Ret (a : A)
| Throw (e : fs_error).
Arguments Ret {A} a.
Arguments Throw {A} e.

Definition M (A : Type) : Type := world -> outcome A * world.

Definition ret {A} (a : A) : M A := fun w => (Ret a, w).

Definition bind {A B} (m : M A) (k : A -> M B) : M B :=
  fun w =>
    match m w with
    | (Ret a, w') => k a w'
    | (Throw e, w') => (Throw e, w')
    end.

Definition throw {A} (e : fs_error) : M A := fun w => (Throw e, w).

(** [try { m } catch (const std::exception& e) { h e }]. *)
Definition try_catch {A} (m : M A) (h : fs_error -> M A) : M A :=
  fun w =>
    match m w with
    | (Ret a, w') => (Ret a, w')
    | (Throw e, w') => h e w'
    end.

Declare Scope monad_scope.
Delimit Scope monad_scope with monad.
Notation "x <- m ;; k" := (bind m (fun x => k))
  (at level 61, m at next level, right associativity) : monad_scope.
Notation "m ;; k" := (bind m (fun _ => k))
  (at level 61, right associativity) : monad_scope.
Local Open Scope monad_scope.

Fixpoint for_each {A} (l : list A) (body : A -> M unit) : M unit :=
  match l with
  | [] => ret tt
  | a :: l' => body a ;; for_each l' body
  end.

(** *** Standard streams *)

Definition nl : string := String "010"%char EmptyString.

Definition cout (s : string) : M unit := fun w => (Ret tt, put_out s w).
Definition cerr (s : string) : M unit := fun w => (Ret tt, put_err s w).

(** [std::getline(std::cin, s)]: whether a line was read, and the line
    ([s] is empty at end of input). *)
Definition getline : M (bool * string) :=
  fun w =>
    match w_in w with
    | [] => (Ret (false, EmptyString), w)
    | l :: rest => (Ret (true, l), set_in rest w)
    end.

(** *** The library calls the program makes *)

Definition call (c : fs_call) : M unit := fun w => (Ret tt, log_call c w).

(** Lift a query: log it, then answer from the tree or throw. *)
Definition query {A} (c : fs_call) (op : string) (p : path)
  (f : filesys -> errno + A) : M A :=
  call c ;;
  fun w =>
    match f (w_fs w) with
    | inr a => (Ret a, w)
    | inl e => (Throw (mk_error op e p), w)
    end.

Definition fs_current_path : M path :=
  query CCurrentPath "cannot get current path" EmptyString current_path.

Definition fs_status (p : path) : M file_status :=
  query (CStatus p) "status" p (fun fs => status fs true p).

Definition fs_symlink_status (p : path) : M file_status :=
  query (CSymlinkStatus p) "symlink_status" p (fun fs => status fs false p).

Definition fs_exists (p : path) : M bool :=
  s <- fs_status p ;; ret (status_exists s).

Definition fs_is_directory (p : path) : M bool :=
  s <- fs_status p ;; ret (status_is_directory s).

Definition fs_canonical (p : path) : M path :=
  query (CCanonical p) "canonical" p (fun fs => canonical fs p).

Definition fs_file_size (p : path) : M N :=
  query (CFileSize p) "cannot get file size" p (fun fs => file_size fs p).

Definition fs_last_write_time (p : path) : M Z :=
  query (CLastWriteTime p) "cannot get file time" p
        (fun fs => last_write_time fs p).

Definition fs_directory_iterator (p : path) : M (list directory_entry) :=
  query (COpendir p) "directory iterator cannot open directory" p
        (fun fs => directory_iterator fs p).

Definition fs_recursive_directory_iterator (p : path)
  : M (list directory_entry) :=
  query (CRecursiveOpendir p)
        "recursive directory iterator cannot open directory" p
        (fun fs => recursive_directory_iterator fs p).

(** Observers of an entry obtained from an iterator.  The standard lets an
    implementation keep the attributes it learns during iteration, and
    libstdc++ and libc++ keep the type [readdir] reports: the observers
    answer from it whenever it settles the question, and ask the file
    system otherwise (for a link, whose target decides). *)
Definition entry_file_type (e : directory_entry) : M file_type :=
  if negb (file_type_eqb (de_type e) ft_none)
     && negb (file_type_eqb (de_type e) ft_symlink)
  then ret (de_type e)
  else s <- fs_status (de_path e) ;; ret (st_type s).

Definition entry_is_directory (e : directory_entry) : M bool :=
  t <- entry_file_type e ;; ret (file_type_eqb t ft_directory).

Definition entry_is_regular_file (e : directory_entry) : M bool :=
  t <- entry_file_type e ;; ret (file_type_eqb t ft_regular).

Definition entry_is_symlink (e : directory_entry) : M bool :=
  if negb (file_type_eqb (de_type e) ft_none)
  then ret (file_type_eqb (de_type e) ft_symlink)
  else s <- fs_symlink_status (de_path e) ;;
       ret (file_type_eqb (st_type s) ft_symlink).

Definition entry_file_size (e : directory_entry) : M N :=
  fs_file_size (de_path e).

(** Lift a mutation: log it, install the tree it leaves, then return or
    throw. *)
Definition mutation {A} (c : fs_call) (op : string) (p : path)
  (f : world -> (errno + A) * node) : M A :=
  call c ;;
  fun w =>
    match f w with
    | (inr a, rt) => (Ret a, set_root rt w)
    | (inl e, rt) => (Throw (mk_error op e p), set_root rt w)
    end.

Definition fs_remove (p : path) : M bool :=
  mutation (CRemove p) "cannot remove" p
    (fun w =>
       match remove (w_now w) (w_fs w) p with
       | inr (b, rt) => (inr b, rt)
       | inl e => (inl e, root (w_fs w))
       end).

(** A mutation whose exception carries both pathnames. *)
Definition mutation2 {A} (c : fs_call) (op : string) (p q : path)
  (f : world -> (errno + A) * node) : M A :=
  call c ;;
  fun w =>
    match f w with
    | (inr a, rt) => (Ret a, set_root rt w)
    | (inl e, rt) => (Throw (mk_error2 op e p q), set_root rt w)
    end.

(** The exception of [fs::remove_all]: "cannot remove all" with the
    pathname and, when another entry is at fault, that entry's pathname;
    the exception of [fs::remove] when the last step fails. *)
Definition removal_failure (p : path) (r : removal_error) : fs_error :=
  match r with
  | WhileEmptying e [] => mk_error "cannot remove all" e p
  | WhileEmptying e names =>
      mk_error2 "cannot remove all" e p (path_of p names)
  | AtLast e => mk_error "cannot remove" e p
  end.

Definition fs_remove_all (p : path) : M N :=
  call (CRemoveAll p) ;;
  fun w =>
    match remove_all (w_now w) (w_fs w) p with
    | (inr k, rt) => (Ret k, set_root rt w)
    | (inl r, rt) => (Throw (removal_failure p r), set_root rt w)
    end.

(** [std::ofstream ofs(p)]: the stream is good when the file could be
    opened; failure is a state of the stream, not an exception. *)
Definition ofstream_open (p : path) : M bool :=
  call (COpenWrite p) ;;
  fun w =>
    match open_trunc (w_now w) (w_umask w) (w_fs w) p with
    | inr rt => (Ret true, set_root rt w)
    | inl _ => (Ret false, w)
    end.

(** Library operations whose effect on the tree no property below depends
    on, the reading of the system clock (in its own ticks, from its own
    epoch) and the C library's time formatting: supplied by the
    platform. *)
Class Platform := {
  system_now : world -> Z;
  ctime : Z -> string;
  create_directories : world -> path -> (errno + bool) * node;
  copy_recursive_overwrite : world -> path -> path -> (errno + unit) * node;
  copy_file_overwrite : world -> path -> path -> (errno + bool) * node;
  rename : world -> path -> path -> (errno + unit) * node
}.

Section Program.
Context {platform : Platform}.

Definition fs_create_directories (p : path) : M bool :=
  mutation (CCreateDirectories p) "cannot create directories" p
           (fun w => create_directories w p).

Definition fs_copy (from to : path) : M unit :=
  mutation2 (CCopy from to) "cannot copy" from to
            (fun w => copy_recursive_overwrite w from to).

Definition fs_copy_file (from to : path) : M bool :=
  mutation2 (CCopyFile from to) "cannot copy file" from to
            (fun w => copy_file_overwrite w from to).

Definition fs_rename (from to : path) : M unit :=
  mutation2 (CRename from to) "cannot rename" from to
            (fun w => rename w from to).

(** *** Main.cpp *)

(** [system_clock::to_time_t]: whole seconds, rounded toward zero; the
    clocks of libstdc++ tick in nanoseconds. *)
Definition ticks_per_second : Z := 1000000000.

Definition to_time_t (t : Z) : Z := Z.quot t ticks_per_second.

(** [time_to_string]: the file time is moved to the system clock by the
    difference of two clock readings, cut to whole seconds, formatted by
    [ctime], and loses its final newline. *)
Definition pop_newline (s : string) : string :=
  match rev (list_ascii_of_string s) with
  | c :: r =>
      if Ascii.eqb c "010"%char
      then string_of_list_ascii (rev r) else s
  | [] => s
  end.

Definition time_to_string (ftime : Z) : M string :=
  fun w =>
    let file_clock_now := w_now w in
    let system_clock_now := system_now w in
    let sctp := (ftime - file_clock_now + system_clock_now)%Z in
    let tt := to_time_t sctp in
    (Ret (pop_newline (ctime tt)), w).

(** One line of the listing: the locals [type], [perm], [size], [mod] of
    [list_dir] and the name. *)
Record row := mk_row {
  r_type : string;
  r_perm : string;
  r_size : N;
  r_mod : string;
  r_name : string
}.

Definition render_row (r : row) : string :=
  setw_left 8 (r_type r) ++ setw_left 12 (r_perm r)
  ++ setw_left 12 (of_N (r_size r)) ++ setw_left 24 (r_mod r)
  ++ r_name r ++ nl.

Definition perm_placeholder : string := "----------".

(** The initialisers of the locals of the loop body of [list_dir]. *)
Definition entry_type_label (entry : directory_entry) : M string :=
  isdir <- entry_is_directory entry ;;
  if isdir then ret "[DIR]"
  else islnk <- entry_is_symlink entry ;;
       ret (if islnk then "[LNK]" else "[FILE]").

Definition entry_perm (path : path) : M string :=
  try_catch
    (st <- fs_status path ;; ret (perms_to_string (st_perms st)))
    (fun _ => ret perm_placeholder).

Definition entry_size (entry : directory_entry) : M N :=
  isreg <- entry_is_regular_file entry ;;
  if isreg
  then try_catch (entry_file_size entry) (fun _ => ret 0%N)
  else ret 0%N.

Definition entry_modified (path : path) : M string :=
  try_catch
    (t <- fs_last_write_time path ;; time_to_string t)
    (fun _ => ret EmptyString).

Definition entry_row (entry : directory_entry) : M row :=
  let path := de_path entry in
  type <- entry_type_label entry ;;
  perm <- entry_perm path ;;
  size <- entry_size entry ;;
  modified <- entry_modified path ;;
  ret (mk_row type perm size modified (filename path)).

Definition rule : string :=
  "------------------------------------------------------------" ++ nl.

Definition list_dir (cur : path) : M unit :=
  cout (nl ++ "Current Directory: " ++ cur ++ nl) ;;
  cout rule ;;
  cout (setw_left 8 "TYPE" ++ setw_left 12 "PERMS"
        ++ setw_left 12 "SIZE(B)" ++ setw_left 24 "MODIFIED"
        ++ "NAME" ++ nl) ;;
  cout rule ;;
  try_catch
    (entries <- fs_directory_iterator cur ;;
     for_each entries
       (fun entry => r <- entry_row entry ;; cout (render_row r)))
    (fun e => cerr ("Error listing directory: " ++ what e ++ nl)).

(** [input_path]: [None] is [false] (nothing stored in [out]). *)
Definition input_path (prompt : string) : M (option path) :=
  cout prompt ;;
  l <- getline ;;
  let s := snd l in
  if empty s then ret None else ret (Some s).

Definition report (e : fs_error) : M unit :=
  cerr ("Error: " ++ what e ++ nl).

Definition create_file (p : path) : M unit :=
  try_catch
    (ex <- fs_exists p ;;
     if ex then cout ("Path already exists." ++ nl)
     else
       ofs <- ofstream_open p ;;
       if negb ofs then cout ("Failed to create file." ++ nl)
       else cout ("File created: " ++ quoted p ++ nl))
    report.

Definition create_directory_path (p : path) : M unit :=
  try_catch
    (ex <- fs_exists p ;;
     if ex then cout ("Path already exists." ++ nl)
     else
       fs_create_directories p ;;
       cout ("Directory created: " ++ quoted p ++ nl))
    report.

Definition delete_path (p : path) : M unit :=
  try_catch
    (ex <- fs_exists p ;;
     if negb ex then cout ("Path does not exist." ++ nl)
     else
       isdir <- fs_is_directory p ;;
       count <- (if isdir then fs_remove_all p
                 else removed <- fs_remove p ;;
                      ret (if removed then 1%N else 0%N)) ;;
       cout ("Deleted entries: " ++ of_N count ++ nl))
    report.

Definition copy_path (from to : path) : M unit :=
  try_catch
    (ex <- fs_exists from ;;
     if negb ex then cout ("Source does not exist." ++ nl)
     else
       isdir <- fs_is_directory from ;;
       (if isdir then fs_copy from to
        else fs_copy_file from to ;; ret tt) ;;
       cout ("Copied to: " ++ quoted to ++ nl))
    report.

Definition move_path (from to : path) : M unit :=
  try_catch
    (fs_rename from to ;;
     cout ("Moved/Renamed to: " ++ quoted to ++ nl))
    report.

Definition search_recursive (rt : path) (needle : string) : M unit :=
  try_catch
    (entries <- fs_recursive_directory_iterator rt ;;
     for_each entries
       (fun it =>
          let p := de_path it in
          if found (filename p) needle then cout (p ++ nl) else ret tt))
    (fun e => cerr ("Error searching: " ++ what e ++ nl)).

Definition print_menu : M unit :=
  cout (nl ++ "Commands:" ++ nl
        ++ "1. List current directory" ++ nl
        ++ "2. Enter directory" ++ nl
        ++ "3. Go up (..)" ++ nl
        ++ "4. Create file" ++ nl
        ++ "5. Create directory" ++ nl
        ++ "6. Delete file/directory" ++ nl
        ++ "7. Copy file/directory" ++ nl
        ++ "8. Move/Rename file/directory" ++ nl
        ++ "9. Search by name (recursive)" ++ nl
        ++ "0. Exit" ++ nl
        ++ "Choose: ").

(** [p.is_absolute() ? p : (cur / p)]. *)
Definition absolute (cur p : path) : path :=
  if is_absolute p then p else append cur p.

(** The two navigation steps of [main], as functions of the cursor. *)
Definition enter_directory (cur dir : path) : M path :=
  let cand := absolute cur dir in
  ex <- fs_exists cand ;;
  isdir <- (if ex then fs_is_directory cand else ret false) ;;
  if isdir then fs_canonical cand
  else cout ("Not a directory." ++ nl) ;; ret cur.

Definition go_up (cur : path) : path :=
  if has_parent_path cur then parent_path cur else cur.

Inductive control := Continue | Break.

(** The body of the [if]/[else if] chain of [main] for one choice: what
    the loop does next, and the cursor afterwards. *)
Definition command (choice : string) (cur : path) : M (control * path) :=
  if String.eqb choice "1" then
    ret (Continue, cur)
  else if String.eqb choice "2" then
    dir <- input_path "Enter directory name: " ;;
    match dir with
    | Some dir => cur' <- enter_directory cur dir ;; ret (Continue, cur')
    | None => ret (Continue, cur)
    end
  else if String.eqb choice "3" then
    ret (Continue, go_up cur)
  else if String.eqb choice "4" then
    p <- input_path "Enter file path to create: " ;;
    match p with
    | Some p => create_file (absolute cur p) ;; ret (Continue, cur)
    | None => ret (Continue, cur)
    end
  else if String.eqb choice "5" then
    p <- input_path "Enter directory path to create: " ;;
    match p with
    | Some p =>
        create_directory_path (absolute cur p) ;; ret (Continue, cur)
    | None => ret (Continue, cur)
    end
  else if String.eqb choice "6" then
    p <- input_path "Enter file/directory to delete: " ;;
    match p with
    | Some p => delete_path (absolute cur p) ;; ret (Continue, cur)
    | None => ret (Continue, cur)
    end
  else if String.eqb choice "7" then
    src <- input_path "Enter source path: " ;;
    match src with
    | Some src =>
        dst <- input_path "Enter destination path: " ;;
        match dst with
        | Some dst =>
            copy_path (absolute cur src) (absolute cur dst) ;;
            ret (Continue, cur)
        | None => ret (Continue, cur)
        end
    | None => ret (Continue, cur)
    end
  else if String.eqb choice "8" then
    src <- input_path "Enter source path: " ;;
    match src with
    | Some src =>
        dst <- input_path "Enter destination path: " ;;
        match dst with
        | Some dst =>
            move_path (absolute cur src) (absolute cur dst) ;;
            ret (Continue, cur)
        | None => ret (Continue, cur)
        end
    | None => ret (Continue, cur)
    end
  else if String.eqb choice "9" then
    cout "Enter name to search: " ;;
    l <- getline ;;
    let needle := snd l in
    (if negb (empty needle) then search_recursive cur needle
     else ret tt) ;;
    ret (Continue, cur)
  else if String.eqb choice "0" then
    cout ("Goodbye!" ++ nl) ;; ret (Break, cur)
  else
    cout ("Invalid choice." ++ nl) ;; ret (Continue, cur).

(** One turn of [while (true)]. *)
Definition iteration (cur : path) : M (control * path) :=
  list_dir cur ;;
  print_menu ;;
  l <- getline ;;
  if negb (fst l) then ret (Break, cur)
  else command (snd l) cur.

(** How the process ends: [main] returns a code, or an exception
    nobody catches reaches [std::terminate]. *)
Inductive ending :=
| Exited (code : Z)
| Terminated (e : fs_error).

(** The loop, for at most [fuel] turns ([None]: out of fuel). *)
Fixpoint main_loop (fuel : nat) (cur : path) (w : world)
  : option (outcome unit * world) :=
  match fuel with
  | O => None
  | S fuel' =>
      match iteration cur w with
      | (Ret (Break, _), w') => Some (Ret tt, w')
      | (Ret (Continue, cur'), w') => main_loop fuel' cur' w'
      | (Throw e, w') => Some (Throw e, w')
      end
  end.

Definition main (fuel : nat) (w : world) : option (ending * world) :=
  match fs_current_path w with
  | (Ret cur, w0) =>
      match main_loop fuel cur w0 with
      | Some (Ret _, w') => Some (Exited 0, w')
      | Some (Throw e, w') => Some (Terminated e, w')
      | None => None
      end
  | (Throw e, w0) => Some (Terminated e, w0)
  end.

End Program.

End Explorer.

(* ================================================================== *)
(** ** Notions used to state the properties *)
(* ================================================================== *)

Module Notions.
Import Str Path Perms Fs Explorer.

(** [returns m]: the command never lets an exception escape. *)
Definition returns {A} (m : M A) : Prop :=
  forall w, exists a w', m w = (Ret a, w').

(** A frame is a preorder on worlds. *)
Class Frame (R : world -> world -> Prop) := {
  frame_refl : forall w, R w w;
  frame_trans : forall a b c, R a b -> R b c -> R a c
}.

(** [keeps R m]: the world after [m], returned or thrown, is related to the
    world before. *)
Definition keeps (R : world -> world -> Prop) {A} (m : M A) : Prop :=
  forall w, R w (snd (m w)).

(** The frames used below. *)
Definition same_fs (w w' : world) : Prop := w_fs w' = w_fs w.
Definition input_shrinks (w w' : world) : Prop :=
  length (w_in w') <= length (w_in w).
Definition same_err (w w' : world) : Prop := w_err w' = w_err w.
Definition same_in (w w' : world) : Prop := w_in w' = w_in w.
Definition input_within (w w' : world) : Prop := incl (w_in w') (w_in w).

(** [lands cur m]: the command returns, and the cursor it returns is
    [cur]. *)
Definition lands (cur : path) (m : M (control * path)) : Prop :=
  forall w, exists c w', m w = (Ret (c, cur), w').

(** The cursor names a location: it is the pathname of a list of proper
    names, hence absolute, without dot, dot-dot or doubled separator. *)
Definition canonical_cursor (cur : path) : Prop :=
  exists cs, Forall (fun c => proper_name c = true) cs /\ cur = render cs.

(** The test of [search_recursive] on an entry. *)
Definition matches (needle : string) (e : directory_entry) : bool :=
  found (filename (de_path e)) needle.

End Notions.

(* ================================================================== *)
(** ** Sample trees and worlds *)
(* ================================================================== *)

Module Samples.
Import Str Path Perms Fs Explorer.

Definition rwxr_xr_x : perms := 493%N.   (* 0755 *)
Definition rw_r__r__ : perms := 420%N.   (* 0644 *)
Definition r__r__r__ : perms := 292%N.   (* 0444 *)

(** [/home/u] holds a file, a directory [d] with one file, a link [l] to
    [d], a dangling link, and a directory [locked] that can be read but
    not searched. *)
Definition home_u_d : node :=
  Dir rwxr_xr_x 0 [("abc.txt", File rw_r__r__ 0 "")].

Definition home_u : node :=
  Dir rwxr_xr_x 0
    [ ("a.txt", File rw_r__r__ 0 "hi");
      ("d", home_u_d);
      ("l", Link 0 "d");
      ("dang", Link 0 "nowhere");
      ("locked", Dir r__r__r__ 0 [("f", File rw_r__r__ 0 "x")]) ].

Definition home_dir : node := Dir rwxr_xr_x 0 [("u", home_u)].

Definition home_tree : node := Dir rwxr_xr_x 0 [("home", home_dir)].

Definition home_fs : filesys := mk_fs home_tree ["home"; "u"].

Definition home_world (input : list string) : world :=
  mk_world home_fs 100 18%N input [] [] [].

(** The tree of the search scenario: [x/abc.txt], [y/zzabc],
    [z/noMatch] below [/root]. *)
Definition search_root : node :=
  Dir rwxr_xr_x 0
    [ ("x", Dir rwxr_xr_x 0 [("abc.txt", File rw_r__r__ 0 "")]);
      ("y", Dir rwxr_xr_x 0 [("zzabc", File rw_r__r__ 0 "")]);
      ("z", Dir rwxr_xr_x 0 [("noMatch", File rw_r__r__ 0 "")]) ].

Definition search_tree : node := Dir rwxr_xr_x 0 [("root", search_root)].

Definition search_world : world :=
  mk_world (mk_fs search_tree ["root"]) 100 18%N [] [] [] [].

(** The same with a fourth directory that cannot be read. *)
Definition sealed_world : world :=
  mk_world
    (mk_fs
       (Dir rwxr_xr_x 0
          [("root",
            Dir rwxr_xr_x 0
              [ ("sealed", Dir 0%N 0 [("abc", File rw_r__r__ 0 "")]);
                ("y", Dir rwxr_xr_x 0 [("zzabc", File rw_r__r__ 0 "")]) ])])
       ["root"])
    100 18%N [] [] [] [].

(** A platform that offers none of the optional operations. *)
Definition bare_platform : Platform :=
  {| system_now := fun w => w_now w;
     ctime := fun _ => "Thu Jan  1 00:00:00 1970" ++ nl;
     create_directories := fun w _ => (inl ENOTSUP, root (w_fs w));
     copy_recursive_overwrite := fun w _ _ => (inl ENOTSUP, root (w_fs w));
     copy_file_overwrite := fun w _ _ => (inl ENOTSUP, root (w_fs w));
     rename := fun w _ _ => (inl ENOTSUP, root (w_fs w)) |}.

End Samples.

(* ================================================================== *)
(** ** Further notions and samples *)
(* ================================================================== *)

Module Readback.
Import Str Path Perms Fs Explorer.

(** Reading a PERMS string back: a character other than the dash stands
    for the bit of its position. *)
Definition bit_of (c : ascii) (bit : perms) : perms :=
  if Ascii.eqb c "-" then none else bit.

Fixpoint perms_of_chars (s : string) (bits : list perms) : perms :=
  match s, bits with
  | String c s', b :: bs => N.lor (bit_of c b) (perms_of_chars s' bs)
  | _, _ => none
  end.

Definition perms_of_string (s : string) : perms :=
  perms_of_chars s
    [owner_read; owner_write; owner_exec; group_read; group_write;
     group_exec; others_read; others_write; others_exec].

End Readback.

Module ListingNotions.
Import Str Path Perms Fs Explorer.

(** What [list_dir] prints before the rows. *)
Definition header (cur : path) : list string :=
  [ nl ++ "Current Directory: " ++ cur ++ nl;
    rule;
    setw_left 8 "TYPE" ++ setw_left 12 "PERMS" ++ setw_left 12 "SIZE(B)"
    ++ setw_left 24 "MODIFIED" ++ "NAME" ++ nl;
    rule ].

(** An entry whose own type settles every question: anything but a
    symbolic link. *)
Definition plain (e : directory_entry) : Prop :=
  de_type e <> ft_none /\ de_type e <> ft_symlink.

(** The row of a plain entry, column by column. *)
Definition plain_row (fs : filesys) (e : directory_entry) (r : row) : Prop :=
  r_name r = filename (de_path e)
  /\ r_type r
     = (if file_type_eqb (de_type e) ft_directory then "[DIR]" else "[FILE]")
  /\ r_perm r
     = match status fs true (de_path e) with
       | inr st => perms_to_string (st_perms st)
       | inl _ => perm_placeholder
       end
  /\ r_size r
     = if file_type_eqb (de_type e) ft_regular
       then match file_size fs (de_path e) with
            | inr n => n
            | inl _ => 0%N
            end
       else 0%N.

(** Nothing but the log of file-system calls differs. *)
Definition quiet (w w' : world) : Prop :=
  w_fs w' = w_fs w /\ w_out w' = w_out w /\ w_err w' = w_err w
  /\ w_in w' = w_in w /\ w_now w' = w_now w /\ w_umask w' = w_umask w.

(** The body of the loop of [list_dir]. *)
Definition row_body {platform : Platform} (entry : directory_entry)
  : M unit :=
  bind (entry_row entry) (fun r => cout (render_row r)).

(** The world once the header is printed. *)
Definition headed (cur : path) (w : world) : world :=
  fold_left (fun w s => put_out s w) (header cur) w.

(** The line [list_dir] writes to standard error when it gives up. *)
Definition listing_error (e : fs_error) : string :=
  "Error listing directory: " ++ what e ++ nl.

End ListingNotions.

Module MoreSamples.
Import Str Path Perms Fs Explorer Samples.

(** [/home/u] with a link that points at itself between two files. *)
Definition loop_world : world :=
  mk_world
    (mk_fs
       (Dir rwxr_xr_x 0
          [("home",
            Dir rwxr_xr_x 0
              [("u",
                Dir rwxr_xr_x 0
                  [ ("a.txt", File rw_r__r__ 0 "hi");
                    ("loop", Link 0 "loop");
                    ("z.txt", File rw_r__r__ 0 "bye") ])])])
       ["home"; "u"])
    100 18%N [] [] [] [].

(** The working directory [/home/gone] is not in the tree: it was
    removed after the process entered it. *)
Definition lost_world : world :=
  mk_world (mk_fs home_tree ["home"; "gone"]) 100 18%N ["0"] [] [] [].

(** [/home/u/ro] may not be written and holds a directory that may;
    [/home/u/top] may be written and holds a directory that may not. *)
Definition nested_world : world :=
  mk_world
    (mk_fs
       (Dir rwxr_xr_x 0
          [("home",
            Dir rwxr_xr_x 0
              [("u",
                Dir rwxr_xr_x 0
                  [ ("ro",
                     Dir 365%N 0
                       [("box",
                         Dir rwxr_xr_x 0 [("f", File rw_r__r__ 0 "x")])]);
                    ("top",
                     Dir rwxr_xr_x 0
                       [("ro",
                         Dir 365%N 0 [("f", File rw_r__r__ 0 "x")])]) ])])])
       ["home"; "u"])
    100 18%N [] [] [] [].

(** [/home/u/ro] can be read and searched but not written. *)
Definition guarded_world : world :=
  mk_world
    (mk_fs
       (Dir rwxr_xr_x 0
          [("home",
            Dir rwxr_xr_x 0
              [("u",
                Dir rwxr_xr_x 0
                  [("ro", Dir 365%N 0 [("f", File rw_r__r__ 0 "x")])])])])
       ["home"; "u"])
    100 18%N [] [] [] [].

End MoreSamples.

(** Positions in a tree that was changed at one place. *)
Module Overlay.
Import Str Path Perms Fs Explorer.

(** [strip l L]: what is left of the location [L] below its prefix
    [l]. *)
Fixpoint strip (l L : list string) : option (list string) :=
  match l, L with
  | [], _ => Some L
  | c :: l', c' :: L' => if String.eqb c c' then strip l' L' else None
  | _ :: _, [] => None
  end.

(** What the node [n] found at location [l] has become once [g] was
    applied at location [L]. *)
Definition image (g : node -> node) (L l : list string) (n : node) : node :=
  match strip l L with
  | Some below => update below g n
  | None => n
  end.

(** The same position in the tree after the update. *)
Fixpoint lift (g : node -> node) (L : list string) (st : stack) : stack :=
  match st with
  | [] => []
  | (c, n) :: st' =>
      (c, image g L (location ((c, n) :: st')) n) :: lift g L st'
  end.

(** The last lookup of a resolution that ends at [name] in the directory
    at [L]. *)
Definition hit (L : list string) (name : string) (s : stack) (c : string)
  : bool :=
  match strip (location s) L with
  | Some [] => String.eqb c name
  | _ => false
  end.

(** What a resolution has become once the file [f] was added as [name]
    to the directory at [L]. *)
Definition added (g : node -> node) (L : list string) (name : string)
  (f : node) (r : resolved) : resolved :=
  match r with
  | Found s => Found (lift g L s)
  | Missing s c =>
      if hit L name s c then Found ((name, f) :: lift g L s)
      else Missing (lift g L s) c
  end.

(** What a resolution has become when nothing on its way has changed. *)
Definition moved (g : node -> node) (L : list string) (r : resolved)
  : resolved :=
  match r with
  | Found s => Found (lift g L s)
  | Missing s c => Missing (lift g L s) c
  end.


(** A component that is not empty. *)
Definition named (c : string) : bool := negb (empty c).

(** A directory gets a new modification time. *)
Definition touch (now : Z) (d : node) : node :=
  match d with
  | Dir pm _ es => Dir pm now es
  | _ => d
  end.

End Overlay.

(* ================================================================== *)
(** * Properties *)
(* ================================================================== *)

(** ** Strings and pathnames *)

Module PathFacts.
Import Str Path.

Lemma app_assoc (a b c : string) : (a ++ b) ++ c = a ++ (b ++ c).
Proof. induction a as [| x a IH]; simpl; [reflexivity | now rewrite IH]. Qed.

Lemma app_empty_r (a : string) : a ++ "" = a.
Proof. induction a as [| x a IH]; simpl; [reflexivity | now rewrite IH]. Qed.

Lemma has_slash_app (a b : string) :
  has_slash (a ++ b) = has_slash a || has_slash b.
Proof.
  induction a as [| x a IH]; simpl; [reflexivity |].
  rewrite IH. now rewrite orb_assoc.
Qed.

Lemma all_slashes_app (a b : string) :
  all_slashes (a ++ b) = all_slashes a && all_slashes b.
Proof.
  induction a as [| x a IH]; simpl; [reflexivity |].
  rewrite IH. now rewrite andb_assoc.
Qed.

Lemma is_slash_slash : is_slash slash = true.
Proof. reflexivity. Qed.

Lemma valid_name_inv (c : string) :
  valid_name c = true -> c <> "" /\ has_slash c = false.
Proof.
  unfold valid_name. intros H. apply andb_prop in H. destruct H as [H1 H2].
  split.
  - intros ->. discriminate.
  - now apply negb_true_iff in H2.
Qed.

Lemma valid_name_ends_plain (c : string) :
  valid_name c = true -> ends_plain c.
Proof.
  intros H. apply valid_name_inv in H. destruct H as [Hne Hs].
  induction c as [| x c IH]; [contradiction |].
  simpl in Hs. apply orb_false_elim in Hs. destruct Hs as [Hx Hc].
  destruct c as [| y c'].
  - exists "", x. split; [reflexivity | exact Hx].
  - destruct IH as [t [a [E Ha]]]; [discriminate | exact Hc |].
    exists (String x t), a. split; [simpl; now rewrite E | exact Ha].
Qed.

Lemma valid_name_not_all_slashes (c : string) :
  valid_name c = true -> all_slashes c = false.
Proof.
  intros H. apply valid_name_inv in H. destruct H as [Hne Hs].
  destruct c as [| x c]; [contradiction |].
  simpl in *. apply orb_false_elim in Hs. destruct Hs as [-> _]. reflexivity.
Qed.

Lemma valid_name_relative (c : string) :
  valid_name c = true -> is_absolute c = false.
Proof.
  intros H. apply valid_name_inv in H. destruct H as [Hne Hs].
  destruct c as [| x c]; [reflexivity |].
  simpl in *. apply orb_false_elim in Hs. tauto.
Qed.

Lemma ends_plain_app (s t : string) : ends_plain t -> ends_plain (s ++ t).
Proof.
  intros [u [a [-> Ha]]]. exists (s ++ u), a.
  split; [now rewrite app_assoc | exact Ha].
Qed.

(** *** [filename], [dir_part], [strip_trailing] *)

Lemma filename_plain (c : string) : has_slash c = false -> filename c = c.
Proof.
  induction c as [| x c IH]; simpl; [reflexivity |].
  intros H. apply orb_false_elim in H. destruct H as [Hx Hc].
  rewrite Hc, Hx. reflexivity.
Qed.

Lemma filename_app_slash (s c : string) :
  has_slash c = false -> filename (s ++ String slash c) = c.
Proof.
  intros Hc. induction s as [| x s IH]; simpl.
  - rewrite Hc. reflexivity.
  - rewrite has_slash_app. simpl. rewrite orb_true_r. exact IH.
Qed.

Lemma dir_part_app_slash (s c : string) :
  has_slash c = false ->
  dir_part (s ++ String slash c) = s ++ String slash "".
Proof.
  intros Hc. induction s as [| x s IH]; simpl.
  - rewrite Hc. reflexivity.
  - rewrite has_slash_app. simpl. rewrite orb_true_r. now rewrite IH.
Qed.

Lemma strip_trailing_app_slash (s : string) :
  strip_trailing (s ++ String slash "") = strip_trailing s.
Proof.
  induction s as [| x s IH]; simpl; [reflexivity |]. now rewrite IH.
Qed.

Lemma strip_trailing_ends_plain (s : string) :
  ends_plain s -> strip_trailing s = s.
Proof.
  intros [t [a [-> Ha]]].
  induction t as [| x t IH]; simpl.
  - rewrite Ha. reflexivity.
  - rewrite IH. destruct (t ++ String a "") eqn:E; [| reflexivity].
    destruct t; discriminate.
Qed.

(** *** [render] *)

Lemma join_app (cs ds : list string) :
  join (cs ++ ds)%list = join cs ++ join ds.
Proof.
  induction cs as [| c cs IH]; simpl; [reflexivity |].
  rewrite IH. now rewrite app_assoc.
Qed.

Lemma render_snoc (cs : list string) (c : string) :
  render (cs ++ [c])%list = join cs ++ String slash c.
Proof.
  unfold render. destruct (cs ++ [c])%list eqn:E.
  - destruct cs; discriminate.
  - rewrite <- E, join_app. simpl. now rewrite app_empty_r.
Qed.

Lemma join_ends_plain (cs : list string) :
  Forall (fun c => valid_name c = true) cs -> cs <> [] ->
  ends_plain (join cs).
Proof.
  intros Hv Hne.
  destruct (exists_last Hne) as [cs' [c E]]. subst cs.
  apply Forall_app in Hv. destruct Hv as [_ Hc].
  inversion Hc; subst.
  rewrite join_app. apply ends_plain_app. simpl. rewrite app_empty_r.
  apply (ends_plain_app (String slash "")).
  now apply valid_name_ends_plain.
Qed.

Lemma render_absolute (cs : list string) : is_absolute (render cs) = true.
Proof. destruct cs; reflexivity. Qed.

(** The parent of a location, computed on its pathname. *)
Lemma parent_path_render (cs : list string) (c : string) :
  Forall (fun c => valid_name c = true) (cs ++ [c])%list ->
  parent_path (render (cs ++ [c])%list) = render cs.
Proof.
  intros Hv. apply Forall_app in Hv. destruct Hv as [Hcs Hc].
  inversion Hc as [| ? ? Hvc _]; subst.
  destruct (valid_name_inv _ Hvc) as [_ Hs].
  rewrite render_snoc. unfold parent_path, has_relative_path.
  rewrite all_slashes_app. simpl.
  rewrite (valid_name_not_all_slashes _ Hvc).
  rewrite andb_false_r. simpl.
  rewrite dir_part_app_slash by exact Hs.
  rewrite strip_trailing_app_slash.
  destruct cs as [| c0 cs'].
  - reflexivity.
  - rewrite strip_trailing_ends_plain
      by (apply join_ends_plain; [exact Hcs | discriminate]).
    reflexivity.
Qed.

(** [cur / name] for a valid name is the child's pathname. *)
Lemma append_render (cs : list string) (c : string) :
  Forall (fun c => valid_name c = true) cs -> valid_name c = true ->
  append (render cs) c = render (cs ++ [c])%list.
Proof.
  intros Hcs Hc. unfold append.
  rewrite (valid_name_relative _ Hc). rewrite render_snoc.
  destruct cs as [| c0 cs'].
  - reflexivity.
  - assert (has_filename (render (c0 :: cs')) = true) as ->; [| reflexivity].
    destruct (@exists_last _ (c0 :: cs')) as [pre [l E]]; [discriminate |].
    rewrite E in *. rewrite render_snoc.
    apply Forall_app in Hcs. destruct Hcs as [_ Hl].
    inversion Hl as [| ? ? Hvl _]; subst.
    destruct (valid_name_inv _ Hvl) as [Hne Hs].
    unfold has_filename. rewrite filename_app_slash by exact Hs.
    destruct l; [contradiction | reflexivity].
Qed.

Lemma filename_render_snoc (cs : list string) (c : string) :
  valid_name c = true -> filename (render (cs ++ [c])%list) = c.
Proof.
  intros Hc. destruct (valid_name_inv _ Hc) as [_ Hs].
  rewrite render_snoc. now apply filename_app_slash.
Qed.

End PathFacts.

(** ** Going up *)

Module GoUpFacts.
Import Str Path Explorer PathFacts.

(** On the pathname of a location, going up drops the last name. *)
Lemma go_up_render (cs : list string) :
  Forall (fun c => valid_name c = true) cs ->
  go_up (render cs) = render (removelast cs).
Proof.
  intros Hv.
  destruct cs as [| c0 cs'] using rev_ind; [reflexivity |].
  rewrite removelast_last. unfold go_up, has_parent_path.
  rewrite parent_path_render by exact Hv.
  destruct cs'; reflexivity.
Qed.

(** C4: at the root the cursor stays where it is; at any other location
    it moves to the parent, the location with the last name dropped.  In
    both cases the command of the loop returns normally and leaves the
    world as it was: nothing is printed, nothing is reported. *)
Theorem go_up_parent :
  forall {platform : Platform} (cs : list string) (w : world),
    Forall (fun c => valid_name c = true) cs ->
    go_up (render []) = render []
    /\ go_up (render cs) = render (removelast cs)
    /\ command "3" (render cs) w
       = (Ret (Continue, render (removelast cs)), w).
Proof.
  intros platform cs w Hv.
  split; [reflexivity |]. split; [now apply go_up_render |].
  unfold command. cbn [String.eqb Ascii.eqb Bool.eqb]. unfold ret.
  now rewrite go_up_render.
Qed.

Lemma go_up_parent_witness :
  go_up "/" = "/"
  /\ go_up "/home/u" = "/home"
  /\ @command Samples.bare_platform "3" "/home/u" (Samples.home_world [])
     = (Ret (Continue, "/home"), Samples.home_world []).
Proof.
  apply (@go_up_parent Samples.bare_platform ["home"; "u"]
           (Samples.home_world [])).
  repeat constructor.
Defined.

(** Any pathname made of separators only is left alone as well. *)
(** Leading separators are one root directory. *)
Example parent_path_of_doubled_root :
  parent_path "//home" = "/" /\ parent_path "//home/u" = "//home"
  /\ parent_path "/home//u" = "/home" /\ parent_path "home" = "".
Proof. repeat split. Qed.

Lemma go_up_root (p : path) : all_slashes p = true -> go_up p = p.
Proof.
  intros H. unfold go_up, has_parent_path, parent_path, has_relative_path.
  rewrite H. simpl. destruct (empty p); reflexivity.
Qed.

End GoUpFacts.

(** ** The listing: TYPE and PERMS columns *)

Module ListingFacts.
Import Str Path Perms Fs Explorer Samples.

Lemma check_rwx (p bit : perms) (c : ascii) :
  rwx_char c = true -> rwx_char (check p bit c) = true.
Proof.
  intros Hc. unfold check.
  destruct (negb (N.eqb (N.land p bit) none)); [exact Hc | reflexivity].
Qed.

(** Whatever the bits, [perms_to_string] yields nine characters, each one
    of [r], [w], [x], [-]. *)
Lemma perms_to_string_shape (p : perms) :
  String.length (perms_to_string p) = 9
  /\ all_chars rwx_char (perms_to_string p) = true.
Proof.
  split; [reflexivity |].
  unfold perms_to_string; simpl.
  rewrite !check_rwx by reflexivity. reflexivity.
Qed.

(** The PERMS column of a row is either such a string, or the
    placeholder. *)
Lemma entry_perm_cases (p : path) (w : world) :
  exists s w',
    entry_perm p w = (Ret s, w')
    /\ ((exists st, status (w_fs w) true p = inr st
                    /\ s = perms_to_string (st_perms st))
        \/ ((exists e, status (w_fs w) true p = inl e)
            /\ s = perm_placeholder)).
Proof.
  unfold entry_perm, try_catch, fs_status, query, bind, call, ret; simpl.
  destruct (status (w_fs w) true p) as [e | st] eqn:E.
  - do 2 eexists. split; [reflexivity |]. right. split; eauto.
  - do 2 eexists. split; [reflexivity |]. left. eauto.
Qed.

(** C2, at the failing input: in a directory that can be read but not
    searched, the status query on an entry fails, and the PERMS column of
    its row is the placeholder, which has ten characters, not nine. *)
Theorem perm_placeholder_has_ten_characters :
  exists w',
    status home_fs true "/home/u/locked/f" = inl EACCES
    /\ entry_perm "/home/u/locked/f" (home_world []) = (Ret perm_placeholder, w')
    /\ String.length perm_placeholder = 10.
Proof.
  eexists. split; [reflexivity |]. split; reflexivity.
Qed.

(** Entries come from the directory: each carries the type of a node. *)
Lemma iterator_entry (fs : filesys) (cur : path) entries e :
  directory_iterator fs cur = inr entries -> In e entries ->
  exists name c, e = mk_entry (append cur name) (node_type c).
Proof.
  unfold directory_iterator.
  destruct (opendir fs cur) as [err | d]; [discriminate |].
  intros H; inversion H; subst; clear H. intros Hin.
  apply in_map_iff in Hin. destruct Hin as [[name c] [He _]].
  exists name, c. symmetry. exact He.
Qed.

Lemma node_type_not_none (c : node) : node_type c <> ft_none.
Proof. destruct c as [? ? ? | [] ? ? | ? ? | ? ? ?]; discriminate. Qed.

(** C1, as amended: for an entry of a listing, the TYPE column is [DIR]
    when the entry is a directory or a link whose target is a directory,
    [LNK] when it is a link whose target is not a directory, and [FILE]
    for everything else. *)
Theorem listing_type_label :
  forall (w : world) (cur : path) entries e,
    directory_iterator (w_fs w) cur = inr entries -> In e entries ->
    (de_type e = ft_directory ->
     exists w', entry_type_label e w = (Ret "[DIR]", w'))
    /\ (de_type e = ft_symlink ->
        forall st, status (w_fs w) true (de_path e) = inr st ->
        exists w',
          entry_type_label e w
          = (Ret (if status_is_directory st then "[DIR]" else "[LNK]"), w'))
    /\ (de_type e <> ft_directory -> de_type e <> ft_symlink ->
        exists w', entry_type_label e w = (Ret "[FILE]", w')).
Proof.
  intros w cur entries e Hit Hin.
  destruct (iterator_entry _ _ _ _ Hit Hin) as [name [c ->]].
  pose proof (node_type_not_none c) as Hnone.
  unfold entry_type_label, entry_is_directory, entry_is_symlink,
    entry_file_type, fs_status, query, bind, call, ret; simpl.
  repeat split.
  - intros ->. simpl. eauto.
  - intros -> st Hst. simpl. rewrite Hst.
    unfold status_is_directory.
    destruct (file_type_eqb (st_type st) ft_directory); simpl; eauto.
  - intros Hd Hl.
    destruct (node_type c); try contradiction; simpl; eauto.
Qed.

Lemma listing_type_label_witness :
  exists w',
    entry_type_label (mk_entry "/home/u/dang" ft_symlink) (home_world [])
    = (Ret "[LNK]", w').
Proof.
  destruct (listing_type_label (home_world []) "/home/u"
              [ mk_entry "/home/u/a.txt" ft_regular;
                mk_entry "/home/u/d" ft_directory;
                mk_entry "/home/u/l" ft_symlink;
                mk_entry "/home/u/dang" ft_symlink;
                mk_entry "/home/u/locked" ft_directory ]
              (mk_entry "/home/u/dang" ft_symlink)
              eq_refl (or_intror (or_intror (or_intror (or_introl eq_refl)))))
    as [_ [Hlink _]].
  exact (Hlink eq_refl (mk_status ft_not_found unknown) eq_refl).
Defined.

(** C1, as stated, fails: [/home/u/l] is a symbolic link (to the
    directory [d]), it is an entry of the listing of [/home/u], and its
    TYPE column is [DIR], not [LNK]. *)
Lemma symlink_to_directory_is_listed_as_dir :
  (exists entries,
      directory_iterator home_fs "/home/u" = inr entries
      /\ In (mk_entry "/home/u/l" ft_symlink) entries)
  /\ stat_node home_fs false "/home/u/l" = inr (Link 0 "d")
  /\ stat_node home_fs true "/home/u/l" = inr home_u_d
  /\ fst (entry_type_label (mk_entry "/home/u/l" ft_symlink) (home_world []))
     = Ret "[DIR]"
  /\ fst (entry_type_label (mk_entry "/home/u/l" ft_symlink) (home_world []))
     <> Ret "[LNK]".
Proof.
  split.
  - eexists. split; [vm_compute; reflexivity |]. simpl. tauto.
  - split; [vm_compute; reflexivity |].
    split; [vm_compute; reflexivity |].
    split; [vm_compute; reflexivity |].
    vm_compute. discriminate.
Qed.

(** The listing of [/home/u], row by row: the link [l] to a directory is
    shown as a directory, the dangling link as a link. *)
Example listing_of_home_u :
  map r_type
    (map (fun e => match @entry_row bare_platform e (home_world []) with
                   | (Ret r, _) => r
                   | (Throw _, _) => mk_row "" "" 0 "" ""
                   end)
         [ mk_entry "/home/u/a.txt" ft_regular;
           mk_entry "/home/u/d" ft_directory;
           mk_entry "/home/u/l" ft_symlink;
           mk_entry "/home/u/dang" ft_symlink;
           mk_entry "/home/u/locked" ft_directory ])
  = ["[FILE]"; "[DIR]"; "[DIR]"; "[LNK]"; "[DIR]"].
Proof. vm_compute. reflexivity. Qed.

End ListingFacts.


(** ** Reasoning about commands *)

Module MonadFacts.
Import Str Path Perms Fs Explorer Notions.
Local Open Scope monad_scope.

Lemma bind_run {A B} (m : M A) (k : A -> M B) (w w1 : world) (a : A) :
  m w = (Ret a, w1) -> bind m k w = k a w1.
Proof. intros H. unfold bind. rewrite H. reflexivity. Qed.

Lemma bind_throw {A B} (m : M A) (k : A -> M B) (w w1 : world) e :
  m w = (Throw e, w1) -> bind m k w = (Throw e, w1).
Proof. intros H. unfold bind. rewrite H. reflexivity. Qed.

Lemma returns_ret {A} (a : A) : returns (ret a).
Proof. intros w. exists a, w. reflexivity. Qed.

Lemma returns_bind {A B} (m : M A) (k : A -> M B) :
  returns m -> (forall a, returns (k a)) -> returns (bind m k).
Proof.
  intros Hm Hk w. destruct (Hm w) as [a [w1 E]].
  rewrite (bind_run _ _ _ _ _ E). apply Hk.
Qed.

Lemma returns_try_catch {A} (m : M A) (h : fs_error -> M A) :
  (forall e, returns (h e)) -> returns (try_catch m h).
Proof.
  intros Hh w. unfold try_catch.
  destruct (m w) as [[a | e] w1]; [eauto | apply Hh].
Qed.

Lemma returns_for_each {A} (l : list A) (body : A -> M unit) :
  (forall a, returns (body a)) -> returns (for_each l body).
Proof.
  intros Hb. induction l as [| a l IH]; simpl.
  - apply returns_ret.
  - apply returns_bind; [apply Hb | intros _; exact IH].
Qed.

Lemma returns_cout (s : string) : returns (cout s).
Proof. intros w. do 2 eexists. reflexivity. Qed.

Lemma returns_cerr (s : string) : returns (cerr s).
Proof. intros w. do 2 eexists. reflexivity. Qed.

Lemma returns_getline : returns getline.
Proof.
  intros w. unfold getline. destruct (w_in w); do 2 eexists; reflexivity.
Qed.

(** A command of type [unit] that returns, returns [tt]. *)
Lemma returns_unit (m : M unit) :
  returns m -> forall w, exists w', m w = (Ret tt, w').
Proof. intros H w. destruct (H w) as [[] [w' E]]. eauto. Qed.

(** *** Frames: what a command leaves alone *)

Section Frames.
Context (R : world -> world -> Prop) `{Frame R}.

Lemma keeps_ret {A} (a : A) : keeps R (ret a).
Proof. intros w. apply frame_refl. Qed.

Lemma keeps_bind {A B} (m : M A) (k : A -> M B) :
  keeps R m -> (forall a, keeps R (k a)) -> keeps R (bind m k).
Proof.
  intros Hm Hk w. unfold bind. specialize (Hm w).
  destruct (m w) as [[a | e] w1]; simpl in *.
  - eapply frame_trans; [exact Hm | apply Hk].
  - exact Hm.
Qed.

Lemma keeps_try_catch {A} (m : M A) (h : fs_error -> M A) :
  keeps R m -> (forall e, keeps R (h e)) -> keeps R (try_catch m h).
Proof.
  intros Hm Hh w. unfold try_catch. specialize (Hm w).
  destruct (m w) as [[a | e] w1]; simpl in *.
  - exact Hm.
  - eapply frame_trans; [exact Hm | apply Hh].
Qed.

Lemma keeps_for_each {A} (l : list A) (body : A -> M unit) :
  (forall a, keeps R (body a)) -> keeps R (for_each l body).
Proof.
  intros Hb. induction l as [| a l IH]; simpl.
  - apply keeps_ret.
  - apply keeps_bind; [apply Hb | intros _; exact IH].
Qed.

Lemma keeps_if {A} (b : bool) (m1 m2 : M A) :
  keeps R m1 -> keeps R m2 -> keeps R (if b then m1 else m2).
Proof. destruct b; auto. Qed.

Lemma keeps_query {A} c op p (f : filesys -> errno + A) :
  keeps R (call c) -> keeps R (query c op p f).
Proof.
  intros Hc. unfold query. apply keeps_bind; [exact Hc | intros _].
  intros w. destruct (f (w_fs w)); apply frame_refl.
Qed.

(** The world after a command that returned. *)
Lemma keeps_run {A} (m : M A) (w w' : world) (o : outcome A) :
  keeps R m -> m w = (o, w') -> R w w'.
Proof. intros Hm E. specialize (Hm w). rewrite E in Hm. exact Hm. Qed.

End Frames.

#[export] Instance same_fs_frame : Frame same_fs.
Proof. split; unfold same_fs; congruence. Qed.

#[export] Instance input_shrinks_frame : Frame input_shrinks.
Proof. split; unfold input_shrinks; intros; lia. Qed.

#[export] Instance same_err_frame : Frame same_err.
Proof. split; unfold same_err; congruence. Qed.

#[export] Instance same_in_frame : Frame same_in.
Proof. split; unfold same_in; congruence. Qed.

#[export] Instance input_within_frame : Frame input_within.
Proof.
  split; unfold input_within.
  - intros w. apply incl_refl.
  - intros a b c Hab Hbc. eapply incl_tran; eassumption.
Qed.

(** Compositional proof of a frame: split the command along its binds,
    handlers, loops and branches, and settle the primitives by
    computation. *)
Ltac frame_leaf :=
  let w := fresh "w" in
  intros w;
  cbv [cout cerr call getline fs_current_path time_to_string ofstream_open
       mutation query bind ret put_out put_err log_call set_root set_in
       same_fs input_shrinks same_err same_in input_within];
  repeat match goal with
         | |- context [match ?x with _ => _ end] =>
             lazymatch x with
             | context [match _ with _ => _ end] => fail
             | _ => destruct x eqn:?
             end
         end;
  simpl;
  repeat match goal with
         | E : ?a = _ |- context [?a] => rewrite E
         end;
  simpl; auto using incl_refl, incl_tl; try lia.

Ltac frame :=
  repeat first
    [ apply keeps_ret
    | apply keeps_bind
    | apply keeps_try_catch
    | apply keeps_for_each
    | apply keeps_if
    | match goal with
      | |- keeps _ (match ?x with _ => _ end) => destruct x
      | |- forall _, _ => intro
      end
    | progress cbv beta
    | exact _
    | solve [frame_leaf] ].

End MonadFacts.


(** ** The command loop *)

Module ProgramFacts.
Import Str Path Perms Fs Explorer Notions MonadFacts.
Local Open Scope monad_scope.

Section WithPlatform.
Context {platform : Platform}.

(** *** Exceptions stay inside the helpers *)

Lemma list_dir_returns (cur : path) : returns (list_dir cur).
Proof.
  unfold list_dir.
  repeat (apply returns_bind; [apply returns_cout | intros _]).
  apply returns_try_catch. intros e. apply returns_cerr.
Qed.

Lemma report_returns (e : fs_error) : returns (report e).
Proof. apply returns_cerr. Qed.

Lemma create_file_returns (p : path) : returns (create_file p).
Proof. apply returns_try_catch, report_returns. Qed.

Lemma create_directory_path_returns (p : path) :
  returns (create_directory_path p).
Proof. apply returns_try_catch, report_returns. Qed.

Lemma delete_path_returns (p : path) : returns (delete_path p).
Proof. apply returns_try_catch, report_returns. Qed.

Lemma copy_path_returns (p q : path) : returns (copy_path p q).
Proof. apply returns_try_catch, report_returns. Qed.

Lemma move_path_returns (p q : path) : returns (move_path p q).
Proof. apply returns_try_catch, report_returns. Qed.

Lemma search_recursive_returns (p : path) (needle : string) :
  returns (search_recursive p needle).
Proof. apply returns_try_catch. intros e. apply returns_cerr. Qed.

Lemma input_path_returns (prompt : string) : returns (input_path prompt).
Proof.
  unfold input_path.
  apply returns_bind; [apply returns_cout | intros _].
  apply returns_bind; [apply returns_getline | intros l].
  destruct (empty (snd l)); apply returns_ret.
Qed.

Lemma print_menu_returns : returns print_menu.
Proof. apply returns_cout. Qed.

(** *** Standard input only shrinks *)

Ltac unfold_program :=
  unfold command, enter_directory, create_file, create_directory_path,
    delete_path, copy_path, move_path, search_recursive, input_path,
    print_menu, report, list_dir, entry_row, entry_type_label, entry_perm,
    entry_size, entry_modified, entry_is_directory, entry_is_symlink,
    entry_is_regular_file, entry_file_type, entry_file_size,
    fs_directory_iterator, fs_recursive_directory_iterator, fs_exists,
    fs_is_directory, fs_canonical, fs_status, fs_symlink_status,
    fs_file_size, fs_last_write_time, fs_remove, fs_remove_all,
    fs_create_directories, fs_copy, fs_copy_file, fs_rename.

Lemma list_dir_same_in (cur : path) : keeps same_in (list_dir cur).
Proof. unfold_program. frame. Qed.

Lemma command_input (choice : string) (cur : path) :
  keeps input_shrinks (command choice cur).
Proof. unfold_program. frame. Qed.

(** A turn that continues has consumed its choice line. *)
Lemma iteration_progress (cur : path) (w : world) :
  match iteration cur w with
  | (Ret (Continue, _), w') => length (w_in w') < length (w_in w)
  | _ => True
  end.
Proof.
  unfold iteration.
  destruct (returns_unit _ (list_dir_returns cur) w) as [w1 E1].
  rewrite (bind_run _ _ _ _ _ E1).
  pose proof (keeps_run same_in _ _ _ _ (list_dir_same_in cur) E1) as H1.
  unfold same_in in H1.
  unfold bind at 1. unfold print_menu, cout. cbv beta iota.
  unfold bind at 1. unfold getline. simpl w_in.
  destruct (w_in w1) as [| l rest] eqn:Ein; simpl.
  - exact I.
  - pose proof (command_input l cur (set_in rest (put_out
      (nl ++ "Commands:" ++ nl ++ "1. List current directory" ++ nl
       ++ "2. Enter directory" ++ nl ++ "3. Go up (..)" ++ nl
       ++ "4. Create file" ++ nl ++ "5. Create directory" ++ nl
       ++ "6. Delete file/directory" ++ nl ++ "7. Copy file/directory" ++ nl
       ++ "8. Move/Rename file/directory" ++ nl
       ++ "9. Search by name (recursive)" ++ nl ++ "0. Exit" ++ nl
       ++ "Choose: ") w1))) as Hc.
    unfold input_shrinks in Hc. simpl w_in in Hc.
    match goal with
    | |- context [command l cur ?x] => destruct (command l cur x) as [[[c p] | e] w2]
    end; simpl in *; [| exact I].
    destruct c; [| exact I].
    rewrite <- H1. simpl. lia.
Qed.

(** The loop ends within one turn per input line, plus one. *)
Lemma main_loop_total (fuel : nat) :
  forall cur w, length (w_in w) < fuel ->
  exists r, main_loop fuel cur w = Some r.
Proof.
  induction fuel as [| fuel IH]; intros cur w Hlt; [lia |].
  simpl. pose proof (iteration_progress cur w) as Hp.
  destruct (iteration cur w) as [[[c p] | e] w'].
  - destruct c.
    + apply IH. lia.
    + eauto.
  - eauto.
Qed.

(** *** The cursor *)

Lemma lands_ret (c : control) (cur : path) : lands cur (ret (c, cur)).
Proof. intros w. exists c, w. reflexivity. Qed.

Lemma lands_bind {A} (cur : path) (m : M A) (k : A -> M (control * path)) :
  returns m -> (forall a, lands cur (k a)) -> lands cur (bind m k).
Proof.
  intros Hm Hk w. destruct (Hm w) as [a [w1 E]].
  rewrite (bind_run _ _ _ _ _ E). apply Hk.
Qed.

Lemma eqb_false_of_neq (a b : string) : a <> b -> String.eqb a b = false.
Proof. intros H. apply String.eqb_neq. exact H. Qed.

(** Every choice but "2" and "3" returns to the loop with the cursor it
    was given. *)
Lemma command_keeps_cursor (choice : string) (cur : path) :
  choice <> "2" -> choice <> "3" -> lands cur (command choice cur).
Proof.
  intros H2 H3. unfold command.
  rewrite (eqb_false_of_neq _ _ H2), (eqb_false_of_neq _ _ H3).
  repeat match goal with
         | |- lands _ (if ?b then _ else _) => destruct b
         end;
    repeat first
      [ apply lands_ret
      | apply lands_bind;
        [ first [ apply input_path_returns | apply create_file_returns
                | apply create_directory_path_returns
                | apply delete_path_returns | apply copy_path_returns
                | apply move_path_returns | apply returns_cout
                | apply returns_getline | idtac ]
        | intros ? ]
      | match goal with
        | |- lands _ (match ?x with _ => _ end) => destruct x
        end ].
  destruct (negb (empty (snd a0)));
    [apply search_recursive_returns | apply returns_ret].
Qed.

(** C8: a turn of the loop whose choice line is not "2" (enter directory)
    and not "3" (go up) ends with the cursor it started with; this covers
    listing, the create, delete, copy, move and search commands, exit,
    invalid choices and end of input. *)
Theorem cursor_moves_only_on_navigation :
  forall (cur : path) (w : world),
    (forall rest, w_in w <> "2" :: rest) ->
    (forall rest, w_in w <> "3" :: rest) ->
    exists c w', iteration cur w = (Ret (c, cur), w').
Proof.
  intros cur w H2 H3. unfold iteration.
  destruct (returns_unit _ (list_dir_returns cur) w) as [w1 E1].
  rewrite (bind_run _ _ _ _ _ E1).
  pose proof (keeps_run same_in _ _ _ _ (list_dir_same_in cur) E1) as H1.
  unfold same_in in H1.
  unfold bind at 1. unfold print_menu, cout. cbv beta iota.
  unfold bind at 1. unfold getline. simpl w_in. rewrite H1.
  destruct (w_in w) as [| l rest] eqn:Ein; simpl.
  - do 2 eexists. reflexivity.
  - apply command_keeps_cursor.
    + intros ->. apply (H2 rest). reflexivity.
    + intros ->. apply (H3 rest). reflexivity.
Qed.

(** C10: at every path prompt an empty line cancels the command: the
    command returns to the loop with the same cursor, the file tree is
    untouched and no file-system call has been made.  For copy and move
    this holds at the source prompt and at the destination prompt. *)
Theorem empty_line_cancels :
  forall (choice : string) (cur : path) (w : world)
         (first : string) (rest : list string),
    (In choice ["2"; "4"; "5"; "6"; "7"; "8"] /\ w_in w = "" :: rest)
    \/ (In choice ["7"; "8"] /\ first <> "" /\ w_in w = first :: "" :: rest) ->
    exists w',
      command choice cur w = (Ret (Continue, cur), w')
      /\ w_fs w' = w_fs w
      /\ w_calls w' = w_calls w.
Proof.
  intros choice cur w first rest [[Hc Hin] | [Hc [Hne Hin]]].
  - simpl in Hc.
    repeat (destruct Hc as [<- | Hc]; [|]); try contradiction;
      unfold command, input_path, bind, cout, getline, ret; simpl;
      rewrite Hin; simpl; eexists; repeat split; reflexivity.
  - assert (empty first = false) as He
        by (destruct first; [contradiction | reflexivity]).
    simpl in Hc.
    repeat (destruct Hc as [<- | Hc]; [|]); try contradiction;
      unfold command, input_path, bind, cout, getline, ret; simpl;
      rewrite Hin; simpl; rewrite He; simpl;
      eexists; repeat split; reflexivity.
Qed.

(** *** How the process ends *)

Lemma iteration_breaks (cur : path) (w : world) :
  w_in w = [] \/ (exists rest, w_in w = "0" :: rest) ->
  exists w', iteration cur w = (Ret (Break, cur), w').
Proof.
  intros Hin. unfold iteration.
  destruct (returns_unit _ (list_dir_returns cur) w) as [w1 E1].
  rewrite (bind_run _ _ _ _ _ E1).
  pose proof (keeps_run same_in _ _ _ _ (list_dir_same_in cur) E1) as H1.
  unfold same_in in H1.
  unfold bind at 1. unfold print_menu, cout. cbv beta iota.
  unfold bind at 1. unfold getline. simpl w_in. rewrite H1.
  destruct Hin as [-> | [rest ->]]; simpl.
  - eexists. reflexivity.
  - unfold command, bind, cout, ret. simpl. eexists. reflexivity.
Qed.

(** What [fs::current_path] does: it returns the pathname of the working
    directory, or throws when the directory is gone. *)
Lemma fs_current_path_run (w : world) :
  fs_current_path w
  = match current_path (w_fs w) with
    | inr cur => (Ret cur, log_call CCurrentPath w)
    | inl e =>
        (Throw (mk_error "cannot get current path" e EmptyString),
         log_call CCurrentPath w)
    end.
Proof.
  unfold fs_current_path, query, bind, call. cbn [w_fs log_call].
  destruct (current_path (w_fs w)); reflexivity.
Qed.

(** The process always ends, within one turn per input line plus one;
    whenever [main] returns, the exit code is 0; and a turn that reads the
    exit command, or meets the end of input, makes the loop return, upon
    which [main] returns 0. *)
Lemma main_ends :
  forall (w : world),
    (exists e w', main (S (length (w_in w))) w = Some (e, w'))
    /\ (forall fuel code w',
          main fuel w = Some (Exited code, w') -> code = 0%Z)
    /\ (forall fuel cur w1,
          w_in w1 = [] \/ (exists rest, w_in w1 = "0" :: rest) ->
          exists w', main_loop (S fuel) cur w1 = Some (Ret tt, w'))
    /\ (forall fuel w0 cur w',
          fs_current_path w = (Ret cur, w0) ->
          main_loop fuel cur w0 = Some (Ret tt, w') ->
          main fuel w = Some (Exited 0, w')).
Proof.
  intros w. repeat split.
  - unfold main. rewrite fs_current_path_run.
    destruct (current_path (w_fs w)) as [e | cur]; [eauto |].
    destruct (main_loop_total (S (length (w_in w)))
                cur (log_call CCurrentPath w))
      as [[[[] | e] w'] E]; [simpl; lia | |];
      rewrite E; eauto.
  - intros fuel code w'. unfold main.
    destruct (fs_current_path w) as [[cur | e] w0]; [| discriminate].
    destruct (main_loop fuel cur w0) as [[[[] | e] w1] |];
      try discriminate.
    intros H. inversion H. reflexivity.
  - intros fuel cur w1 Hin.
    destruct (iteration_breaks cur w1 Hin) as [w' E].
    exists w'. simpl. rewrite E. reflexivity.
  - intros fuel w0 cur w' Hc Hl. unfold main. rewrite Hc, Hl. reflexivity.
Qed.

(** *** Runs that never enter a directory *)

Lemma command_input_within (choice : string) (cur : path) :
  keeps input_within (command choice cur).
Proof. unfold_program. frame. Qed.

(** Only the enter-directory command lets an exception through. *)
Lemma iteration_throws_on_enter_only (cur : path) (w w' : world) e :
  iteration cur w = (Throw e, w') -> exists rest, w_in w = "2" :: rest.
Proof.
  unfold iteration.
  destruct (returns_unit _ (list_dir_returns cur) w) as [w1 E1].
  rewrite (bind_run _ _ _ _ _ E1).
  pose proof (keeps_run same_in _ _ _ _ (list_dir_same_in cur) E1) as H1.
  unfold same_in in H1.
  unfold bind at 1. unfold print_menu, cout. cbv beta iota.
  unfold bind at 1. unfold getline. simpl w_in. rewrite H1.
  destruct (w_in w) as [| l rest] eqn:Ein; simpl; [discriminate |].
  destruct (string_dec l "2") as [-> | H2]; [eauto |].
  destruct (string_dec l "3") as [-> | H3].
  - unfold command, ret. simpl. discriminate.
  - intros H.
    match type of H with
    | command l cur ?x = _ =>
        destruct (command_keeps_cursor l cur H2 H3 x) as [c [w2 E]]
    end.
    rewrite E in H. discriminate.
Qed.

Lemma iteration_input_within (cur : path) :
  keeps input_within (iteration cur).
Proof.
  unfold iteration.
  apply keeps_bind; [exact _ | unfold_program; frame | intros ?; cbv beta].
  apply keeps_bind; [exact _ | unfold print_menu; frame | intros ?; cbv beta].
  apply keeps_bind; [exact _ | frame | intros l; cbv beta].
  destruct (negb (fst l)); [frame | apply command_input_within].
Qed.

(** An input in which no line is "2" always ends with exit code 0. *)
Lemma main_loop_returns_without_enter (fuel : nat) :
  forall cur w,
    length (w_in w) < fuel -> ~ In "2" (w_in w) ->
    exists w', main_loop fuel cur w = Some (Ret tt, w').
Proof.
  induction fuel as [| fuel IH]; intros cur w Hlt Hno; [lia |].
  simpl. pose proof (iteration_progress cur w) as Hp.
  pose proof (iteration_input_within cur w) as Hin.
  destruct (iteration cur w) as [[[c p] | e] w'] eqn:E.
  - destruct c; [| eauto].
    apply IH; [lia |]. intros H2. apply Hno. apply (Hin _ H2).
  - destruct (iteration_throws_on_enter_only _ _ _ _ E) as [rest Hr].
    exfalso. apply Hno. rewrite Hr. now left.
Qed.

Lemma main_exits_zero_without_enter (w : world) (cur : path) :
  current_path (w_fs w) = inr cur ->
  ~ In "2" (w_in w) ->
  exists w', main (S (length (w_in w))) w = Some (Exited 0, w').
Proof.
  intros Hcur Hno. unfold main. rewrite fs_current_path_run, Hcur.
  destruct (main_loop_returns_without_enter (S (length (w_in w)))
              cur (log_call CCurrentPath w))
    as [w' E]; [simpl; lia | exact Hno |].
  rewrite E. eauto.
Qed.

(** "Enter directory" with a candidate whose status query throws ends the
    turn by that exception. *)
Lemma iteration_enter_throws (cur dir : path) (w : world) (rest : list string)
  (e : errno) :
  w_in w = "2" :: dir :: rest -> dir <> EmptyString ->
  status (w_fs w) true (absolute cur dir) = inl e ->
  exists w',
    iteration cur w = (Throw (mk_error "status" e (absolute cur dir)), w').
Proof.
  intros Hin Hdir Hst. unfold iteration.
  destruct (returns_unit _ (list_dir_returns cur) w) as [w1 E1].
  rewrite (bind_run _ _ _ _ _ E1).
  pose proof (keeps_run same_in _ _ _ _ (list_dir_same_in cur) E1) as H1.
  assert (w_fs w1 = w_fs w) as F1.
  { assert (keeps same_fs (list_dir cur)) as K by (unfold_program; frame).
    exact (keeps_run same_fs _ _ _ _ K E1). }
  unfold same_in in H1.
  unfold bind at 1. unfold print_menu, cout. cbv beta iota.
  unfold bind at 1. unfold getline. simpl w_in. rewrite H1, Hin.
  cbn [fst snd negb].
  unfold command. cbn [String.eqb Ascii.eqb Bool.eqb].
  unfold input_path, bind at 1 2 3, cout, getline, ret.
  cbn [w_in put_out set_in snd].
  assert (empty dir = false) as ->
      by (destruct dir; [contradiction | reflexivity]).
  unfold bind at 1.
  unfold enter_directory, fs_exists, fs_status, query, bind, call.
  cbn [w_fs put_out set_in log_call]. rewrite F1, Hst.
  eexists. reflexivity.
Qed.

(** C9: the failing input.  The working directory is [/home/u], where
    [locked] is a directory that may be read but not searched, and the
    input is "2", "locked/f", "0".  The status query of "Enter
    directory" throws, [main] has no handler around it, and the run is
    terminated by the exception at its first turn: on no platform and
    with no number of turns does [main] return, so the exit command is
    never read and no exit code 0 is produced. *)
Theorem run_ends_by_exception :
  forall (fuel : nat),
    exists w',
      main (S fuel) (Samples.home_world ["2"; "locked/f"; "0"])
      = Some (Terminated (mk_error "status" EACCES "/home/u/locked/f"), w').
Proof.
  intros fuel. unfold main. rewrite fs_current_path_run.
  assert (current_path (w_fs (Samples.home_world ["2"; "locked/f"; "0"]))
          = inr "/home/u") as -> by (vm_compute; reflexivity).
  destruct (iteration_enter_throws "/home/u" "locked/f"
              (log_call CCurrentPath
                 (Samples.home_world ["2"; "locked/f"; "0"]))
              ["0"] EACCES)
    as [w' E]; [reflexivity | discriminate | vm_compute; reflexivity |].
  assert (absolute "/home/u" "locked/f" = "/home/u/locked/f") as Ha
      by reflexivity.
  rewrite Ha in E. cbn [main_loop]. rewrite E. eauto.
Qed.

End WithPlatform.

Lemma main_ends_witness :
  exists w',
    @main_loop Samples.bare_platform 1 "/home/u" (Samples.home_world ["0"])
    = Some (Ret tt, w').
Proof.
  destruct (@main_ends Samples.bare_platform (Samples.home_world []))
    as [_ [_ [H _]]].
  apply (H 0 "/home/u" (Samples.home_world ["0"])).
  right. exists []. reflexivity.
Defined.

(** A whole run: delete, search, go up, exit. *)
Example a_run_exits_with_zero :
  exists w',
    @main Samples.bare_platform 10
      (Samples.home_world ["6"; "d"; "9"; "a"; "3"; "bogus"; "0"])
    = Some (Exited 0, w').
Proof. eexists. vm_compute. reflexivity. Qed.

Lemma empty_line_cancels_witness :
  exists w',
    @command Samples.bare_platform "6" "/home/u" (Samples.home_world [""; "0"])
    = (Ret (Continue, "/home/u"), w')
    /\ w_fs w' = Samples.home_fs
    /\ w_calls w' = [].
Proof.
  apply (@empty_line_cancels Samples.bare_platform "6" "/home/u"
           (Samples.home_world [""; "0"]) "" ["0"]).
  left. split; [simpl; tauto | reflexivity].
Defined.

Lemma cursor_moves_only_on_navigation_witness :
  exists c w',
    @iteration Samples.bare_platform "/home/u"
      (Samples.home_world ["6"; "d"; "0"])
    = (Ret (c, "/home/u"), w').
Proof.
  apply (@cursor_moves_only_on_navigation Samples.bare_platform);
    intros rest; discriminate.
Defined.

End ProgramFacts.

(** ** The file tree *)

Module FsFacts.
Import Str Path Perms Fs PathFacts.

(** Induction on a tree, with the property available for every child of
    a directory. *)
Lemma node_ind2 (P : node -> Prop) :
  (forall pm m c, P (File pm m c)) ->
  (forall k pm m, P (Special k pm m)) ->
  (forall m t, P (Link m t)) ->
  (forall pm m es, Forall (fun e => P (snd e)) es -> P (Dir pm m es)) ->
  forall n, P n.
Proof.
  intros HF HS HL HD.
  fix IH 1. intros [pm m c | k pm m | m t | pm m es].
  - apply HF.
  - apply HS.
  - apply HL.
  - apply HD. induction es as [| [name c] es IHes].
    + constructor.
    + constructor; [apply IH | exact IHes].
Qed.

(** *** Unfolding [walk] *)

Lemma walk_nil fuel rt fl st : walk fuel rt fl st [] = inr (Found st).
Proof. destruct fuel; reflexivity. Qed.

Lemma walk_cons fuel rt fl st c rest :
  walk fuel rt fl st (c :: rest) =
  match here rt st with
  | Dir pm _ es =>
      if empty c then walk fuel rt fl st rest
      else if negb (can_search pm) then inl EACCES
      else if String.eqb c "." then walk fuel rt fl st rest
      else if String.eqb c ".." then walk fuel rt fl (tl st) rest
      else
        match lookup_entry c es with
        | None => if is_nil rest then inr (Missing st c) else inl ENOENT
        | Some (Link m target) =>
            if fl || negb (is_nil rest) then
              match fuel with
              | O => inl ELOOP
              | S fuel' =>
                  if empty target then inl ENOENT
                  else walk fuel' rt fl
                         (if is_absolute target then [] else st)
                         (components target ++ rest)%list
              end
            else walk fuel rt fl ((c, Link m target) :: st) rest
        | Some n => walk fuel rt fl ((c, n) :: st) rest
        end
  | _ => inl ENOTDIR
  end.
Proof. destruct fuel; reflexivity. Qed.

(** *** Positions stay inside the tree *)

Lemma chain_tl rt st : chain rt st -> chain rt (tl st).
Proof. destruct st as [| [c n] st]; simpl; tauto. Qed.

Lemma here_dir_perms rt st pm m es :
  here rt st = Dir pm m es -> node_perms (here rt st) = pm.
Proof. intros ->. reflexivity. Qed.

Lemma proper_name_of c :
  empty c = false -> has_slash c = false ->
  String.eqb c "." = false -> String.eqb c ".." = false ->
  proper_name c = true.
Proof.
  intros H1 H2 H3 H4. unfold proper_name, valid_name.
  rewrite H1, H2, H3, H4. reflexivity.
Qed.

Lemma split_not_nil (s : string) : split s <> [].
Proof.
  destruct s as [| x s]; simpl; [discriminate |].
  destruct (split s); [discriminate |].
  destruct (is_slash x); discriminate.
Qed.

(** The pieces of a split pathname hold no separator. *)
Lemma split_no_slash (s : string) :
  Forall (fun c => has_slash c = false) (split s).
Proof.
  induction s as [| x s IH]; simpl.
  - repeat constructor.
  - pose proof (split_not_nil s) as Hne.
    destruct (split s) as [| hd tl] eqn:E.
    + contradiction.
    + inversion IH as [| ? ? Hhd Htl]; subst.
      destruct (is_slash x) eqn:Ex.
      * constructor; [reflexivity | constructor; assumption].
      * constructor; [simpl; rewrite Ex; exact Hhd | exact Htl].
Qed.

Lemma pieces_subset (l : list string) (P : string -> Prop) :
  Forall P l -> Forall P (pieces l).
Proof.
  induction l as [| c r IH]; simpl; intros H; [constructor |].
  inversion H as [| ? ? Hc Hr]; subst.
  destruct r as [| c' r'].
  - constructor; [exact Hc | constructor].
  - destruct (empty c); [apply IH; exact Hr |].
    constructor; [exact Hc | apply IH; exact Hr].
Qed.

Lemma components_no_slash (p : path) :
  Forall (fun c => has_slash c = false) (components p).
Proof. apply pieces_subset, split_no_slash. Qed.

Lemma walk_good rt fl :
  forall fuel todo st,
    chain rt st -> Forall (fun c => has_slash c = false) todo ->
    good_result rt (walk fuel rt fl st todo).
Proof.
  induction fuel as [| fuel IHf];
    (induction todo as [| c rest IHt]; intros st Hst Htodo;
     [rewrite walk_nil; exact Hst |]);
    rewrite walk_cons; inversion Htodo as [| ? ? Hc Hrest]; subst;
    (destruct (here rt st) as [| | | pm m es] eqn:Hhere; try exact I);
    (destruct (empty c) eqn:Ec; [apply IHt; assumption |]);
    (destruct (can_search pm) eqn:Hx; [simpl | exact I]);
    (destruct (String.eqb c ".") eqn:Edot; [apply IHt; assumption |]);
    (destruct (String.eqb c "..") eqn:Edd;
     [apply IHt; [apply chain_tl; assumption | assumption] |]);
    assert (proper_name c = true) as Hproper
      by (apply proper_name_of; assumption);
    (destruct (lookup_entry c es) as [n |] eqn:Hl;
     [| destruct (is_nil rest); [| exact I]; simpl;
        rewrite Hhere; simpl; rewrite Hx; repeat split; assumption]);
    assert (chain rt ((c, n) :: st)) as Hpush
      by (simpl; rewrite Hhere; simpl; repeat split; assumption).
  - destruct n; try (apply IHt; assumption).
    destruct (fl || negb (is_nil rest)); [exact I | apply IHt; assumption].
  - destruct n; try (apply IHt; assumption).
    destruct (fl || negb (is_nil rest)); [| apply IHt; assumption].
    destruct (empty target); [exact I |].
    apply IHf.
    + destruct (is_absolute target); [exact I | exact Hst].
    + apply Forall_app. split; [apply components_no_slash | exact Hrest].
Qed.

Lemma resolve_good (fs : filesys) (fl : bool) (p : path) :
  Forall (fun c => has_slash c = false) (cwd fs) ->
  good_result (root fs) (resolve fs fl p).
Proof.
  intros Hcwd. unfold resolve.
  destruct (empty p); [exact I |].
  destruct (is_absolute p).
  - apply walk_good; [exact I | apply components_no_slash].
  - pose proof (walk_good (root fs) true max_symlinks (cwd fs) [] I Hcwd)
      as Hstart.
    destruct (walk max_symlinks (root fs) true [] (cwd fs))
      as [e | [st | parent name]]; try exact I.
    apply walk_good; [exact Hstart | apply components_no_slash].
Qed.

(** For an absolute pathname nothing needs to be known of the working
    directory. *)
Lemma resolve_absolute_good (fs : filesys) (fl : bool) (p : path) :
  is_absolute p = true -> good_result (root fs) (resolve fs fl p).
Proof.
  intros Habs. unfold resolve.
  destruct (empty p); [exact I |]. rewrite Habs.
  apply walk_good; [exact I | apply components_no_slash].
Qed.

(** *** Following the last link *)

Lemma no_links_tl st : no_links st -> no_links (tl st).
Proof.
  destruct st as [| e st]; simpl; intros H; [exact H |].
  now inversion H.
Qed.

(** A resolution that follows the last link never ends on a link. *)
Lemma walk_follow_no_links rt :
  forall fuel todo st st',
    no_links st ->
    walk fuel rt true st todo = inr (Found st') -> no_links st'.
Proof.
  induction fuel as [| fuel IHf];
    (induction todo as [| c rest IHt]; intros st st' Hst;
     [rewrite walk_nil; intros H; inversion H; subst; exact Hst |]);
    rewrite walk_cons;
    (destruct (here rt st) as [| | | pm m es] eqn:Hhere; try discriminate);
    (destruct (empty c); [apply IHt; assumption |]);
    (destruct (negb (can_search pm)); [discriminate |]);
    (destruct (String.eqb c "."); [apply IHt; assumption |]);
    (destruct (String.eqb c "..");
     [apply IHt; apply no_links_tl; assumption |]);
    (destruct (lookup_entry c es) as [n |];
     [| destruct (is_nil rest); discriminate]);
    (destruct n as [pm' m' ct | k pm' m' | m' target | pm' m' es'];
     try (apply IHt; constructor; [reflexivity | assumption]));
    simpl; try discriminate.
  destruct (empty target); [discriminate |].
  apply IHf. destruct (is_absolute target); [constructor | exact Hst].
Qed.

(** If the resolution that does not follow the last link ends on something
    that is not a link, following makes no difference. *)
Lemma walk_follow_same rt :
  forall fuel todo st st',
    walk fuel rt false st todo = inr (Found st') ->
    is_link (here rt st') = false ->
    walk fuel rt true st todo = inr (Found st').
Proof.
  assert (Hlast : forall fuel c m target st st',
             walk fuel rt false ((c, Link m target) :: st) []
             = inr (Found st') ->
             is_link (here rt st') = false -> False).
  { intros fuel c m target st st'. rewrite walk_nil.
    intros H Hl. inversion H; subst. discriminate. }
  induction fuel as [| fuel IHf];
    (induction todo as [| c rest IHt]; intros st st';
     [rewrite !walk_nil; auto |]);
    rewrite !walk_cons;
    (destruct (here rt st) as [| | | pm m es] eqn:Hhere; try discriminate);
    (destruct (empty c); [apply IHt |]);
    (destruct (negb (can_search pm)); [discriminate |]);
    (destruct (String.eqb c "."); [apply IHt |]);
    (destruct (String.eqb c ".."); [apply IHt |]);
    (destruct (lookup_entry c es) as [n |];
     [| destruct (is_nil rest); discriminate]);
    (destruct n as [pm' m' ct | k pm' m' | m' target | pm' m' es'];
     try apply IHt);
    (destruct rest as [| c' rest'];
     [intros H Hl; exfalso; exact (Hlast _ _ _ _ _ _ H Hl) |]);
    simpl; try discriminate.
  destruct (empty target); [discriminate |]. apply IHf.
Qed.

(** *** Locations *)

Lemma node_at_snoc (l : list string) (c : string) :
  forall n,
    node_at (l ++ [c])%list n =
    match node_at l n with
    | Some d => lookup_entry c (entries_of d)
    | None => None
    end.
Proof.
  induction l as [| c0 l IH]; intros n; simpl.
  - destruct (lookup_entry c (entries_of n)); reflexivity.
  - destruct (lookup_entry c0 (entries_of n)); [apply IH | reflexivity].
Qed.

Lemma location_cons (c : string) (n : node) (st : stack) :
  location ((c, n) :: st) = (location st ++ [c])%list.
Proof. reflexivity. Qed.

(** A chain is found again by plain descent along its names. *)
Lemma chain_node_at rt st :
  chain rt st -> node_at (location st) rt = Some (here rt st).
Proof.
  induction st as [| [c n] st IH]; simpl; intros H; [reflexivity |].
  destruct H as [Hst [Hl _]].
  rewrite location_cons, node_at_snoc, (IH Hst). exact Hl.
Qed.

Lemma chain_names rt st :
  chain rt st -> Forall (fun c => proper_name c = true) (location st).
Proof.
  induction st as [| [c n] st IH]; simpl; intros H; [constructor |].
  destruct H as [Hst [_ [_ Hp]]].
  rewrite location_cons. apply Forall_app. split; [auto | repeat constructor; exact Hp].
Qed.

Lemma proper_name_valid c : proper_name c = true -> valid_name c = true.
Proof.
  unfold proper_name. intros H.
  apply andb_prop in H. destruct H as [H _].
  apply andb_prop in H. tauto.
Qed.

Lemma proper_all_valid (l : list string) :
  Forall (fun c => proper_name c = true) l ->
  Forall (fun c => valid_name c = true) l.
Proof.
  intros H. eapply Forall_impl; [| exact H].
  intros c. apply proper_name_valid.
Qed.

Lemma proper_name_inv c :
  proper_name c = true ->
  empty c = false /\ has_slash c = false
  /\ String.eqb c "." = false /\ String.eqb c ".." = false.
Proof.
  unfold proper_name, valid_name. intros H.
  repeat (apply andb_prop in H; destruct H as [H ?]).
  repeat match goal with
         | H : negb _ = true |- _ => apply negb_true_iff in H
         end.
  tauto.
Qed.

(** *** Canonical pathnames *)

Lemma split_plain (c : string) : has_slash c = false -> split c = [c].
Proof.
  induction c as [| x c IH]; simpl; [reflexivity |].
  intros H. apply orb_false_elim in H. destruct H as [Hx Hc].
  rewrite (IH Hc), Hx. reflexivity.
Qed.

Lemma split_app_plain (c s : string) :
  has_slash c = false ->
  split (c ++ s) =
  match split s with
  | hd :: tl => (c ++ hd) :: tl
  | [] => [c]
  end.
Proof.
  induction c as [| x c IH]; simpl; intros H.
  - pose proof (split_not_nil s). destruct (split s); [contradiction | reflexivity].
  - apply orb_false_elim in H. destruct H as [Hx Hc].
    rewrite (IH Hc). pose proof (split_not_nil s) as Hne.
    destruct (split s); [contradiction |]. rewrite Hx. reflexivity.
Qed.

Lemma split_slash (s : string) : split (String slash s) = "" :: split s.
Proof.
  simpl. pose proof (split_not_nil s).
  destruct (split s); [contradiction | reflexivity].
Qed.

Lemma split_join (cs : list string) :
  cs <> [] -> Forall (fun c => has_slash c = false) cs ->
  split (join cs) = "" :: cs.
Proof.
  induction cs as [| c r IH]; intros Hne Hv; [contradiction |].
  inversion Hv as [| ? ? Hc Hr]; subst.
  change (join (c :: r)) with (String slash (c ++ join r)).
  rewrite split_slash, split_app_plain by exact Hc.
  destruct r as [| c' r'].
  - simpl. now rewrite app_empty_r.
  - rewrite IH by (try discriminate; exact Hr). now rewrite app_empty_r.
Qed.

Lemma pieces_names (cs : list string) :
  Forall (fun c => empty c = false) cs -> pieces cs = cs.
Proof.
  induction cs as [| c r IH]; intros H; [reflexivity |].
  inversion H as [| ? ? Hc Hr]; subst. simpl.
  destruct r; [reflexivity |]. rewrite Hc, (IH Hr). reflexivity.
Qed.

Lemma components_render (cs : list string) :
  cs <> [] -> Forall (fun c => proper_name c = true) cs ->
  components (render cs) = cs.
Proof.
  intros Hne Hv. unfold components, render.
  destruct cs as [| c r]; [contradiction |].
  rewrite split_join.
  - change (pieces ("" :: c :: r)) with (pieces (c :: r)).
    apply pieces_names.
    eapply Forall_impl; [| exact Hv]. intros a Ha.
    apply proper_name_inv in Ha. tauto.
  - discriminate.
  - eapply Forall_impl; [| exact Hv]. intros a Ha.
    apply proper_name_inv in Ha. tauto.
Qed.

Lemma pieces_not_nil (l : list string) : l <> [] -> pieces l <> [].
Proof.
  induction l as [| c r IH]; intros H; [contradiction |]. simpl.
  destruct r as [| c' r']; [discriminate |].
  destruct (empty c); [apply IH; discriminate | discriminate].
Qed.

Lemma components_not_nil (p : path) : components p <> [].
Proof. apply pieces_not_nil, split_not_nil. Qed.

Lemma chain_app_r rt (above below : stack) :
  chain rt (above ++ below)%list -> chain rt below.
Proof.
  induction above as [| [c n] above IH]; simpl; intros H; [exact H |].
  apply IH. tauto.
Qed.

(** Walking along the names of a chain that holds no link goes up the
    chain, whatever the treatment of a last link. *)
Lemma walk_along_chain rt fl fuel :
  forall above below,
    chain rt (above ++ below)%list -> no_links above ->
    walk fuel rt fl below (rev (map fst above))
    = inr (Found (above ++ below)%list).
Proof.
  induction above as [| [c n] above IH] using rev_ind; intros below Hch Hnl.
  - simpl. apply walk_nil.
  - rewrite map_app, rev_app_distr. simpl.
    rewrite <- List.app_assoc in *. simpl in *.
    pose proof (chain_app_r _ _ _ Hch) as Hc. simpl in Hc.
    destruct Hc as [Hbelow [Hl [Hx Hp]]].
    apply Forall_app in Hnl. destruct Hnl as [Hnl Hn].
    inversion Hn as [| ? ? Hnc _]; subst. simpl in Hnc.
    apply proper_name_inv in Hp. destruct Hp as [He [_ [Hd Hdd]]].
    rewrite walk_cons.
    destruct (here rt below) as [| | | pm m es] eqn:Hhere;
      simpl in Hl; try discriminate.
    simpl in Hx. rewrite He, Hx, Hd, Hdd, Hl. simpl.
    destruct n; try discriminate; apply IH; assumption.
Qed.

Lemma walk_root_is_dir rt fl fuel c rest r :
  walk fuel rt fl [] (c :: rest) = inr r -> is_dir rt = true.
Proof.
  rewrite walk_cons. simpl. destruct rt; try discriminate. reflexivity.
Qed.

(** The canonical form of an absolute pathname is a fixed point: resolved
    again, even without following a last link, it leads to the same
    position by plain descent, and it is its own canonical form.  So it
    holds no link, no dot, no dot-dot and no doubled separator. *)
Lemma canonical_fixed (fs : filesys) (p c : path) :
  is_absolute p = true ->
  canonical fs p = inr c ->
  exists st,
    resolve fs true p = inr (Found st)
    /\ c = render (location st)
    /\ chain (root fs) st
    /\ no_links st
    /\ (forall fl, resolve fs fl c = inr (Found st))
    /\ canonical fs c = inr c.
Proof.
  intros Habs Hc. unfold canonical in Hc.
  pose proof (resolve_absolute_good fs true p Habs) as Hgood.
  destruct (resolve fs true p) as [e | [st | parent name]] eqn:Hres;
    try discriminate.
  inversion Hc; subst c. simpl in Hgood.
  assert (no_links st) as Hnl.
  { unfold resolve in Hres. destruct (empty p); [discriminate |].
    rewrite Habs in Hres.
    eapply walk_follow_no_links; [| exact Hres]. constructor. }
  assert (forall fl, resolve fs fl (render (location st)) = inr (Found st))
    as Hfix.
  { intros fl. unfold resolve. rewrite render_absolute.
    assert (empty (render (location st)) = false) as ->
        by (destruct (location st); reflexivity).
    destruct st as [| [c n] st'] eqn:Est.
    - unfold resolve in Hres. destruct (empty p); [discriminate |].
      rewrite Habs in Hres.
      pose proof (components_not_nil p) as Hne.
      destruct (components p) as [| c0 rest]; [contradiction |].
      apply walk_root_is_dir in Hres.
      change (components (render (location []))) with [""].
      rewrite walk_cons. simpl.
      destruct (root fs); try discriminate. reflexivity.
    - rewrite <- Est in *.
      rewrite components_render.
      + pose proof (walk_along_chain (root fs) fl max_symlinks st []) as Hw.
        rewrite List.app_nil_r in Hw. apply Hw; assumption.
      + subst st. rewrite location_cons. destruct (location st'); discriminate.
      + apply (chain_names (root fs)). exact Hgood. }
  exists st. repeat split; try assumption.
  unfold canonical. rewrite Hfix. reflexivity.
Qed.

(** *** Removal *)

Lemma resolve_follow_same (fs : filesys) (p : path) (st : stack) :
  resolve fs false p = inr (Found st) ->
  is_link (here (root fs) st) = false ->
  resolve fs true p = inr (Found st).
Proof.
  unfold resolve. destruct (empty p); [discriminate |].
  destruct (is_absolute p).
  - apply walk_follow_same.
  - destruct (walk max_symlinks (root fs) true [] (cwd fs))
      as [e | [st0 | parent name]]; try discriminate.
    apply walk_follow_same.
Qed.

Lemma tree_size_dir pm m es :
  tree_size (Dir pm m es) = (size_each es + 1)%N.
Proof. reflexivity. Qed.

Lemma purge_dir pm m es :
  purge (Dir pm m es) =
  if can_read pm then
    match purge_each (can_write pm && can_search pm) es with
    | (k, []) => ((k + 1)%N, None)
    | (k, es') => (k, Some (Dir pm m es'))
    end
  else (0%N, Some (Dir pm m es)).
Proof.
  simpl. destruct (can_read pm); [| reflexivity].
  match goal with
  | |- match ?f es with _ => _ end = _ =>
      assert (f es = purge_each (can_write pm && can_search pm) es) as ->
  end; [| reflexivity].
  induction es as [| [name c] es IH]; simpl; [reflexivity |].
  destruct (can_write pm && can_search pm); [| reflexivity].
  destruct (purge c) as [k [c' |]]; [reflexivity |].
  rewrite IH. reflexivity.
Qed.



(** Whenever nothing is left of a subtree, the count is its size. *)
Lemma purge_count (n : node) :
  forall k, purge n = (k, None) -> k = tree_size n.
Proof.
  induction n as [pm m c | j pm m | m t | pm m es IH] using node_ind2;
    intros k; try (simpl; intros H; inversion H; reflexivity).
  rewrite purge_dir, tree_size_dir.
  destruct (can_read pm); [| discriminate].
  assert (forall k', purge_each (can_write pm && can_search pm) es = (k', [])
                     -> k' = size_each es) as Hcount.
  { clear k. induction es as [| [name c] es IHes]; simpl; intros k'.
    - intros H. inversion H. reflexivity.
    - inversion IH as [| ? ? IHc IHrest]; subst. simpl in IHc.
      destruct (can_write pm && can_search pm); [| discriminate].
      destruct (purge c) as [k1 [c' |]] eqn:Ec; [discriminate |].
      destruct (purge_each true es) as [k2 rest'] eqn:Er.
      intros H. inversion H; subst.
      rewrite (IHc _ eq_refl), (IHes IHrest _ eq_refl). reflexivity. }
  destruct (purge_each (can_write pm && can_search pm) es) as [k' [| e es']];
    [| discriminate].
  intros H. inversion H. rewrite (Hcount k' eq_refl). reflexivity.
Qed.

(** *** Updates at a location *)

Lemma lookup_map_entry (c : string) (g : node -> node) es n :
  lookup_entry c es = Some n ->
  lookup_entry c (map_entry c g es) = Some (g n).
Proof.
  induction es as [| [k d] es IH]; simpl; [discriminate |].
  destruct (String.eqb c k) eqn:E; simpl.
  - rewrite E. intros H. inversion H. reflexivity.
  - rewrite E. exact IH.
Qed.

Lemma node_at_update (l : list string) (g : node -> node) :
  forall n d,
    node_at l n = Some d -> node_at l (update l g n) = Some (g d).
Proof.
  induction l as [| c l IH]; intros n d; simpl.
  - intros H. inversion H. reflexivity.
  - destruct n as [| | | pm m es]; simpl; try discriminate.
    destruct (lookup_entry c es) as [n' |] eqn:El; [| discriminate].
    intros H. rewrite (lookup_map_entry _ _ _ _ El). apply IH. exact H.
Qed.


Lemma lookup_app_new (name : string) es c :
  lookup_entry name es = None ->
  lookup_entry name (es ++ [(name, c)])%list = Some c.
Proof.
  induction es as [| [k d] es IH]; simpl.
  - rewrite String.eqb_refl. reflexivity.
  - destruct (String.eqb name k); [discriminate | exact IH].
Qed.

(** *** Counting directories *)

Lemma dir_count_dir pm m es : dir_count (Dir pm m es) = S (dirs_each es).
Proof. reflexivity. Qed.

Lemma dirs_each_map_entry (c : string) (g : node -> node) es n :
  lookup_entry c es = Some n -> dir_count (g n) = dir_count n ->
  dirs_each (map_entry c g es) = dirs_each es.
Proof.
  induction es as [| [k d] es IH]; simpl; [discriminate |].
  destruct (String.eqb c k).
  - intros H Hg. inversion H; subst. simpl. now rewrite Hg.
  - intros H Hg. simpl. now rewrite (IH H Hg).
Qed.

(** Rewriting a node into one with as many directories leaves the count
    of the whole tree alone. *)
Lemma dir_count_update (l : list string) (g : node -> node) :
  forall n d,
    node_at l n = Some d -> dir_count (g d) = dir_count d ->
    dir_count (update l g n) = dir_count n.
Proof.
  induction l as [| c l IH]; intros n d; simpl.
  - intros H Hg. inversion H; subst. exact Hg.
  - destruct n as [| | | pm m es]; simpl; try discriminate.
    destruct (lookup_entry c es) as [n' |] eqn:El; [| discriminate].
    intros H Hg. f_equal.
    apply (dirs_each_map_entry _ _ _ _ El). apply (IH _ _ H Hg).
Qed.

Lemma dirs_each_app es es' :
  dirs_each (es ++ es')%list = dirs_each es + dirs_each es'.
Proof.
  induction es as [| [k d] es IH]; simpl; [reflexivity |].
  rewrite IH. lia.
Qed.

Lemma dir_count_add_file now name pm' m' c' (d : node) :
  dir_count (add_child now name (File pm' m' c') d) = dir_count d.
Proof.
  destruct d as [| | | pm m es]; try reflexivity.
  simpl add_child. rewrite !dir_count_dir, dirs_each_app. simpl. lia.
Qed.

(** Opening a file for writing never adds or removes a directory. *)
Lemma open_trunc_dir_count now mask (fs : filesys) (p : path) rt' :
  is_absolute p = true ->
  open_trunc now mask fs p = inr rt' ->
  dir_count rt' = dir_count (root fs).
Proof.
  intros Habs. unfold open_trunc.
  pose proof (resolve_absolute_good fs true p Habs) as Hgood.
  destruct (resolve fs true p) as [e | [st | parent name]];
    [discriminate | |]; simpl in Hgood.
  - pose proof (chain_node_at _ _ Hgood) as Hat.
    destruct (here (root fs) st) as [pm m c | k pm m | m t | pm m es];
      try discriminate.
    + destruct (can_write pm); [| discriminate].
      intros H. inversion H; subst.
      apply (dir_count_update _ _ _ _ Hat). reflexivity.
    + destruct (can_write pm); [| discriminate].
      intros H. inversion H. reflexivity.
  - destruct Hgood as [Hch _].
    pose proof (chain_node_at _ _ Hch) as Hat.
    destruct (can_write (node_perms (here (root fs) parent)));
      [| discriminate].
    intros H. inversion H; subst.
    apply (dir_count_update _ _ _ _ Hat). apply dir_count_add_file.
Qed.

End FsFacts.

(** ** Entering a directory *)

Module NavigationFacts.
Import Str Path Perms Fs Explorer Notions PathFacts FsFacts MonadFacts.

Lemma absolute_is_absolute (cur p : path) :
  is_absolute cur = true -> is_absolute (absolute cur p) = true.
Proof.
  intros Hc. unfold absolute.
  destruct (is_absolute p) eqn:Hp; [exact Hp |].
  unfold append. rewrite Hp.
  destruct cur as [| x cur]; [discriminate |].
  destruct (has_filename (String x cur)); exact Hc.
Qed.

(** A status that says "exists" is the status of the node the pathname
    resolves to. *)
Lemma status_exists_resolves (fs : filesys) (p : path) (s : file_status) :
  status fs true p = inr s -> status_exists s = true ->
  exists st,
    resolve fs true p = inr (Found st)
    /\ s = node_status (here (root fs) st).
Proof.
  unfold status, status_ec, stat_node.
  destruct (resolve fs true p) as [e | [st | parent name]].
  - destruct (is_not_found_error e); simpl; [| discriminate].
    intros H; inversion H; subst. discriminate.
  - intros H _. inversion H. eauto.
  - simpl. intros H; inversion H; subst. discriminate.
Qed.

(** When the status query on the candidate returns: if the candidate
    (the input joined to the cursor unless it is absolute) exists and is
    not a directory, "Not a directory." is reported and the cursor
    returned is the old one; if it exists and is a directory, the cursor returned is its canonical form: an absolute
    pathname that denotes the same directory, reaches it without
    following any link, and is its own canonical form.  The file tree is
    not changed. *)
Theorem enter_directory_spec :
  forall (cur dir : path) (w : world) (s : file_status),
    is_absolute cur = true ->
    status (w_fs w) true (absolute cur dir) = inr s ->
    status_exists s = true ->
    (status_is_directory s = false ->
     exists w',
       enter_directory cur dir w = (Ret cur, w')
       /\ w_out w' = (w_out w ++ [("Not a directory." ++ nl)%string])%list
       /\ w_fs w' = w_fs w)
    /\ (status_is_directory s = true ->
        exists c w',
          enter_directory cur dir w = (Ret c, w')
          /\ canonical (w_fs w) (absolute cur dir) = inr c
          /\ is_absolute c = true
          /\ (forall fl, stat_node (w_fs w) fl c
                         = stat_node (w_fs w) true (absolute cur dir))
          /\ canonical (w_fs w) c = inr c
          /\ w_out w' = w_out w
          /\ w_fs w' = w_fs w).
Proof.
  intros cur dir w s Habs Hst Hex.
  pose proof (absolute_is_absolute cur dir Habs) as Hcand.
  split; intros Hdir.
  - unfold enter_directory, fs_exists, fs_is_directory, fs_status, query,
      bind, call, ret, cout. simpl.
    rewrite Hst, Hex. simpl. rewrite Hst, Hdir. simpl.
    eexists. repeat split.
  - destruct (status_exists_resolves _ _ _ Hst Hex) as [st [Hres Hs]].
    assert (canonical (w_fs w) (absolute cur dir)
            = inr (render (location st))) as Hcan
        by (unfold canonical; rewrite Hres; reflexivity).
    destruct (canonical_fixed _ _ _ Hcand Hcan)
      as [st' [Hres' [_ [_ [_ [Hfix Hidem]]]]]].
    rewrite Hres in Hres'. inversion Hres'; subst st'.
    exists (render (location st)).
    unfold enter_directory, fs_exists, fs_is_directory, fs_canonical,
      fs_status, query, bind, call, ret. simpl.
    rewrite Hst, Hex. simpl. rewrite Hst, Hdir. simpl. rewrite Hcan.
    eexists. repeat split; try assumption.
    + apply render_absolute.
    + intros fl. unfold stat_node. rewrite Hfix, Hres. reflexivity.
Qed.

Lemma home_a_txt_status :
  status (w_fs (Samples.home_world [])) true (absolute "/home/u" "a.txt")
  = inr (mk_status ft_regular Samples.rw_r__r__).
Proof. vm_compute. reflexivity. Qed.

Lemma home_l_status :
  status (w_fs (Samples.home_world [])) true (absolute "/home/u" "l/../l")
  = inr (mk_status ft_directory Samples.rwxr_xr_x).
Proof. vm_compute. reflexivity. Qed.

Lemma enter_directory_spec_witness :
  (exists w',
      enter_directory "/home/u" "a.txt" (Samples.home_world [])
      = (Ret "/home/u", w')
      /\ w_out w'
         = (w_out (Samples.home_world [])
              ++ [("Not a directory." ++ nl)%string])%list
      /\ w_fs w' = w_fs (Samples.home_world []))
  /\ (exists c w',
         enter_directory "/home/u" "l/../l" (Samples.home_world [])
         = (Ret c, w')
         /\ canonical (w_fs (Samples.home_world []))
                      (absolute "/home/u" "l/../l") = inr c
         /\ is_absolute c = true
         /\ (forall fl,
                stat_node (w_fs (Samples.home_world [])) fl c
                = stat_node (w_fs (Samples.home_world [])) true
                            (absolute "/home/u" "l/../l"))
         /\ canonical (w_fs (Samples.home_world [])) c = inr c
         /\ w_out w' = w_out (Samples.home_world [])
         /\ w_fs w' = w_fs (Samples.home_world [])).
Proof.
  split.
  - destruct (enter_directory_spec "/home/u" "a.txt" (Samples.home_world [])
                (mk_status ft_regular Samples.rw_r__r__)
                eq_refl home_a_txt_status eq_refl) as [H _].
    exact (H eq_refl).
  - destruct (enter_directory_spec "/home/u" "l/../l" (Samples.home_world [])
                (mk_status ft_directory Samples.rwxr_xr_x)
                eq_refl home_l_status eq_refl) as [_ H].
    exact (H eq_refl).
Defined.

(** The cursor reached through the link [l] is the directory [d]
    itself. *)
Example enter_through_link :
  fst (enter_directory "/home/u" "l/../l" (Samples.home_world []))
  = Ret "/home/u/d".
Proof. vm_compute. reflexivity. Qed.

(** A query that fails for another reason than absence throws, and
    [main] has no handler around this command: the process is terminated
    by the exception instead of returning. *)
Example enter_directory_can_terminate :
  exists w',
    @main Samples.bare_platform 3 (Samples.home_world ["2"; "locked/f"; "0"])
    = Some (Terminated (mk_error "status" EACCES "/home/u/locked/f"), w').
Proof. eexists. vm_compute. reflexivity. Qed.

(** C3: the failing input.  [/home/u/locked/f] exists and is a regular
    file, in a directory that may be read but not searched.  "Enter
    directory" on it does not report "Not a directory." and does not keep
    the cursor: the status query behind [fs::exists] throws and the turn
    ends by that exception, with nothing printed after the prompt.  The
    helpers make the same query inside a handler: [create_file] on the
    same pathname reports the error and returns. *)
Theorem enter_existing_file_escapes :
  node_at ["home"; "u"; "locked"; "f"]
    (root (w_fs (Samples.home_world [])))
  = Some (File Samples.rw_r__r__ 0 "x")
  /\ (exists w',
         enter_directory "/home/u" "locked/f" (Samples.home_world [])
         = (Throw (mk_error "status" EACCES "/home/u/locked/f"), w')
         /\ w_out w' = w_out (Samples.home_world []))
  /\ (exists w',
         @iteration Samples.bare_platform "/home/u"
           (Samples.home_world ["2"; "locked/f"])
         = (Throw (mk_error "status" EACCES "/home/u/locked/f"), w')
         /\ last (w_out w') "" = "Enter directory name: ")
  /\ (exists w',
         create_file "/home/u/locked/f" (Samples.home_world [])
         = (Ret tt, w')
         /\ w_err w'
            = [("Error: "
                ++ what (mk_error "status" EACCES "/home/u/locked/f")
                ++ nl)%string]).
Proof.
  split; [vm_compute; reflexivity |].
  split; [eexists; split; vm_compute; reflexivity |].
  split; eexists; split; vm_compute; reflexivity.
Qed.

(** *** The cursor always names a location *)

Lemma canonical_cursor_absolute (cur : path) :
  canonical_cursor cur -> is_absolute cur = true.
Proof. intros [cs [_ ->]]. apply render_absolute. Qed.

Lemma canonical_is_canonical_cursor (fs : filesys) (p c : path) :
  is_absolute p = true -> canonical fs p = inr c -> canonical_cursor c.
Proof.
  intros Habs Hc.
  destruct (canonical_fixed _ _ _ Habs Hc) as [st [_ [-> [Hch _]]]].
  exists (location st). split; [| reflexivity].
  apply (chain_names (root fs)). exact Hch.
Qed.

Lemma go_up_canonical_cursor (cur : path) :
  canonical_cursor cur -> canonical_cursor (go_up cur).
Proof.
  intros [cs [Hcs ->]].
  rewrite (GoUpFacts.go_up_render cs (proper_all_valid _ Hcs)).
  exists (removelast cs). split; [| reflexivity].
  destruct cs as [| c cs'] using rev_ind; [constructor |].
  rewrite removelast_last. apply Forall_app in Hcs. tauto.
Qed.

Lemma enter_directory_canonical_cursor (cur dir : path) (w w' : world) c :
  canonical_cursor cur ->
  enter_directory cur dir w = (Ret c, w') -> canonical_cursor c.
Proof.
  intros Hcur.
  pose proof (absolute_is_absolute cur dir
                (canonical_cursor_absolute _ Hcur)) as Habs.
  unfold enter_directory, fs_exists, fs_is_directory, fs_canonical,
    fs_status, query, bind, call, ret, cout.
  cbn [w_fs log_call].
  destruct (status (w_fs w) true (absolute cur dir)) as [e | s];
    [discriminate |].
  cbv beta iota. destruct (status_exists s); cbv beta iota.
  - cbn [w_fs log_call].
    destruct (status (w_fs w) true (absolute cur dir)) as [e | s'];
      [discriminate |].
    cbv beta iota. destruct (status_is_directory s'); cbv beta iota.
    + cbn [w_fs log_call].
      destruct (canonical (w_fs w) (absolute cur dir)) as [e | c'] eqn:Hc;
        [discriminate |].
      intros H. inversion H; subst.
      exact (canonical_is_canonical_cursor _ _ _ Habs Hc).
    + intros H. inversion H; subst. exact Hcur.
  - intros H. inversion H; subst. exact Hcur.
Qed.

(** Whatever the command, a cursor that names a location is followed by
    one that does. *)
Lemma command_canonical_cursor {platform : Platform}
  (choice : string) (cur cur' : path) (w w' : world) (c : control) :
  canonical_cursor cur ->
  command choice cur w = (Ret (c, cur'), w') ->
  canonical_cursor cur'.
Proof.
  intros Hcur Hrun.
  destruct (string_dec choice "2") as [-> | H2].
  - unfold command in Hrun. cbn [String.eqb Ascii.eqb Bool.eqb] in Hrun.
    unfold bind in Hrun.
    destruct (ProgramFacts.input_path_returns "Enter directory name: " w)
      as [o [w1 E]].
    rewrite E in Hrun. destruct o as [dir |].
    + destruct (enter_directory cur dir w1) as [[c1 | e] w2] eqn:Ee;
        [| discriminate].
      unfold ret in Hrun. inversion Hrun; subst.
      exact (enter_directory_canonical_cursor _ _ _ _ _ Hcur Ee).
    + unfold ret in Hrun. inversion Hrun; subst. exact Hcur.
  - destruct (string_dec choice "3") as [-> | H3].
    + unfold command in Hrun. cbn [String.eqb Ascii.eqb Bool.eqb] in Hrun.
      unfold ret in Hrun. inversion Hrun; subst.
      now apply go_up_canonical_cursor.
    + destruct (ProgramFacts.command_keeps_cursor choice cur H2 H3 w)
        as [c0 [w0 E]].
      rewrite E in Hrun. inversion Hrun; subst. exact Hcur.
Qed.

End NavigationFacts.

(** ** Deleting *)

Module DeleteFacts.
Import Str Path Perms Fs Explorer Notions PathFacts FsFacts MonadFacts.

Lemma node_status_exists (n : node) : status_exists (node_status n) = true.
Proof. destruct n as [? ? ? | [] ? ? | ? ? | ? ? ?]; reflexivity. Qed.

Lemma node_status_is_directory (n : node) :
  status_is_directory (node_status n) = is_dir n.
Proof. destruct n as [? ? ? | [] ? ? | ? ? | ? ? ?]; reflexivity. Qed.

Lemma status_of_resolved (fs : filesys) (p : path) (st : stack) :
  resolve fs true p = inr (Found st) ->
  status fs true p = inr (node_status (here (root fs) st)).
Proof.
  intros H. unfold status, status_ec, stat_node. rewrite H. reflexivity.
Qed.

(** A directory found on a chain is a directory node with entries. *)
Lemma chain_parent_dir rt name n parent :
  chain rt ((name, n) :: parent) ->
  exists pm m es,
    here rt parent = Dir pm m es
    /\ lookup_entry name es = Some n
    /\ can_search pm = true.
Proof.
  simpl. intros [_ [Hl [Hx _]]].
  destruct (here rt parent) as [| | | pm m es]; simpl in *; try discriminate.
  exists pm, m, es. repeat split; assumption.
Qed.







(** The directory [d] holds one file: two entries go. *)
Example delete_directory :
  w_out (snd (delete_path "/home/u/d" (Samples.home_world [])))
  = [("Deleted entries: 2" ++ nl)%string]
  /\ node_at ["home"; "u"; "d"]
       (root (w_fs (snd (delete_path "/home/u/d" (Samples.home_world [])))))
     = None.
Proof. vm_compute. split; reflexivity. Qed.

(** Deleting the link [l] removes the link; the directory it points to
    stays. *)
Example delete_link_to_directory :
  w_out (snd (delete_path "/home/u/l" (Samples.home_world [])))
  = [("Deleted entries: 1" ++ nl)%string]
  /\ node_at ["home"; "u"; "l"]
       (root (w_fs (snd (delete_path "/home/u/l" (Samples.home_world [])))))
     = None
  /\ node_at ["home"; "u"; "d"]
       (root (w_fs (snd (delete_path "/home/u/l" (Samples.home_world [])))))
     = Some Samples.home_u_d.
Proof. vm_compute. repeat split; reflexivity. Qed.


(** A link whose target is missing does not "exist" for the status
    query: it is reported as absent and stays. *)
Example delete_dangling_link :
  w_out (snd (delete_path "/home/u/dang" (Samples.home_world [])))
  = [("Path does not exist." ++ nl)%string]
  /\ w_fs (snd (delete_path "/home/u/dang" (Samples.home_world [])))
     = Samples.home_fs.
Proof. vm_compute. split; reflexivity. Qed.

End DeleteFacts.


(** ** Creating a file *)

Module CreateFacts.
Import Str Path Perms Fs Explorer Notions PathFacts FsFacts MonadFacts.

Lemma status_of_missing (fs : filesys) (p : path) parent name :
  resolve fs true p = inr (Missing parent name) ->
  status fs true p = inr (mk_status ft_not_found unknown).
Proof.
  intros H. unfold status, status_ec, stat_node. rewrite H. reflexivity.
Qed.

Lemma status_of_not_found (fs : filesys) (p : path) e :
  resolve fs true p = inl e -> is_not_found_error e = true ->
  status fs true p = inr (mk_status ft_not_found unknown).
Proof.
  intros H He. unfold status, status_ec, stat_node. rewrite H, He.
  reflexivity.
Qed.

(** C6: for an absolute pathname, (a) when the status query says the
    path exists, "Path already exists." is reported and the tree is
    unchanged; (b) when the last name is absent from a directory that
    exists and may be written, an empty regular file is added to that
    directory under that name, and "File created:" is reported with the
    pathname; (c) when a directory on the way is missing, "Failed to
    create file." is reported and the tree is unchanged; (d) in every
    case the tree has as many directories afterwards as before: none is
    created. *)
Theorem create_file_spec :
  forall (p : path) (w : world),
    is_absolute p = true ->
    (forall s,
        status (w_fs w) true p = inr s -> status_exists s = true ->
        exists w',
          create_file p w = (Ret tt, w')
          /\ w_out w' = (w_out w ++ [("Path already exists." ++ nl)%string])%list
          /\ w_fs w' = w_fs w)
    /\ (forall parent name,
           resolve (w_fs w) true p = inr (Missing parent name) ->
           can_write (node_perms (here (root (w_fs w)) parent)) = true ->
           exists w',
             create_file p w = (Ret tt, w')
             /\ root (w_fs w')
                = update (location parent)
                    (add_child (w_now w) name
                       (new_file (w_now w) (w_umask w)))
                    (root (w_fs w))
             /\ (exists pm,
                    node_at (location parent ++ [name])%list (root (w_fs w'))
                    = Some (File pm (w_now w) ""))
             /\ w_out w'
                = (w_out w ++ [("File created: " ++ quoted p ++ nl)%string])%list)
    /\ (forall e,
           resolve (w_fs w) true p = inl e -> is_not_found_error e = true ->
           exists w',
             create_file p w = (Ret tt, w')
             /\ w_out w'
                = (w_out w ++ [("Failed to create file." ++ nl)%string])%list
             /\ w_fs w' = w_fs w)
    /\ dir_count (root (w_fs (snd (create_file p w))))
       = dir_count (root (w_fs w)).
Proof.
  intros p w Habs. repeat split.
  - intros s Hst Hex.
    unfold create_file, try_catch, fs_exists, fs_status, query, bind, call,
      ret, cout. simpl.
    rewrite Hst, Hex. simpl. eexists. repeat split.
  - intros parent name Hres Hw.
    pose proof (resolve_absolute_good (w_fs w) true p Habs) as Hgood.
    rewrite Hres in Hgood. simpl in Hgood.
    destruct Hgood as [Hch [Hdir [_ [Hnone _]]]].
    pose proof (chain_node_at _ _ Hch) as Hat.
    unfold create_file, try_catch, fs_exists, fs_status, ofstream_open,
      query, bind, call, ret, cout. simpl.
    rewrite (status_of_missing _ _ _ _ Hres). simpl.
    unfold open_trunc. rewrite Hres, Hw.
    cbn [set_root put_out log_call w_fs w_out w_now w_umask root cwd].
    eexists. split; [reflexivity |].
    cbn [set_root put_out log_call w_fs w_out w_now w_umask root cwd].
    split; [reflexivity |]. split; [| reflexivity].
    exists (N.ldiff 438 (w_umask w)).
    rewrite node_at_snoc, (node_at_update _ _ _ _ Hat).
    destruct (here (root (w_fs w)) parent) as [| | | pm m es];
      try discriminate.
    cbn [add_child entries_of]. apply lookup_app_new. exact Hnone.
  - intros e Hres He.
    unfold create_file, try_catch, fs_exists, fs_status, ofstream_open,
      query, bind, call, ret, cout. simpl.
    rewrite (status_of_not_found _ _ _ Hres He). simpl.
    unfold open_trunc. rewrite Hres. simpl.
    eexists. repeat split.
  - unfold create_file, try_catch, fs_exists, fs_status, ofstream_open,
      query, bind, call, ret, cout, report, cerr. simpl.
    destruct (status (w_fs w) true p) as [e | s]; simpl; [reflexivity |].
    destruct (status_exists s); simpl; [reflexivity |].
    destruct (open_trunc (w_now w) (w_umask w) (w_fs w) p) as [e | rt'] eqn:E;
      simpl; [reflexivity |].
    apply (open_trunc_dir_count _ _ _ _ _ Habs E).
Qed.

Lemma home_new_missing :
  resolve (w_fs (Samples.home_world [])) true "/home/u/new.txt"
  = inr (Missing [("u", Samples.home_u); ("home", Samples.home_dir)]
                 "new.txt").
Proof. vm_compute. reflexivity. Qed.

Lemma create_file_spec_witness :
  exists w',
    create_file "/home/u/new.txt" (Samples.home_world []) = (Ret tt, w')
    /\ root (w_fs w')
       = update (location [("u", Samples.home_u); ("home", Samples.home_dir)])
           (add_child (w_now (Samples.home_world [])) "new.txt"
              (new_file (w_now (Samples.home_world []))
                        (w_umask (Samples.home_world []))))
           (root (w_fs (Samples.home_world [])))
    /\ (exists pm,
           node_at (location [("u", Samples.home_u);
                              ("home", Samples.home_dir)]
                      ++ ["new.txt"])%list (root (w_fs w'))
           = Some (File pm (w_now (Samples.home_world [])) ""))
    /\ w_out w'
       = (w_out (Samples.home_world [])
            ++ [("File created: " ++ quoted "/home/u/new.txt" ++ nl)%string])%list.
Proof.
  destruct (create_file_spec "/home/u/new.txt" (Samples.home_world []) eq_refl)
    as [_ [H _]].
  apply (H [("u", Samples.home_u); ("home", Samples.home_dir)] "new.txt").
  - exact home_new_missing.
  - vm_compute. reflexivity.
Defined.

(** With a missing parent nothing is created. *)
Example create_file_missing_parent :
  w_out (snd (create_file "/home/nobody/new.txt" (Samples.home_world [])))
  = [("Failed to create file." ++ nl)%string]
  /\ w_fs (snd (create_file "/home/nobody/new.txt" (Samples.home_world [])))
     = Samples.home_fs.
Proof. vm_compute. split; reflexivity. Qed.

End CreateFacts.


(** ** Searching *)

Module SearchFacts.
Import Str Path Perms Fs Explorer Notions PathFacts FsFacts MonadFacts.

(** *** [std::string::find] *)

Lemma starts_spec (needle hay : string) :
  starts needle hay = true <-> exists post, hay = needle ++ post.
Proof.
  revert hay. induction needle as [| a n IH]; intros hay; simpl.
  - split; [intros _; exists hay; reflexivity | reflexivity].
  - destruct hay as [| b h].
    + split; [discriminate | intros [post H]; discriminate].
    + rewrite andb_true_iff, IH. split.
      * intros [Hab [post ->]]. apply Ascii.eqb_eq in Hab. subst b.
        exists post. reflexivity.
      * intros [post H]. inversion H; subst. split.
        -- apply Ascii.eqb_refl.
        -- exists post. reflexivity.
Qed.

Lemma find_from_sound (needle : string) :
  forall hay pos k,
    find_from pos hay needle = Some k -> substring_of needle hay.
Proof.
  induction hay as [| b h IH]; intros pos k; simpl.
  - destruct (starts needle "") eqn:E; [| discriminate].
    intros _. apply starts_spec in E. destruct E as [post E].
    exists "", post. exact E.
  - destruct (starts needle (String b h)) eqn:E.
    + intros _. apply starts_spec in E. destruct E as [post E].
      exists "", post. exact E.
    + intros H. destruct (IH _ _ H) as [pre [post ->]].
      exists (String b pre), post. reflexivity.
Qed.

Lemma find_from_complete (needle : string) :
  forall pre post pos,
    exists k, find_from pos (pre ++ needle ++ post) needle = Some k.
Proof.
  induction pre as [| b pre IH]; intros post pos.
  - assert (starts needle ("" ++ needle ++ post) = true) as E
        by (apply starts_spec; exists post; reflexivity).
    exists pos. simpl in *. destruct (needle ++ post); simpl; rewrite E;
      reflexivity.
  - simpl. destruct (starts needle (String b (pre ++ needle ++ post))).
    + eauto.
    + apply IH.
Qed.

(** The test of [search_recursive] decides "contains the needle as a
    contiguous substring", character for character. *)
Lemma found_iff (hay needle : string) :
  found hay needle = true <-> substring_of needle hay.
Proof.
  unfold found, find. split.
  - destruct (find_from 0 hay needle) as [k |] eqn:E; [| discriminate].
    intros _. exact (find_from_sound _ _ _ _ E).
  - intros [pre [post ->]].
    destruct (find_from_complete needle pre post 0) as [k ->]. reflexivity.
Qed.

Example find_is_case_sensitive :
  found "zzabc" "abc" = true /\ found "zzABC" "abc" = false.
Proof. split; reflexivity. Qed.

(** *** The entries below a directory *)

Lemma reach_dir pm m es :
  reach (Dir pm m es) = if can_read pm then reach_each pm es else [].
Proof.
  simpl. destruct (can_read pm); [| reflexivity].
  induction es as [| [name c] es IH]; simpl; [reflexivity |].
  now rewrite IH.
Qed.

Lemma below_dir p pm m es :
  below p (Dir pm m es) = if can_read pm then below_each pm p es else [].
Proof.
  simpl. destruct (can_read pm); [| reflexivity].
  induction es as [| [name c] es IH]; simpl; [reflexivity |].
  now rewrite IH.
Qed.

(** The iterator yields the reachable entries, each under its
    pathname. *)
Lemma below_reach (n : node) :
  forall p, below p n = map (entry_of p) (reach n).
Proof.
  induction n as [pm m c | k pm m | m t | pm m es IH] using node_ind2;
    intros p; try reflexivity.
  rewrite below_dir, reach_dir. destruct (can_read pm); [| reflexivity].
  induction es as [| [name c] es IHes]; simpl; [reflexivity |].
  inversion IH as [| ? ? IHc IHrest]; subst. simpl in IHc.
  rewrite map_app. simpl. rewrite (IHes IHrest). f_equal. f_equal.
  destruct (can_search pm); [| reflexivity].
  rewrite IHc, map_map. reflexivity.
Qed.

Lemma in_reach_each pm es names c :
  In (names, c) (reach_each pm es) <->
  exists name c',
    In (name, c') es
    /\ ((names = [name] /\ c = c')
        \/ (can_search pm = true
            /\ exists names', names = name :: names'
                              /\ In (names', c) (reach c'))).
Proof.
  induction es as [| [name0 c0] es IH]; simpl.
  - split; [contradiction | intros [? [? [[] _]]]].
  - rewrite in_app_iff, IH. simpl. split.
    + intros [H | [H | [name [c' [Hin H]]]]].
      * inversion H; subst. exists name0, c. split; [now left | now left].
      * destruct (can_search pm) eqn:Hx; [| contradiction].
        apply in_map_iff in H. destruct H as [[names' c1] [E Hin]].
        simpl in E. inversion E; subst.
        exists name0, c0. split; [now left |]. right. split; [reflexivity |].
        exists names'. split; [reflexivity | exact Hin].
      * exists name, c'. split; [now right | exact H].
    + intros [name [c' [[E | Hin] H]]].
      * inversion E; subst.
        destruct H as [[-> ->] | [Hx [names' [-> Hin]]]]; [now left |].
        right. left. rewrite Hx. apply in_map_iff.
        exists (names', c). split; [reflexivity | exact Hin].
      * right. right. exists name, c'. split; assumption.
Qed.

(** [reach] lists exactly the descendants the iterator is entitled to
    visit. *)
Lemma reach_descends (n : node) :
  forall names c, In (names, c) (reach n) <-> descends n names c.
Proof.
  induction n as [pm m ct | k pm m | m t | pm m es IH] using node_ind2;
    intros names c;
    try (simpl; split; [contradiction | intros H; inversion H]).
  rewrite reach_dir. rewrite Forall_forall in IH. split.
  - destruct (can_read pm) eqn:Hr; [| contradiction].
    intros H. apply in_reach_each in H.
    destruct H as [name [c' [Hin [[-> ->] | [Hx [names' [-> Hd]]]]]]].
    + now apply descends_child.
    + apply descends_deeper with (c' := c'); try assumption.
      apply (IH (name, c') Hin). exact Hd.
  - intros H.
    inversion H as [? ? ? name ? Hrd Hin
                   | ? ? ? name c' names' ? Hrd Hx Hin Hd]; subst.
    + rewrite Hrd. apply in_reach_each.
      exists name, c. split; [assumption | now left].
    + rewrite Hrd. apply in_reach_each.
      exists name, c'. split; [assumption |]. right. split; [assumption |].
      exists names'. split; [reflexivity |].
      apply (IH (name, c') Hin). assumption.
Qed.

(** *** No entry twice *)

Lemma wf_dir pm m es :
  wf (Dir pm m es) <->
  NoDup (map fst es)
  /\ Forall (fun c => proper_name c = true) (map fst es)
  /\ Forall (fun e => wf (snd e)) es.
Proof.
  simpl.
  assert ((fix each (es : list (string * node)) : Prop :=
             match es with
             | [] => True
             | (_, c) :: rest => wf c /\ each rest
             end) es <-> Forall (fun e => wf (snd e)) es) as H.
  { induction es as [| [name c] es IH]; simpl.
    - split; constructor.
    - rewrite IH. split.
      + intros [H1 H2]. constructor; assumption.
      + intros H. inversion H; subst. tauto. }
  rewrite H. tauto.
Qed.

Lemma reach_names_not_nil (n : node) names c :
  In (names, c) (reach n) -> names <> [].
Proof.
  intros H. apply reach_descends in H. inversion H; discriminate.
Qed.

Lemma reach_each_head pm es names c :
  In (names, c) (reach_each pm es) ->
  exists name rest, names = name :: rest /\ In name (map fst es).
Proof.
  intros H. apply in_reach_each in H.
  destruct H as [name [c' [Hin [[-> _] | [_ [names' [-> _]]]]]]];
    do 2 eexists; (split; [reflexivity |]);
    apply in_map_iff; exists (name, c'); split; auto.
Qed.

Lemma map_fst_consed (name : string) (l : list (list string * node)) :
  map fst (map (fun r => (name :: fst r, snd r)) l)
  = map (cons name) (map fst l).
Proof. rewrite !map_map. reflexivity. Qed.

Lemma NoDup_map_cons (name : string) (l : list (list string)) :
  NoDup l -> NoDup (map (cons name) l).
Proof.
  intros H. apply NoDup_map_NoDup_ForallPairs; [| exact H].
  intros x y _ _ E. now inversion E.
Qed.

(** In a well-formed tree no relative path is reached twice. *)
Lemma reach_NoDup (n : node) : wf n -> NoDup (map fst (reach n)).
Proof.
  induction n as [pm m ct | k pm m | m t | pm m es IH] using node_ind2;
    intros Hwf; try (simpl; constructor).
  apply wf_dir in Hwf. destruct Hwf as [Hnd [_ Hch]].
  rewrite reach_dir. destruct (can_read pm); [| constructor].
  induction es as [| [name c] es IHes]; simpl; [constructor |].
  inversion IH as [| ? ? IHc IHrest]; subst.
  inversion Hch as [| ? ? Hc Hrest]; subst.
  simpl in Hnd. inversion Hnd as [| ? ? Hnotin Hnd']; subst.
  simpl in IHc, Hc.
  assert (forall l, In l (map fst (reach_each pm es)) ->
                    exists name' rest, l = name' :: rest
                                       /\ In name' (map fst es)) as Hhead.
  { intros l Hl. apply in_map_iff in Hl. destruct Hl as [[names c1] [<- Hin]].
    apply (reach_each_head _ _ _ _ Hin). }
  rewrite map_app.
  assert (forall l,
             In l (map fst (if can_search pm
                            then map (fun r => (name :: fst r, snd r)) (reach c)
                            else [])) ->
             exists rest, l = name :: rest /\ rest <> []) as Hdeep.
  { intros l Hl. destruct (can_search pm); [| contradiction].
    rewrite map_fst_consed in Hl. apply in_map_iff in Hl.
    destruct Hl as [rest [<- Hin]]. exists rest. split; [reflexivity |].
    apply in_map_iff in Hin. destruct Hin as [[names c1] [<- Hin]].
    apply (reach_names_not_nil _ _ _ Hin). }
  constructor.
  - intros Hin. apply in_app_or in Hin. destruct Hin as [Hin | Hin].
    + destruct (Hdeep _ Hin) as [rest [E Hne]]. inversion E. congruence.
    + destruct (Hhead _ Hin) as [name' [rest [E Hin']]].
      inversion E; subst. contradiction.
  - apply NoDup_app.
    + destruct (can_search pm); [| constructor].
      rewrite map_fst_consed. apply NoDup_map_cons. apply IHc. exact Hc.
    + apply IHes; assumption.
    + intros l Hl Hl'.
      destruct (Hdeep _ Hl) as [rest [-> _]].
      destruct (Hhead _ Hl') as [name' [rest' [E Hin']]].
      inversion E; subst. contradiction.
Qed.

Lemma descends_proper (n : node) names c :
  descends n names c -> wf n ->
  Forall (fun a => proper_name a = true) names.
Proof.
  induction 1 as [pm m es name c Hr Hin
                 | pm m es name c' names c Hr Hx Hin Hd IH];
    intros Hwf; apply wf_dir in Hwf; destruct Hwf as [_ [Hp Hch]];
    rewrite Forall_forall in Hp.
  - repeat constructor. apply Hp. apply in_map_iff.
    exists (name, c). split; auto.
  - constructor.
    + apply Hp. apply in_map_iff. exists (name, c'). split; auto.
    + apply IH. rewrite Forall_forall in Hch. apply (Hch (name, c') Hin).
Qed.

(** *** Pathnames of descendants *)

Lemma path_of_render (names : list string) :
  forall cs,
    Forall (fun c => valid_name c = true) cs ->
    Forall (fun c => valid_name c = true) names ->
    path_of (render cs) names = render (cs ++ names)%list.
Proof.
  induction names as [| a names IH]; intros cs Hcs Hn.
  - simpl. now rewrite List.app_nil_r.
  - inversion Hn as [| ? ? Ha Hrest]; subst.
    unfold path_of in *. simpl.
    rewrite (append_render _ _ Hcs Ha), IH.
    + now rewrite <- List.app_assoc.
    + apply Forall_app. split; [exact Hcs | repeat constructor; exact Ha].
    + exact Hrest.
Qed.

Lemma render_inj (l l' : list string) :
  l <> [] -> l' <> [] ->
  Forall (fun c => valid_name c = true) l ->
  Forall (fun c => valid_name c = true) l' ->
  render l = render l' -> l = l'.
Proof.
  intros Hne Hne' Hv Hv' E.
  assert (forall a, Forall (fun c => valid_name c = true) a ->
                    Forall (fun c => has_slash c = false) a) as Hs.
  { intros a Ha. eapply Forall_impl; [| exact Ha].
    intros c Hc. apply valid_name_inv in Hc. tauto. }
  assert (split (render l) = split (render l')) as Es by now rewrite E.
  destruct l as [| c r]; [contradiction |].
  destruct l' as [| c' r']; [contradiction |].
  unfold render in Es.
  rewrite !split_join in Es by (try discriminate; apply Hs; assumption).
  now inversion Es.
Qed.

Lemma NoDup_map_filter {A B} (h : A -> B) (g : A -> bool) (l : list A) :
  NoDup (map h l) -> NoDup (map h (filter g l)).
Proof.
  induction l as [| a l IH]; simpl; intros H; [constructor |].
  inversion H as [| ? ? Hnotin Hnd]; subst.
  destruct (g a); simpl; [| apply IH; exact Hnd].
  constructor; [| apply IH; exact Hnd].
  intros Hin. apply Hnotin. apply in_map_iff in Hin.
  destruct Hin as [x [E Hx]]. apply filter_In in Hx.
  apply in_map_iff. exists x. tauto.
Qed.

(** Below a canonical root of a well-formed tree, every entry has its
    own pathname. *)
Lemma below_paths_NoDup (cs : list string) (d : node) :
  Forall (fun c => proper_name c = true) cs -> wf d ->
  NoDup (map de_path (below (render cs) d)).
Proof.
  intros Hcs Hwf. rewrite below_reach, map_map.
  change (fun x => de_path (entry_of (render cs) x))
    with (fun x : list string * node => path_of (render cs) (fst x)).
  rewrite <- (map_map fst (path_of (render cs))).
  apply NoDup_map_NoDup_ForallPairs; [| apply reach_NoDup; exact Hwf].
  intros a b Ha Hb E.
  apply in_map_iff in Ha. destruct Ha as [[na ca] [<- Ha]].
  apply in_map_iff in Hb. destruct Hb as [[nb cb] [<- Hb]].
  simpl in *.
  pose proof (reach_names_not_nil _ _ _ Ha) as Hna.
  pose proof (reach_names_not_nil _ _ _ Hb) as Hnb.
  apply reach_descends in Ha. apply reach_descends in Hb.
  pose proof (proper_all_valid _ (descends_proper _ _ _ Ha Hwf)) as Hva.
  pose proof (proper_all_valid _ (descends_proper _ _ _ Hb Hwf)) as Hvb.
  pose proof (proper_all_valid _ Hcs) as Hvc.
  rewrite !path_of_render in E by assumption.
  apply render_inj in E.
  - now apply app_inv_head in E.
  - destruct cs; [exact Hna | discriminate].
  - destruct cs; [exact Hnb | discriminate].
  - apply Forall_app. now split.
  - apply Forall_app. now split.
Qed.

(** *** [search_recursive] *)

Lemma search_loop (needle : string) (l : list directory_entry) :
  forall w,
  exists w',
    for_each l
      (fun it =>
         let p := de_path it in
         if found (filename p) needle then cout (p ++ nl) else ret tt) w
    = (Ret tt, w')
    /\ w_out w'
       = (w_out w
            ++ map (fun e => (de_path e ++ nl)%string)
                   (filter (matches needle) l))%list
    /\ w_err w' = w_err w
    /\ w_fs w' = w_fs w.
Proof.
  induction l as [| a l IH]; intros w.
  - exists w. simpl. rewrite List.app_nil_r. auto.
  - cbn [for_each filter]. unfold matches at 1. unfold bind.
    cbv zeta. destruct (found (filename (de_path a)) needle).
    + destruct (IH (put_out (de_path a ++ nl) w)) as [w' [E [Ho [He Hf]]]].
      exists w'. unfold cout. split; [exact E |].
      cbn [w_out w_err w_fs put_out map] in *.
      rewrite Ho, <- List.app_assoc. auto.
    + destruct (IH w) as [w' [E [Ho [He Hf]]]].
      exists w'. unfold ret. split; [exact E | auto].
Qed.

(** C7: when the root directory can be opened, the search returns without
    reporting an error, leaves the tree alone, and prints one line per
    hit, where the hits are exactly the pathnames [root/n1/.../nk] of the
    entries reached from the root through directories that can be read
    and searched (those that cannot are skipped, not fatal) whose file
    name contains the needle as a contiguous, case-sensitive substring.
    From a canonical root in a well-formed tree that file name is the
    entry's own name, and no pathname is printed twice. *)
Theorem search_recursive_spec :
  forall (rt : path) (needle : string) (w : world) (d : node),
    opendir (w_fs w) rt = inr d ->
    exists (hits : list path) (w' : world),
      search_recursive rt needle w = (Ret tt, w')
      /\ w_out w' = (w_out w ++ map (fun p => (p ++ nl)%string) hits)%list
      /\ w_err w' = w_err w
      /\ w_fs w' = w_fs w
      /\ (forall p,
             In p hits <->
             exists names c,
               descends d names c
               /\ p = path_of rt names
               /\ substring_of needle (filename p))
      /\ (forall cs,
             rt = render cs ->
             Forall (fun c => proper_name c = true) cs -> wf d ->
             NoDup hits
             /\ (forall names c,
                    descends d names c ->
                    filename (path_of rt names) = last names "")).
Proof.
  intros rt needle w d Hopen.
  exists (map de_path (filter (matches needle) (below rt d))).
  destruct (search_loop needle (below rt d)
              (log_call (CRecursiveOpendir rt) w))
    as [w' [E [Ho [He Hf]]]].
  exists w'.
  unfold search_recursive, try_catch, fs_recursive_directory_iterator,
    query, bind, call.
  cbn [w_fs log_call]. unfold recursive_directory_iterator.
  rewrite Hopen.
  cbv beta iota zeta in E |- *. rewrite E.
  split; [reflexivity |].
  split; [rewrite Ho, map_map; reflexivity |].
  split; [exact He |]. split; [exact Hf |]. split.
  - intros p. rewrite in_map_iff. split.
    + intros [e [<- Hin]]. apply filter_In in Hin. destruct Hin as [Hin Hm].
      rewrite below_reach in Hin. apply in_map_iff in Hin.
      destruct Hin as [[names c] [<- Hr]].
      exists names, c. repeat split.
      * now apply reach_descends.
      * apply found_iff. exact Hm.
    + intros [names [c [Hd [-> Hs]]]].
      exists (entry_of rt (names, c)). split; [reflexivity |].
      apply filter_In. split.
      * rewrite below_reach. apply in_map_iff.
        exists (names, c). split; [reflexivity | now apply reach_descends].
      * apply found_iff. exact Hs.
  - intros cs -> Hcs Hwf. split.
    + apply NoDup_map_filter. apply below_paths_NoDup; assumption.
    + intros names c Hd.
      pose proof (proper_all_valid _ (descends_proper _ _ _ Hd Hwf)) as Hv.
      rewrite path_of_render by (try assumption; now apply proper_all_valid).
      assert (names <> []) as Hne by (inversion Hd; discriminate).
      destruct (exists_last Hne) as [pre [a ->]].
      rewrite List.app_assoc, last_last.
      apply filename_render_snoc.
      apply Forall_app in Hv. destruct Hv as [_ Ha]. now inversion Ha.
Qed.

Lemma search_root_opens :
  opendir (w_fs Samples.search_world) "/root" = inr Samples.search_root.
Proof. vm_compute. reflexivity. Qed.

Lemma search_recursive_spec_witness :
  exists (hits : list path) (w' : world),
    search_recursive "/root" "abc" Samples.search_world = (Ret tt, w')
    /\ w_out w'
       = (w_out Samples.search_world
            ++ map (fun p => (p ++ nl)%string) hits)%list
    /\ w_err w' = w_err Samples.search_world
    /\ w_fs w' = w_fs Samples.search_world
    /\ (forall p,
           In p hits <->
           exists names c,
             descends Samples.search_root names c
             /\ p = path_of "/root" names
             /\ substring_of "abc" (filename p))
    /\ (forall cs,
           "/root" = render cs ->
           Forall (fun c => proper_name c = true) cs ->
           wf Samples.search_root ->
           NoDup hits
           /\ (forall names c,
                  descends Samples.search_root names c ->
                  filename (path_of "/root" names) = last names "")).
Proof.
  exact (search_recursive_spec "/root" "abc" Samples.search_world
           Samples.search_root search_root_opens).
Defined.

(** The scenario of the specification: of [x/abc.txt], [y/zzabc] and
    [z/noMatch], the first two are printed, once each, and the third is
    not. *)
Example search_scenario :
  w_out (snd (search_recursive "/root" "abc" Samples.search_world))
  = [("/root/x/abc.txt" ++ nl)%string; ("/root/y/zzabc" ++ nl)%string].
Proof. vm_compute. reflexivity. Qed.

(** A directory that cannot be read is skipped and the search goes on:
    the match below [sealed] is not visited, the one below [y] is printed,
    and nothing is reported as an error. *)
Example search_skips_sealed :
  w_out (snd (search_recursive "/root" "abc" Samples.sealed_world))
  = [("/root/y/zzabc" ++ nl)%string]
  /\ w_err (snd (search_recursive "/root" "abc" Samples.sealed_world)) = [].
Proof. vm_compute. split; reflexivity. Qed.

(** A root that cannot be opened for lack of permission is skipped as
    well: nothing is printed and nothing is reported. *)
Lemma search_unreadable_root (rt : path) (needle : string) (w : world) :
  opendir (w_fs w) rt = inl EACCES ->
  exists w',
    search_recursive rt needle w = (Ret tt, w')
    /\ w_out w' = w_out w /\ w_err w' = w_err w /\ w_fs w' = w_fs w.
Proof.
  intros Hopen.
  unfold search_recursive, try_catch, fs_recursive_directory_iterator,
    query, bind, call.
  cbn [w_fs log_call]. unfold recursive_directory_iterator.
  rewrite Hopen. simpl. eexists. repeat split.
Qed.

End SearchFacts.


(** ** More on [perms_to_string] *)

Module PermsFacts.
Import Str Path Perms Fs Explorer Readback.

Lemma land_pow2 (p i : N) :
  N.land p (2 ^ i) = if N.testbit p i then (2 ^ i)%N else 0%N.
Proof.
  apply N.bits_inj. intros j.
  rewrite N.land_spec, N.pow2_bits_eqb.
  destruct (N.eqb_spec i j) as [<- | Hne].
  - rewrite andb_true_r. destruct (N.testbit p i) eqn:E.
    + now rewrite N.pow2_bits_eqb, N.eqb_refl.
    + now rewrite N.bits_0.
  - rewrite andb_false_r. destruct (N.testbit p i).
    + rewrite N.pow2_bits_eqb. symmetry. now apply N.eqb_neq.
    + now rewrite N.bits_0.
Qed.

Lemma land_all (p : N) :
  N.land p all =
  N.lor (N.land p owner_read)
    (N.lor (N.land p owner_write)
       (N.lor (N.land p owner_exec)
          (N.lor (N.land p group_read)
             (N.lor (N.land p group_write)
                (N.lor (N.land p group_exec)
                   (N.lor (N.land p others_read)
                      (N.lor (N.land p others_write)
                         (N.land p others_exec)))))))).
Proof. rewrite <- !N.land_lor_distr_r. reflexivity. Qed.

Ltac nine_bits p :=
  change owner_read with (2 ^ 8)%N; change owner_write with (2 ^ 7)%N;
  change owner_exec with (2 ^ 6)%N; change group_read with (2 ^ 5)%N;
  change group_write with (2 ^ 4)%N; change group_exec with (2 ^ 3)%N;
  change others_read with (2 ^ 2)%N; change others_write with (2 ^ 1)%N;
  change others_exec with (2 ^ 0)%N;
  rewrite !land_pow2;
  destruct (N.testbit p 8), (N.testbit p 7), (N.testbit p 6),
    (N.testbit p 5), (N.testbit p 4), (N.testbit p 3),
    (N.testbit p 2), (N.testbit p 1), (N.testbit p 0).

Lemma perms_of_string_spec (p : perms) :
  perms_of_string (perms_to_string p) = N.land p all.
Proof.
  rewrite land_all.
  unfold perms_of_string, perms_to_string, check. cbn [perms_of_chars append].
  nine_bits p; vm_compute; reflexivity.
Qed.

Lemma perms_to_string_masked (p : perms) :
  perms_to_string (N.land p all) = perms_to_string p.
Proof.
  unfold perms_to_string, check.
  rewrite <- !N.land_assoc.
  reflexivity.
Qed.

(** X1: the PERMS string can be read back: decoding it gives exactly the
    nine low permission bits of the status, in the order owner, group,
    others.  So two statuses are shown alike exactly when they agree on
    these nine bits; the higher bits (set-uid, set-gid, sticky) are not
    shown. *)
Theorem perms_to_string_reads_back :
  forall (p q : perms),
    perms_of_string (perms_to_string p) = N.land p all
    /\ (perms_to_string p = perms_to_string q
        <-> N.land p all = N.land q all).
Proof.
  intros p q. split; [apply perms_of_string_spec |]. split.
  - intros E. rewrite <- !perms_of_string_spec. now rewrite E.
  - intros E.
    rewrite <- (perms_to_string_masked p), <- (perms_to_string_masked q).
    now rewrite E.
Qed.

Example set_uid_is_not_shown :
  perms_to_string 2541%N = "rwxr-xr-x"     (* 04755 *)
  /\ perms_of_string "rwxr-xr-x" = 493%N.  (* 0755 *)
Proof. vm_compute. split; reflexivity. Qed.

End PermsFacts.


(** ** More on the listing *)

Module ListingMore.
Import Str Path Perms Fs Explorer Notions ListingNotions.
Import PathFacts FsFacts MonadFacts.

Lemma quiet_refl w : quiet w w.
Proof. repeat split. Qed.

Lemma quiet_trans a b c : quiet a b -> quiet b c -> quiet a c.
Proof.
  unfold quiet. intros [? [? [? [? [? ?]]]]] [? [? [? [? [? ?]]]]].
  repeat split; congruence.
Qed.

(** *** [time_to_string] *)

Lemma list_ascii_app (a b : string) :
  list_ascii_of_string (a ++ b)
  = (list_ascii_of_string a ++ list_ascii_of_string b)%list.
Proof. induction a as [| x a IH]; simpl; [reflexivity | now rewrite IH]. Qed.

Lemma string_of_list_app (a b : list ascii) :
  string_of_list_ascii (a ++ b)%list
  = string_of_list_ascii a ++ string_of_list_ascii b.
Proof. induction a as [| x a IH]; simpl; [reflexivity | now rewrite IH]. Qed.

Lemma pop_newline_ended (s : string) : pop_newline (s ++ nl) = s.
Proof.
  unfold pop_newline. rewrite list_ascii_app. simpl.
  rewrite rev_app_distr. simpl.
  now rewrite rev_involutive, string_of_list_ascii_of_string.
Qed.

Lemma pop_newline_plain (s : string) :
  (forall t, s <> t ++ nl) -> pop_newline s = s.
Proof.
  intros H. unfold pop_newline.
  destruct (rev (list_ascii_of_string s)) as [| c r] eqn:E; [reflexivity |].
  destruct (Ascii.eqb c "010") eqn:Ec; [| reflexivity].
  apply Ascii.eqb_eq in Ec. subst c. exfalso.
  apply (H (string_of_list_ascii (rev r))).
  rewrite <- (string_of_list_ascii_of_string s) at 1.
  rewrite <- (rev_involutive (list_ascii_of_string s)), E. simpl.
  now rewrite string_of_list_app.
Qed.

Section WithPlatform.
Context {platform : Platform}.

Lemma to_time_t_within (s d : Z) :
  (0 <= s)%Z -> (0 <= d < ticks_per_second)%Z ->
  to_time_t (s * ticks_per_second + d) = s.
Proof.
  intros Hs Hd. unfold to_time_t, ticks_per_second in *.
  rewrite Z.quot_div_nonneg by lia.
  symmetry. apply (Z.div_unique _ _ s d); lia.
Qed.

(** X2: the time shown is the text of [ctime] for the file time moved to
    the system clock and cut to whole seconds, less its final newline.
    The file time is moved by the difference of the two clock readings
    the function takes, the file clock's and the system clock's, and the
    cut is toward zero: a moved time within the second [s] shows as [s],
    so a system clock read a moment before the file clock shows a
    whole-second file time one second early.  One newline is removed
    when the text ends in one, and a text that does not end in a newline
    is shown whole.  The conversion never fails and leaves the world
    alone. *)
Theorem time_to_string_spec :
  forall (ftime : Z) (w : world) (text : string),
    let moved := (ftime - w_now w + system_now w)%Z in
    (ctime (to_time_t moved) = text ++ nl ->
     time_to_string ftime w = (Ret text, w))
    /\ (ctime (to_time_t moved) = text ->
        (forall t, text <> t ++ nl) ->
        time_to_string ftime w = (Ret text, w))
    /\ (forall s d : Z,
           (0 <= s)%Z -> (0 <= d < ticks_per_second)%Z ->
           moved = (s * ticks_per_second + d)%Z ->
           to_time_t moved = s)
    /\ (forall s d : Z,
           (0 < s)%Z -> (0 < d <= ticks_per_second)%Z ->
           moved = (s * ticks_per_second - d)%Z ->
           to_time_t moved = (s - 1)%Z).
Proof.
  intros ftime w text moved. unfold time_to_string. fold moved.
  repeat split.
  - intros ->. now rewrite pop_newline_ended.
  - intros -> H. now rewrite pop_newline_plain.
  - intros s d Hs Hd ->. now apply to_time_t_within.
  - intros s d Hs Hd ->.
    replace (s * ticks_per_second - d)%Z
      with ((s - 1) * ticks_per_second + (ticks_per_second - d))%Z by ring.
    apply to_time_t_within; lia.
Qed.

(** *** Rows *)

(** The row of a plain entry is always produced, and producing it only
    adds to the log of calls. *)
Lemma entry_row_plain (e : directory_entry) (w : world) :
  plain e ->
  exists r w',
    entry_row e w = (Ret r, w') /\ quiet w w' /\ plain_row (w_fs w) e r.
Proof.
  intros [Hnone Hlink].
  unfold entry_row, entry_type_label, entry_perm, entry_size,
    entry_modified, entry_is_directory, entry_is_symlink,
    entry_is_regular_file, entry_file_type, entry_file_size, fs_status,
    fs_file_size, fs_last_write_time, time_to_string, query, try_catch,
    bind, call, ret, plain_row, quiet.
  cbn [w_fs w_out w_err w_in w_now w_umask log_call].
  destruct (de_type e) eqn:Et; try contradiction;
    cbn [file_type_eqb negb andb];
    cbn [w_fs w_out w_err w_in w_now w_umask log_call];
    destruct (status (w_fs w) true (de_path e));
    cbn [w_fs w_out w_err w_in w_now w_umask log_call];
    try destruct (file_size (w_fs w) (de_path e));
    cbn [w_fs w_out w_err w_in w_now w_umask log_call];
    destruct (last_write_time (w_fs w) (de_path e));
    cbn [w_fs w_out w_err w_in w_now w_umask log_call];
    do 2 eexists; (split; [reflexivity |]);
    cbn [w_fs w_out w_err w_in w_now w_umask log_call r_name r_type r_perm
         r_size];
    repeat split.
Qed.

(** The loop of [list_dir] over plain entries prints one row each, in
    order. *)
Lemma rows_loop (entries : list directory_entry) :
  forall w,
    Forall plain entries ->
    exists rows w',
      for_each entries row_body w = (Ret tt, w')
      /\ w_out w' = (w_out w ++ map render_row rows)%list
      /\ w_err w' = w_err w /\ w_fs w' = w_fs w /\ w_in w' = w_in w
      /\ w_now w' = w_now w
      /\ Forall2 (plain_row (w_fs w)) entries rows.
Proof.
  induction entries as [| e entries IH]; intros w Hp.
  - exists [], w. simpl. rewrite List.app_nil_r. repeat split. constructor.
  - inversion Hp as [| ? ? He Hrest]; subst.
    destruct (entry_row_plain e w He) as [r [w1 [E1 [Hq Hr]]]].
    destruct Hq as [Hfs [Hout [Herr [Hin [Hnow _]]]]].
    destruct (IH (put_out (render_row r) w1) Hrest)
      as [rows [w' [E [Ho [He' [Hf [Hi [Hn HF]]]]]]]].
    exists (r :: rows), w'.
    cbn [for_each]. unfold row_body at 1. unfold bind at 1 2.
    rewrite E1. unfold cout at 1. cbv beta iota.
    split; [exact E |].
    cbn [w_fs w_out w_err w_in w_now put_out map] in *.
    rewrite Ho, Hout, <- List.app_assoc.
    repeat split; try congruence.
    constructor; [exact Hr |]. now rewrite <- Hfs.
Qed.

(** *** [list_dir] as a whole *)

Lemma list_dir_run (cur : path) (w : world) :
  list_dir cur w =
  let w0 := log_call (COpendir cur) (headed cur w) in
  match directory_iterator (w_fs w) cur with
  | inr entries =>
      match for_each entries row_body w0 with
      | (Ret a, w') => (Ret a, w')
      | (Throw e, w') => (Ret tt, put_err (listing_error e) w')
      end
  | inl e =>
      (Ret tt,
       put_err (listing_error
                  (mk_error "directory iterator cannot open directory" e cur))
               w0)
  end.
Proof.
  unfold list_dir, try_catch, fs_directory_iterator, query, bind, call,
    cout, cerr, headed, header, listing_error.
  cbn [fold_left w_fs put_out log_call].
  destruct (directory_iterator (w_fs w) cur); reflexivity.
Qed.

Lemma headed_out (cur : path) (w : world) :
  w_out (headed cur w) = (w_out w ++ header cur)%list
  /\ w_err (headed cur w) = w_err w /\ w_fs (headed cur w) = w_fs w
  /\ w_in (headed cur w) = w_in w /\ w_now (headed cur w) = w_now w.
Proof.
  unfold headed, header. cbn [fold_left put_out w_out w_err w_fs w_in w_now].
  rewrite <- !List.app_assoc. repeat split.
Qed.

(** X3: when the directory cannot be opened (it is gone, it is not a
    directory, it may not be read), [list_dir] still prints the header,
    prints no row, writes one "Error listing directory" line to standard
    error, and returns: the tree and standard input are untouched. *)
Theorem list_dir_unopenable :
  forall (cur : path) (w : world) (e : errno),
    directory_iterator (w_fs w) cur = inl e ->
    exists w',
      list_dir cur w = (Ret tt, w')
      /\ w_out w' = (w_out w ++ header cur)%list
      /\ w_err w'
         = (w_err w
              ++ [listing_error
                    (mk_error "directory iterator cannot open directory"
                              e cur)])%list
      /\ w_fs w' = w_fs w
      /\ w_in w' = w_in w.
Proof.
  intros cur w e He. rewrite list_dir_run, He. cbv zeta.
  destruct (headed_out cur w) as [Ho [Her [Hf [Hi _]]]].
  eexists. split; [reflexivity |].
  cbn [w_out w_err w_fs w_in put_err log_call].
  rewrite Ho, Her, Hf, Hi. repeat split.
Qed.

(** X4: when no entry of the directory is a symbolic link, [list_dir]
    prints the header and then one row per entry, in the directory's
    order, writes nothing to standard error, and leaves the tree and
    standard input untouched.  Each row bears the file name of its entry;
    its TYPE is [DIR] for a directory and [FILE] for anything else; its
    size is that of a regular file and 0 for anything else, and 0 as well
    when the size cannot be fetched; its PERMS are those of the status, or
    the placeholder when the status cannot be fetched. *)
Theorem list_dir_rows :
  forall (cur : path) (w : world) (entries : list directory_entry),
    directory_iterator (w_fs w) cur = inr entries ->
    Forall plain entries ->
    exists rows w',
      list_dir cur w = (Ret tt, w')
      /\ w_out w' = (w_out w ++ header cur ++ map render_row rows)%list
      /\ w_err w' = w_err w
      /\ w_fs w' = w_fs w
      /\ w_in w' = w_in w
      /\ Forall2 (plain_row (w_fs w)) entries rows.
Proof.
  intros cur w entries Hit Hp. rewrite list_dir_run, Hit. cbv zeta.
  destruct (headed_out cur w) as [Ho [Her [Hf [Hi _]]]].
  destruct (rows_loop entries (log_call (COpendir cur) (headed cur w)) Hp)
    as [rows [w' [E [Ho' [He' [Hf' [Hi' [_ HF]]]]]]]].
  rewrite E. exists rows, w'. split; [reflexivity |].
  cbn [w_out w_err w_fs w_in log_call] in *.
  rewrite Ho', He', Hf', Hi', Ho, Her, Hf, Hi, <- List.app_assoc.
  repeat split. now rewrite <- Hf.
Qed.

Lemma for_each_app {A} (l1 l2 : list A) (body : A -> M unit) (w : world) :
  for_each (l1 ++ l2)%list body w
  = match for_each l1 body w with
    | (Ret _, w1) => for_each l2 body w1
    | (Throw e, w1) => (Throw e, w1)
    end.
Proof.
  revert w. induction l1 as [| a l1 IH]; intros w; [reflexivity |].
  cbn [for_each List.app]. unfold bind.
  destruct (body a w) as [[[] | e] w1]; [apply IH | reflexivity].
Qed.

(** X5: a symbolic link whose status cannot be determined (a link that
    loops, a link into a directory that may not be searched) cuts the
    listing short: the rows of the entries before it are printed, the
    failure is written to standard error as "Error listing directory",
    and neither the link nor any entry after it gets a row.  [list_dir]
    still returns. *)
Theorem list_dir_cut_short :
  forall (cur : path) (w : world) (before after : list directory_entry)
         (link : directory_entry) (e : errno),
    directory_iterator (w_fs w) cur = inr (before ++ link :: after)%list ->
    Forall plain before ->
    de_type link = ft_symlink ->
    status (w_fs w) true (de_path link) = inl e ->
    exists rows w',
      list_dir cur w = (Ret tt, w')
      /\ w_out w' = (w_out w ++ header cur ++ map render_row rows)%list
      /\ w_err w'
         = (w_err w
              ++ [listing_error (mk_error "status" e (de_path link))])%list
      /\ w_fs w' = w_fs w
      /\ Forall2 (plain_row (w_fs w)) before rows.
Proof.
  intros cur w before after link e Hit Hp Hl Hst.
  rewrite list_dir_run, Hit. cbv zeta.
  destruct (headed_out cur w) as [Ho [Her [Hf [Hi _]]]].
  destruct (rows_loop before (log_call (COpendir cur) (headed cur w)) Hp)
    as [rows [w1 [E [Ho' [He' [Hf' [Hi' [_ HF]]]]]]]].
  rewrite for_each_app, E. cbn [for_each]. unfold bind at 1.
  assert (row_body link w1
          = (Throw (mk_error "status" e (de_path link)),
             log_call (CStatus (de_path link)) w1)) as ->.
  { unfold row_body, entry_row, entry_type_label, entry_is_directory,
      entry_file_type, fs_status, query, bind, call.
    rewrite Hl. cbn [file_type_eqb negb andb w_fs log_call].
    cbn [w_fs log_call] in Hf'. rewrite Hf', Hf, Hst. reflexivity. }
  exists rows. eexists. split; [reflexivity |].
  cbn [w_out w_err w_fs w_in log_call put_err] in *.
  rewrite Ho', He', Hf', Ho, Her, Hf, <- List.app_assoc.
  repeat split. now rewrite <- Hf.
Qed.

End WithPlatform.

Lemma list_dir_unopenable_witness :
  exists w',
    @list_dir Samples.bare_platform "/home/u/a.txt" (Samples.home_world [])
    = (Ret tt, w')
    /\ w_out w' = (w_out (Samples.home_world []) ++ header "/home/u/a.txt")%list
    /\ w_err w'
       = (w_err (Samples.home_world [])
            ++ [listing_error
                  (mk_error "directory iterator cannot open directory"
                            ENOTDIR "/home/u/a.txt")])%list
    /\ w_fs w' = w_fs (Samples.home_world [])
    /\ w_in w' = w_in (Samples.home_world []).
Proof.
  apply (@list_dir_unopenable Samples.bare_platform "/home/u/a.txt"
           (Samples.home_world []) ENOTDIR).
  vm_compute. reflexivity.
Defined.

Lemma list_dir_rows_witness :
  exists rows w',
    @list_dir Samples.bare_platform "/home/u/d" (Samples.home_world [])
    = (Ret tt, w')
    /\ w_out w'
       = (w_out (Samples.home_world [])
            ++ header "/home/u/d" ++ map render_row rows)%list
    /\ w_err w' = w_err (Samples.home_world [])
    /\ w_fs w' = w_fs (Samples.home_world [])
    /\ w_in w' = w_in (Samples.home_world [])
    /\ Forall2 (plain_row (w_fs (Samples.home_world [])))
         [mk_entry "/home/u/d/abc.txt" ft_regular] rows.
Proof.
  apply (@list_dir_rows Samples.bare_platform "/home/u/d"
           (Samples.home_world [])
           [mk_entry "/home/u/d/abc.txt" ft_regular]).
  - vm_compute. reflexivity.
  - repeat constructor; discriminate.
Defined.

Lemma list_dir_cut_short_witness :
  exists rows w',
    @list_dir Samples.bare_platform "/home/u" MoreSamples.loop_world
    = (Ret tt, w')
    /\ w_out w'
       = (w_out MoreSamples.loop_world
            ++ header "/home/u" ++ map render_row rows)%list
    /\ w_err w'
       = (w_err MoreSamples.loop_world
            ++ [listing_error
                  (mk_error "status" ELOOP
                     (de_path (mk_entry "/home/u/loop" ft_symlink)))])%list
    /\ w_fs w' = w_fs MoreSamples.loop_world
    /\ Forall2 (plain_row (w_fs MoreSamples.loop_world))
         [mk_entry "/home/u/a.txt" ft_regular] rows.
Proof.
  apply (@list_dir_cut_short Samples.bare_platform "/home/u"
           MoreSamples.loop_world
           [mk_entry "/home/u/a.txt" ft_regular]
           [mk_entry "/home/u/z.txt" ft_regular]
           (mk_entry "/home/u/loop" ft_symlink) ELOOP).
  - vm_compute. reflexivity.
  - repeat constructor; discriminate.
  - reflexivity.
  - vm_compute. reflexivity.
Defined.

Lemma time_to_string_spec_witness :
  @time_to_string Samples.bare_platform 0 (Samples.home_world [])
  = (Ret "Thu Jan  1 00:00:00 1970", Samples.home_world []).
Proof.
  destruct (@time_to_string_spec Samples.bare_platform 0
              (Samples.home_world []) "Thu Jan  1 00:00:00 1970") as [H _].
  apply H. reflexivity.
Defined.

End ListingMore.

(** ** The columns of the listing *)

Module ListingColumns.
Import Str Path Perms Fs Explorer Notions ListingNotions.
Import PathFacts FsFacts MonadFacts ListingFacts.
Local Open Scope monad_scope.

Lemma length_app (a b : string) :
  String.length (a ++ b) = String.length a + String.length b.
Proof. induction a as [| c a IH]; simpl; [reflexivity | now rewrite IH]. Qed.

Lemma length_spaces (n : nat) : String.length (spaces n) = n.
Proof. induction n as [| n IH]; simpl; [reflexivity | now rewrite IH]. Qed.

Lemma setw_left_length (n : nat) (s : string) :
  String.length s <= n -> String.length (setw_left n s) = n.
Proof.
  intros H. unfold setw_left. rewrite length_app, length_spaces. lia.
Qed.

Lemma substring_skip (a b : string) (n : nat) :
  substring (String.length a) n (a ++ b) = substring 0 n b.
Proof. induction a as [| c a IH]; simpl; [reflexivity | exact IH]. Qed.

Lemma substring_prefix (s t : string) :
  substring 0 (String.length s) (s ++ t) = s.
Proof.
  induction s as [| c s IH]; simpl.
  - destruct t; reflexivity.
  - now rewrite IH.
Qed.

(** A field that follows [k] characters is found at column [k]. *)
Lemma field_at (pre field rest : string) (k : nat) :
  String.length pre = k ->
  substring k (String.length field) (pre ++ field ++ rest) = field.
Proof. intros <-. rewrite substring_skip. apply substring_prefix. Qed.

Lemma padded_field_at (pre field rest : string) (k n : nat) :
  String.length pre = k ->
  substring k (String.length field) (pre ++ setw_left n field ++ rest)
  = field.
Proof.
  intros H. unfold setw_left. rewrite (PathFacts.app_assoc field).
  now apply field_at.
Qed.

Section WithPlatform.
Context {platform : Platform}.

Lemma entry_row_widths (e : directory_entry) (w w' : world) (r : row) :
  entry_row e w = (Ret r, w') ->
  String.length (r_type r) <= 8 /\ String.length (r_perm r) <= 12.
Proof.
  unfold entry_row, entry_type_label, entry_perm, entry_size,
    entry_modified, entry_is_directory, entry_is_symlink,
    entry_is_regular_file, entry_file_type, entry_file_size, fs_status,
    fs_symlink_status, fs_file_size, fs_last_write_time, time_to_string,
    query, try_catch, bind, call, ret.
  cbn [w_fs w_out w_err w_in w_now w_umask log_call].
  repeat match goal with
         | |- context [match ?x with _ => _ end] =>
             lazymatch x with
             | context [match _ with _ => _ end] => fail
             | _ => destruct x eqn:?
             end
         end;
    intros H; inversion H; subst; cbn; lia.
Qed.

(** X6: the fields of a row stand under their titles.  In the row
    [list_dir] prints for an entry, the type is at column 0, the
    permissions at column 8, the size at column 20, the time at column 32
    and the name at column 56, which are the columns of TYPE, PERMS,
    SIZE(B), MODIFIED and NAME in the header, provided the size has at
    most 12 digits and the time at most 24 characters (the type and the
    permissions never overflow their columns). *)
Theorem rows_line_up_with_titles :
  forall (e : directory_entry) (w w' : world) (r : row) (cur : path),
    entry_row e w = (Ret r, w') ->
    String.length (of_N (r_size r)) <= 12 ->
    String.length (r_mod r) <= 24 ->
    let line := render_row r in
    let titles := nth 2 (header cur) "" in
    (substring 0 (String.length (r_type r)) line = r_type r
     /\ substring 0 4 titles = "TYPE")
    /\ (substring 8 (String.length (r_perm r)) line = r_perm r
        /\ substring 8 5 titles = "PERMS")
    /\ (substring 20 (String.length (of_N (r_size r))) line = of_N (r_size r)
        /\ substring 20 7 titles = "SIZE(B)")
    /\ (substring 32 (String.length (r_mod r)) line = r_mod r
        /\ substring 32 8 titles = "MODIFIED")
    /\ (substring 56 (String.length (r_name r)) line = r_name r
        /\ substring 56 4 titles = "NAME").
Proof.
  intros e w w' r cur Hrow Hsize Hmod line titles.
  destruct (entry_row_widths _ _ _ _ Hrow) as [Htype Hperm].
  subst line titles. unfold render_row.
  pose proof (setw_left_length 8 _ Htype) as L1.
  pose proof (setw_left_length 12 _ Hperm) as L2.
  pose proof (setw_left_length 12 _ Hsize) as L3.
  pose proof (setw_left_length 24 _ Hmod) as L4.
  split; [split; [| reflexivity] | split; [split; [| reflexivity] |
  split; [split; [| reflexivity] | split; [split; [| reflexivity] |
  split; [| reflexivity]]]]].
  - exact (padded_field_at "" _ _ 0 8 eq_refl).
  - apply padded_field_at. exact L1.
  - rewrite <- (PathFacts.app_assoc (setw_left 8 (r_type r))).
    apply padded_field_at. rewrite length_app, L1, L2. reflexivity.
  - rewrite <- (PathFacts.app_assoc (setw_left 12 (r_perm r))).
    rewrite <- (PathFacts.app_assoc (setw_left 8 (r_type r))).
    apply padded_field_at. rewrite !length_app, L1, L2, L3. reflexivity.
  - rewrite <- (PathFacts.app_assoc (setw_left 12 (of_N (r_size r)))).
    rewrite <- (PathFacts.app_assoc (setw_left 12 (r_perm r))).
    rewrite <- (PathFacts.app_assoc (setw_left 8 (r_type r))).
    apply field_at. rewrite !length_app, L1, L2, L3, L4. reflexivity.
Qed.

End WithPlatform.

Lemma rows_line_up_with_titles_witness :
  let r := mk_row "[FILE]" "rw-r--r--" 2 "Thu Jan  1 00:00:00 1970" "a.txt" in
  let line := render_row r in
  let titles := nth 2 (header "/home/u") "" in
  (substring 0 (String.length (r_type r)) line = r_type r
   /\ substring 0 4 titles = "TYPE")
  /\ (substring 8 (String.length (r_perm r)) line = r_perm r
      /\ substring 8 5 titles = "PERMS")
  /\ (substring 20 (String.length (of_N (r_size r))) line = of_N (r_size r)
      /\ substring 20 7 titles = "SIZE(B)")
  /\ (substring 32 (String.length (r_mod r)) line = r_mod r
      /\ substring 32 8 titles = "MODIFIED")
  /\ (substring 56 (String.length (r_name r)) line = r_name r
      /\ substring 56 4 titles = "NAME").
Proof.
  intros r.
  eapply (@rows_line_up_with_titles Samples.bare_platform
            (mk_entry "/home/u/a.txt" ft_regular) (Samples.home_world [])
            _ r "/home/u").
  - vm_compute. reflexivity.
  - vm_compute. lia.
  - vm_compute. lia.
Defined.

End ListingColumns.

(* ================================================================== *)
(** ** The helpers that create directories, copy and move *)
(* ================================================================== *)

Module HelperFacts.
Import Str Path Perms Fs Explorer Notions ListingNotions.
Import PathFacts FsFacts MonadFacts.

Ltac run_helper :=
  cbv [create_file create_directory_path delete_path copy_path move_path
       report try_catch bind ret cout cerr call query mutation mutation2
       fs_exists fs_is_directory fs_status fs_remove fs_remove_all
       ofstream_open fs_create_directories fs_copy fs_copy_file fs_rename
       negb];
  cbn [w_fs w_now w_umask w_in w_out w_err w_calls put_out put_err log_call
       set_root root cwd].

Section WithPlatform.
Context {platform : Platform}.

(** X7: [create_directory_path] asks once whether the path exists.  When
    it does (a file, a directory, a link with a target), nothing is
    created: [create_directories] is not called and "Path already exists."
    is printed.  Otherwise [create_directories] is called once, and
    "Directory created" is printed whenever it returns, whatever it
    returns; when it throws, the error goes to standard error and nothing
    is printed. *)
Theorem create_directory_path_spec :
  forall (p : path) (w : world) (s : file_status),
    status (w_fs w) true p = inr s ->
    (status_exists s = true ->
     exists w',
       create_directory_path p w = (Ret tt, w')
       /\ w_out w' = (w_out w ++ [("Path already exists." ++ nl)%string])%list
       /\ w_err w' = w_err w
       /\ w_fs w' = w_fs w
       /\ w_calls w' = (w_calls w ++ [CStatus p])%list)
    /\ (status_exists s = false ->
        forall r rt,
          create_directories
            (log_call (CCreateDirectories p) (log_call (CStatus p) w)) p
          = (r, rt) ->
          exists w',
            create_directory_path p w = (Ret tt, w')
            /\ root (w_fs w') = rt
            /\ w_calls w'
               = (w_calls w ++ [CStatus p; CCreateDirectories p])%list
            /\ match r with
               | inr _ =>
                   w_out w'
                   = (w_out w
                        ++ [("Directory created: " ++ quoted p ++ nl)%string])%list
                   /\ w_err w' = w_err w
               | inl e =>
                   w_out w' = w_out w
                   /\ w_err w'
                      = (w_err w
                           ++ [("Error: "
                                ++ what (mk_error "cannot create directories"
                                                  e p)
                                ++ nl)%string])%list
               end).
Proof.
  intros p w s Hs. split.
  - intros Hex. run_helper. rewrite Hs, Hex.
    eexists. split; [reflexivity |]. repeat split.
  - intros Hex r rt Hr. run_helper. rewrite Hs, Hex.
    cbn [w_fs w_calls log_call] in Hr |- *. rewrite Hr.
    destruct r as [e | b]; eexists; (split; [reflexivity |]);
      cbn [w_fs w_out w_err w_calls put_out put_err set_root root log_call];
      rewrite <- ?List.app_assoc; repeat split.
Qed.

(** X8: [copy_path] looks at the source only.  A source that does not
    exist (a link without a target included) is reported on standard
    output and nothing is copied.  A directory, or a link to one, is
    handed to [fs::copy]; anything else to [fs::copy_file]; exactly one of
    the two is called, once, and the destination is never examined.
    "Copied to" is printed whenever the call returns, whatever it returns;
    when it throws, the error, which names the source and the
    destination, goes to standard error and nothing is printed. *)
Theorem copy_path_spec :
  forall (from to : path) (w : world) (s : file_status),
    status (w_fs w) true from = inr s ->
    (status_exists s = false ->
     exists w',
       copy_path from to w = (Ret tt, w')
       /\ w_out w'
          = (w_out w ++ [("Source does not exist." ++ nl)%string])%list
       /\ w_err w' = w_err w
       /\ w_fs w' = w_fs w
       /\ w_calls w' = (w_calls w ++ [CStatus from])%list)
    /\ (status_exists s = true ->
        let c := if status_is_directory s
                 then CCopy from to else CCopyFile from to in
        let w2 := log_call c
                    (log_call (CStatus from) (log_call (CStatus from) w)) in
        forall (r : errno + unit) rt,
          (if status_is_directory s
           then copy_recursive_overwrite w2 from to
           else match copy_file_overwrite w2 from to with
                | (inr _, rt) => (inr tt, rt)
                | (inl e, rt) => (inl e, rt)
                end) = (r, rt) ->
          exists w',
            copy_path from to w = (Ret tt, w')
            /\ root (w_fs w') = rt
            /\ w_calls w'
               = (w_calls w ++ [CStatus from; CStatus from; c])%list
            /\ match r with
               | inr _ =>
                   w_out w'
                   = (w_out w
                        ++ [("Copied to: " ++ quoted to ++ nl)%string])%list
                   /\ w_err w' = w_err w
               | inl e =>
                   w_out w' = w_out w
                   /\ w_err w'
                      = (w_err w
                           ++ [("Error: "
                                ++ what (mk_error2
                                           (if status_is_directory s
                                            then "cannot copy"
                                            else "cannot copy file")
                                           e from to)
                                ++ nl)%string])%list
               end).
Proof.
  intros from to w s Hs. split.
  - intros Hex. run_helper. rewrite Hs, Hex.
    eexists. split; [reflexivity |]. repeat split.
  - intros Hex c w2 r rt. subst c w2. run_helper. rewrite Hs, Hex.
    cbn [w_fs w_calls log_call]. rewrite Hs.
    destruct (status_is_directory s).
    + intros Hr. rewrite Hr.
      destruct r as [e | []]; eexists; (split; [reflexivity |]);
        cbn [w_fs w_out w_err w_calls put_out put_err set_root root log_call];
        rewrite <- ?List.app_assoc; repeat split.
    + destruct (copy_file_overwrite _ from to) as [[e | b] rt'];
        intros Hr; inversion Hr; subst;
        eexists; (split; [reflexivity |]);
        cbn [w_fs w_out w_err w_calls put_out put_err set_root root log_call];
        rewrite <- ?List.app_assoc; repeat split.
Qed.

(** X9: [move_path] does not look before it moves: its one file-system
    call is [fs::rename], with the two pathnames as given.  A source that
    does not exist is therefore an error on standard error, not a message
    on standard output; the error names both pathnames.  "Moved/Renamed
    to" is printed exactly when the call returns. *)
Theorem move_path_spec :
  forall (from to : path) (w : world) (r : errno + unit) (rt : node),
    rename (log_call (CRename from to) w) from to = (r, rt) ->
    exists w',
      move_path from to w = (Ret tt, w')
      /\ root (w_fs w') = rt
      /\ w_calls w' = (w_calls w ++ [CRename from to])%list
      /\ match r with
         | inr _ =>
             w_out w'
             = (w_out w
                  ++ [("Moved/Renamed to: " ++ quoted to ++ nl)%string])%list
             /\ w_err w' = w_err w
         | inl e =>
             w_out w' = w_out w
             /\ w_err w'
                = (w_err w
                     ++ [("Error: "
                          ++ what (mk_error2 "cannot rename" e from to)
                          ++ nl)%string])%list
         end.
Proof.
  intros from to w r rt Hr. run_helper. rewrite Hr.
  destruct r as [e | []]; eexists; (split; [reflexivity |]);
    cbn [w_fs w_out w_err w_calls put_out put_err set_root root log_call];
    repeat split.
Qed.

(** X10: each of the five helpers returns, having written exactly one
    line: either one line to standard output and nothing to standard
    error, or one line to standard error, which begins with "Error: " and
    carries the text of the exception, and nothing to standard output.
    None of them reads standard input. *)
Theorem helpers_report_once :
  forall (p q : path) (m : M unit) (w : world),
    In m [create_file p; create_directory_path p; delete_path p;
          copy_path p q; move_path p q] ->
    exists w',
      m w = (Ret tt, w')
      /\ w_in w' = w_in w
      /\ ((exists line,
              w_out w' = (w_out w ++ [line])%list /\ w_err w' = w_err w)
          \/ (exists e,
                 w_out w' = w_out w
                 /\ w_err w'
                    = (w_err w ++ [("Error: " ++ what e ++ nl)%string])%list)).
Proof.
  intros p q m w Hin. cbn [In] in Hin.
  repeat (destruct Hin as [<- | Hin]); try contradiction; run_helper;
    repeat match goal with
           | |- context [match ?x with _ => _ end] =>
               lazymatch x with
               | context [match _ with _ => _ end] => fail
               | _ => destruct x eqn:?
               end
           end;
    eexists; (split; [reflexivity |]);
    cbn [w_fs w_in w_out w_err w_calls put_out put_err set_root root
         log_call];
    (split; [reflexivity |]);
    solve [ left; eexists; split; reflexivity
          | right; eexists; split; reflexivity ].
Qed.

End WithPlatform.

Lemma home_a_txt_exists :
  status (w_fs (Samples.home_world [])) true "/home/u/a.txt"
  = inr (mk_status ft_regular Samples.rw_r__r__).
Proof. vm_compute. reflexivity. Qed.

Lemma home_dang_missing :
  status (w_fs (Samples.home_world [])) true "/home/u/dang"
  = inr (mk_status ft_not_found unknown).
Proof. vm_compute. reflexivity. Qed.

Lemma create_directory_path_spec_witness :
  exists w',
    @create_directory_path Samples.bare_platform "/home/u/a.txt"
      (Samples.home_world []) = (Ret tt, w')
    /\ w_out w'
       = (w_out (Samples.home_world [])
            ++ [("Path already exists." ++ nl)%string])%list
    /\ w_err w' = w_err (Samples.home_world [])
    /\ w_fs w' = w_fs (Samples.home_world [])
    /\ w_calls w'
       = (w_calls (Samples.home_world []) ++ [CStatus "/home/u/a.txt"])%list.
Proof.
  destruct (@create_directory_path_spec Samples.bare_platform
              "/home/u/a.txt" (Samples.home_world []) _ home_a_txt_exists)
    as [H _].
  apply H. reflexivity.
Defined.

Lemma copy_path_spec_witness :
  exists w',
    @copy_path Samples.bare_platform "/home/u/dang" "/home/u/copy"
      (Samples.home_world []) = (Ret tt, w')
    /\ w_out w'
       = (w_out (Samples.home_world [])
            ++ [("Source does not exist." ++ nl)%string])%list
    /\ w_err w' = w_err (Samples.home_world [])
    /\ w_fs w' = w_fs (Samples.home_world [])
    /\ w_calls w'
       = (w_calls (Samples.home_world []) ++ [CStatus "/home/u/dang"])%list.
Proof.
  destruct (@copy_path_spec Samples.bare_platform
              "/home/u/dang" "/home/u/copy" (Samples.home_world []) _
              home_dang_missing)
    as [H _].
  apply H. reflexivity.
Defined.

Lemma move_path_spec_witness :
  exists w',
    @move_path Samples.bare_platform "/home/u/gone" "/home/u/there"
      (Samples.home_world []) = (Ret tt, w')
    /\ root (w_fs w') = Samples.home_tree
    /\ w_calls w'
       = (w_calls (Samples.home_world [])
            ++ [CRename "/home/u/gone" "/home/u/there"])%list
    /\ w_out w' = w_out (Samples.home_world [])
    /\ w_err w'
       = (w_err (Samples.home_world [])
            ++ [("Error: "
                 ++ what (mk_error2 "cannot rename" ENOTSUP "/home/u/gone"
                                    "/home/u/there")
                 ++ nl)%string])%list.
Proof.
  apply (@move_path_spec Samples.bare_platform "/home/u/gone" "/home/u/there"
           (Samples.home_world []) (inl ENOTSUP) Samples.home_tree).
  reflexivity.
Defined.

Lemma helpers_report_once_witness :
  exists w',
    delete_path "/home/u/a.txt" (Samples.home_world [])
    = (Ret tt, w')
    /\ w_in w' = w_in (Samples.home_world [])
    /\ ((exists line,
            w_out w' = (w_out (Samples.home_world []) ++ [line])%list
            /\ w_err w' = w_err (Samples.home_world []))
        \/ (exists e,
               w_out w' = w_out (Samples.home_world [])
               /\ w_err w'
                  = (w_err (Samples.home_world [])
                       ++ [("Error: " ++ what e ++ nl)%string])%list)).
Proof.
  apply (@helpers_report_once Samples.bare_platform
           "/home/u/a.txt" "/home/u/b.txt").
  cbn [In]. right. right. left. reflexivity.
Defined.

End HelperFacts.

(** ** Navigation, continued *)

Module NavigationMore.
Import Str Path Perms Fs Explorer Notions ListingNotions.
Import PathFacts GoUpFacts FsFacts MonadFacts NavigationFacts DeleteFacts CreateFacts.
Local Open Scope monad_scope.

Lemma walk_along_chain_then rt fl fuel :
  forall above below rest,
    chain rt (above ++ below)%list -> no_links above ->
    walk fuel rt fl below (rev (map fst above) ++ rest)%list
    = walk fuel rt fl (above ++ below)%list rest.
Proof.
  induction above as [| [c n] above IH] using rev_ind;
    intros below rest Hch Hnl.
  - reflexivity.
  - rewrite map_app, rev_app_distr. simpl.
    rewrite <- List.app_assoc in *. simpl in *.
    pose proof (chain_app_r _ _ _ Hch) as Hc. simpl in Hc.
    destruct Hc as [Hbelow [Hl [Hx Hp]]].
    apply Forall_app in Hnl. destruct Hnl as [Hnl Hn].
    inversion Hn as [| ? ? Hnc _]; subst. simpl in Hnc.
    apply proper_name_inv in Hp. destruct Hp as [He [_ [Hd Hdd]]].
    rewrite walk_cons.
    destruct (here rt below) as [| | | pm m es] eqn:Hhere;
      simpl in Hl; try discriminate.
    simpl in Hx. rewrite He, Hx, Hd, Hdd, Hl. simpl.
    destruct n; try discriminate; apply IH; assumption.
Qed.

(** Resolving a name below a canonical pathname is one lookup in the
    directory the pathname denotes. *)
Lemma resolve_child (fs : filesys) (fl : bool) (st : stack) (name : string) :
  chain (root fs) st -> no_links st -> proper_name name = true ->
  append (render (location st)) name = render (location st ++ [name])%list
  /\ resolve fs fl (render (location st ++ [name])%list)
     = walk max_symlinks (root fs) fl st [name].
Proof.
  intros Hch Hnl Hp.
  pose proof (chain_names _ _ Hch) as Hnames.
  split.
  - apply append_render;
      [apply proper_all_valid, Hnames | apply proper_name_valid, Hp].
  - unfold resolve. rewrite render_absolute.
    assert (empty (render (location st ++ [name])%list) = false) as ->
        by (destruct (location st ++ [name])%list; reflexivity).
    rewrite components_render.
    + pose proof (walk_along_chain_then (root fs) fl max_symlinks st []
                    [name]) as Hw.
      rewrite List.app_nil_r in Hw. apply Hw; assumption.
    + destruct (location st); discriminate.
    + apply Forall_app. split; [exact Hnames | repeat constructor; exact Hp].
Qed.

Lemma removelast_snoc {A} (l : list A) (a : A) :
  removelast (l ++ [a])%list = l.
Proof. apply removelast_last. Qed.

Lemma lstat_directory (fs : filesys) (p : path) (s : file_status) :
  status fs false p = inr s -> status_is_directory s = true ->
  exists pm m es, stat_node fs false p = inr (Dir pm m es).
Proof.
  unfold status, status_ec.
  destruct (stat_node fs false p) as [e | n].
  - destruct (is_not_found_error e); cbn; [| discriminate].
    intros H; inversion H; subst. discriminate.
  - intros H; inversion H; subst. rewrite node_status_is_directory.
    destruct n; try discriminate. eauto.
Qed.

(** A status query that throws carries an error other than "not
    found". *)
Lemma status_throws (fs : filesys) (fl : bool) (p : path) (e : errno) :
  status fs fl p = inl e -> is_not_found_error e = false.
Proof.
  unfold status, status_ec.
  destruct (stat_node fs fl p) as [e0 | n]; [| discriminate].
  destruct (is_not_found_error e0) eqn:E; cbn; [discriminate |].
  intros H; inversion H; subst. exact E.
Qed.

Lemma exists_has_canonical (fs : filesys) (p : path) (s : file_status) :
  status fs true p = inr s -> status_exists s = true ->
  exists c, canonical fs p = inr c.
Proof.
  intros Hs Hex.
  destruct (status_exists_resolves _ _ _ Hs Hex) as [st [Hr _]].
  unfold canonical. rewrite Hr. eauto.
Qed.

Section WithPlatform.
Context {platform : Platform}.

(** X12: when the candidate does not exist, "Enter directory" asks for
    its status once and no more (the directory test is not reached),
    prints "Not a directory." and keeps the cursor.  When that status
    query throws (a directory on the way may not be searched, the links
    loop), nothing catches it: the exception leaves [enter_directory] with
    nothing printed. *)
Theorem enter_directory_absent :
  forall (cur dir : path) (w : world),
    (forall s,
        status (w_fs w) true (absolute cur dir) = inr s ->
        status_exists s = false ->
        exists w',
          enter_directory cur dir w = (Ret cur, w')
          /\ w_out w' = (w_out w ++ [("Not a directory." ++ nl)%string])%list
          /\ w_calls w' = (w_calls w ++ [CStatus (absolute cur dir)])%list
          /\ w_fs w' = w_fs w)
    /\ (forall e,
           status (w_fs w) true (absolute cur dir) = inl e ->
           exists w',
             enter_directory cur dir w
             = (Throw (mk_error "status" e (absolute cur dir)), w')
             /\ w_out w' = w_out w
             /\ w_err w' = w_err w
             /\ w_fs w' = w_fs w).
Proof.
  intros cur dir w. split.
  - intros s Hs Hex.
    unfold enter_directory, fs_exists, fs_is_directory, fs_canonical,
      fs_status, query, bind, call, ret, cout.
    cbn [w_fs log_call]. rewrite Hs. cbv beta iota. rewrite Hex.
    eexists. split; [reflexivity |]. repeat split.
  - intros e He.
    unfold enter_directory, fs_exists, fs_is_directory, fs_canonical,
      fs_status, query, bind, call, ret, cout.
    cbn [w_fs log_call]. rewrite He.
    eexists. split; [reflexivity |]. repeat split.
Qed.

(** The only exception [enter_directory] lets out is that of its first
    status query. *)
Lemma enter_directory_throws (cur dir : path) (w w' : world) (e : fs_error) :
  enter_directory cur dir w = (Throw e, w') ->
  fe_op e = "status" /\ is_not_found_error (fe_code e) = false.
Proof.
  unfold enter_directory, fs_exists, fs_is_directory, fs_canonical,
    fs_status, query, bind, call, ret, cout.
  cbn [w_fs log_call].
  destruct (status (w_fs w) true (absolute cur dir)) as [e0 | s] eqn:Hs.
  - intros H; inversion H; subst. split; [reflexivity |].
    exact (status_throws _ _ _ _ Hs).
  - cbv beta iota. destruct (status_exists s) eqn:Hex; cbv beta iota.
    + cbn [w_fs log_call]. rewrite Hs. cbv beta iota.
      destruct (status_is_directory s); cbv beta iota.
      * cbn [w_fs log_call].
        destruct (exists_has_canonical _ _ _ Hs Hex) as [c ->].
        discriminate.
      * discriminate.
    + discriminate.
Qed.

(** X11: entering a directory by its name and going up again is a round
    trip: from a canonical cursor, the name of an entry that is itself a
    directory (not a link to one) leads to the cursor extended by that
    name, and "go up" from there gives the old cursor back.  Nothing is
    printed and the tree is not changed. *)
Theorem enter_then_go_up :
  forall (cur name : path) (w : world) (s : file_status),
    canonical (w_fs w) cur = inr cur ->
    proper_name name = true ->
    status (w_fs w) false (append cur name) = inr s ->
    status_is_directory s = true ->
    exists w',
      enter_directory cur name w = (Ret (append cur name), w')
      /\ go_up (append cur name) = cur
      /\ w_fs w' = w_fs w
      /\ w_out w' = w_out w.
Proof.
  intros cur name w s Hcan Hp Hlst Hdir.
  destruct (lstat_directory _ _ _ Hlst Hdir) as [pm [m [es Hst]]].
  assert (is_absolute cur = true) as Habs.
  { unfold canonical in Hcan.
    destruct (resolve (w_fs w) true cur) as [e | [st | ? ?]];
      try discriminate.
    injection Hcan as H. rewrite <- H. apply render_absolute. }
  destruct (canonical_fixed _ _ _ Habs Hcan)
    as [st [_ [Hcur [Hch [Hnl _]]]]].
  destruct (resolve_child (w_fs w) false st name Hch Hnl Hp) as [Happ Hres].
  destruct (resolve_child (w_fs w) true st name Hch Hnl Hp) as [_ Hres'].
  rewrite <- Hcur in Happ.
  pose proof (proper_name_inv _ Hp) as [He [Hs [Hd Hdd]]].
  assert (is_absolute name = false) as Hrel.
  { destruct name as [| c s0]; [discriminate |].
    unfold is_absolute, starts. simpl in Hs |- *.
    destruct (is_slash c); [discriminate | reflexivity]. }
  unfold stat_node in Hst. rewrite Happ, Hres in Hst.
  rewrite walk_cons in Hst.
  destruct (here (root (w_fs w)) st) as [| | | pm0 m0 es0] eqn:Hhere;
    try discriminate.
  rewrite He, Hd, Hdd in Hst.
  destruct (negb (can_search pm0)) eqn:Hx; [discriminate |].
  cbn [is_nil orb negb] in Hst.
  assert (lookup_entry name es0 = Some (Dir pm m es)) as Hl.
  { destruct (lookup_entry name es0) as [[| | |] |];
      rewrite ?walk_nil in Hst; cbn [here] in Hst;
      try discriminate; congruence. }
  assert (resolve (w_fs w) true (append cur name)
          = inr (Found ((name, Dir pm m es) :: st))) as Hfound.
  { rewrite Happ, Hres', walk_cons, Hhere, He, Hd, Hdd, Hx, Hl.
    apply walk_nil. }
  assert (status (w_fs w) true (append cur name)
          = inr (node_status (Dir pm m es))) as Hstatus
      by (rewrite (status_of_resolved _ _ _ Hfound); reflexivity).
  assert (canonical (w_fs w) (append cur name) = inr (append cur name))
    as Hcanon.
  { unfold canonical. rewrite Hfound, location_cons, Happ. reflexivity. }
  exists (log_call (CCanonical (append cur name))
            (log_call (CStatus (append cur name))
               (log_call (CStatus (append cur name)) w))).
  split; [| split; [| split; reflexivity]].
  - unfold enter_directory, absolute. rewrite Hrel.
    unfold fs_exists, fs_is_directory, fs_canonical, fs_status, query,
      bind, call, ret.
    cbn [w_fs log_call]. rewrite Hstatus. cbn.
    rewrite Hstatus. cbn. rewrite Hcanon. reflexivity.
  - rewrite Happ, Hcur, go_up_render, removelast_snoc; [reflexivity |].
    apply proper_all_valid, Forall_app. split.
    + apply (chain_names _ _ Hch).
    + repeat constructor. exact Hp.
Qed.

End WithPlatform.

Lemma home_u_canonical :
  canonical (w_fs (Samples.home_world [])) "/home/u" = inr "/home/u".
Proof. vm_compute. reflexivity. Qed.

Lemma home_u_d_lstat :
  status (w_fs (Samples.home_world [])) false (append "/home/u" "d")
  = inr (mk_status ft_directory Samples.rwxr_xr_x).
Proof. vm_compute. reflexivity. Qed.

Lemma enter_then_go_up_witness :
  exists w',
    enter_directory "/home/u" "d" (Samples.home_world [])
    = (Ret (append "/home/u" "d"), w')
    /\ go_up (append "/home/u" "d") = "/home/u"
    /\ w_fs w' = w_fs (Samples.home_world [])
    /\ w_out w' = w_out (Samples.home_world []).
Proof.
  apply (enter_then_go_up "/home/u" "d" (Samples.home_world [])
           (mk_status ft_directory Samples.rwxr_xr_x)).
  - exact home_u_canonical.
  - reflexivity.
  - exact home_u_d_lstat.
  - reflexivity.
Defined.

Lemma home_dang_absent :
  status (w_fs (Samples.home_world [])) true (absolute "/home/u" "dang")
  = inr (mk_status ft_not_found unknown).
Proof. vm_compute. reflexivity. Qed.

Lemma enter_directory_absent_witness :
  exists w',
    enter_directory "/home/u" "dang" (Samples.home_world [])
    = (Ret "/home/u", w')
    /\ w_out w'
       = (w_out (Samples.home_world [])
            ++ [("Not a directory." ++ nl)%string])%list
    /\ w_calls w'
       = (w_calls (Samples.home_world [])
            ++ [CStatus (absolute "/home/u" "dang")])%list
    /\ w_fs w' = w_fs (Samples.home_world []).
Proof.
  destruct (enter_directory_absent "/home/u" "dang" (Samples.home_world []))
    as [H _].
  apply (H (mk_status ft_not_found unknown)).
  - exact home_dang_absent.
  - reflexivity.
Defined.

End NavigationMore.

(** ** The loop, continued *)

Module RunFacts.
Import Str Path Perms Fs Explorer Notions ListingNotions.
Import PathFacts FsFacts MonadFacts ProgramFacts NavigationFacts NavigationMore.
Local Open Scope monad_scope.

Ltac unfold_program :=
  unfold command, enter_directory, create_file, create_directory_path,
    delete_path, copy_path, move_path, search_recursive, input_path,
    print_menu, report, list_dir, entry_row, entry_type_label, entry_perm,
    entry_size, entry_modified, entry_is_directory, entry_is_symlink,
    entry_is_regular_file, entry_file_type, entry_file_size,
    fs_directory_iterator, fs_recursive_directory_iterator, fs_exists,
    fs_is_directory, fs_canonical, fs_status, fs_symlink_status,
    fs_file_size, fs_last_write_time, fs_remove, fs_remove_all,
    fs_create_directories, fs_copy, fs_copy_file, fs_rename.

Section WithPlatform.
Context {platform : Platform}.

Lemma list_dir_same_fs (cur : path) : keeps same_fs (list_dir cur).
Proof. unfold_program. frame. Qed.

Lemma enter_directory_same_fs (cur dir : path) :
  keeps same_fs (enter_directory cur dir).
Proof. unfold_program. frame. Qed.

Lemma search_recursive_same_fs (cur : path) (needle : string) :
  keeps same_fs (search_recursive cur needle).
Proof. unfold_program. frame. Qed.

Lemma input_path_same_fs (prompt : string) :
  keeps same_fs (input_path prompt).
Proof. unfold_program. frame. Qed.

Lemma command_same_fs (choice : string) (cur : path) :
  ~ In choice ["4"; "5"; "6"; "7"; "8"] ->
  keeps same_fs (command choice cur).
Proof.
  intros Hno. unfold command.
  repeat match goal with
         | |- keeps _ (if String.eqb choice ?k then _ else _) =>
             destruct (String.eqb choice k) eqn:?
         end;
    try (match goal with
         | E : String.eqb choice _ = true |- _ =>
             apply String.eqb_eq in E; subst choice
         end;
         try (exfalso; apply Hno; cbn [In]; tauto)).
  all: try solve [frame].
  all: repeat first
         [ apply keeps_ret
         | apply keeps_bind;
           [ exact _
           | first [ apply input_path_same_fs | apply enter_directory_same_fs
                   | apply search_recursive_same_fs | solve [frame] | idtac ]
           | intros ?; cbv beta ]
         | match goal with
           | |- keeps _ (match ?x with _ => _ end) => destruct x
           | |- keeps _ (if ?x then _ else _) => destruct x
           end ].
Qed.

(** X13: only the create, delete, copy and move commands can change
    the file tree.  A turn of the loop whose choice line is anything else
    (list, enter, go up, search, exit, an invalid choice, end of input)
    leaves the tree and the working directory as they were, whether the
    turn returns or throws. *)
Theorem tree_changes_only_on_mutating_commands :
  forall (cur : path) (w : world),
    (forall c rest, In c ["4"; "5"; "6"; "7"; "8"] -> w_in w <> c :: rest) ->
    w_fs (snd (iteration cur w)) = w_fs w.
Proof.
  intros cur w Hno. unfold iteration.
  destruct (returns_unit _ (list_dir_returns cur) w) as [w1 E1].
  rewrite (bind_run _ _ _ _ _ E1).
  pose proof (keeps_run same_in _ _ _ _ (list_dir_same_in cur) E1) as H1.
  pose proof (keeps_run same_fs _ _ _ _ (list_dir_same_fs cur) E1) as F1.
  unfold same_in in H1. unfold same_fs in F1.
  unfold bind at 1. unfold print_menu, cout. cbv beta iota.
  unfold bind at 1. unfold getline. simpl w_in. rewrite H1.
  destruct (w_in w) as [| l rest] eqn:Ein; cbn [fst snd negb].
  - exact F1.
  - assert (~ In l ["4"; "5"; "6"; "7"; "8"]) as Hl
        by (intros Hin; exact (Hno l rest Hin eq_refl)).
    pose proof (command_same_fs l cur Hl
                  (set_in rest (put_out
                     (nl ++ "Commands:" ++ nl
                      ++ "1. List current directory" ++ nl
                      ++ "2. Enter directory" ++ nl
                      ++ "3. Go up (..)" ++ nl
                      ++ "4. Create file" ++ nl
                      ++ "5. Create directory" ++ nl
                      ++ "6. Delete file/directory" ++ nl
                      ++ "7. Copy file/directory" ++ nl
                      ++ "8. Move/Rename file/directory" ++ nl
                      ++ "9. Search by name (recursive)" ++ nl
                      ++ "0. Exit" ++ nl
                      ++ "Choose: ") w1))) as Hc.
    unfold same_fs in Hc. cbn [w_fs set_in put_out] in Hc.
    rewrite <- F1. exact Hc.
Qed.

Lemma iteration_throw_origin (cur : path) (w w' : world) (e : fs_error) :
  iteration cur w = (Throw e, w') ->
  fe_op e = "status" /\ is_not_found_error (fe_code e) = false.
Proof.
  intros E.
  destruct (iteration_throws_on_enter_only _ _ _ _ E) as [rest Hin].
  revert E. unfold iteration.
  destruct (returns_unit _ (list_dir_returns cur) w) as [w1 E1].
  rewrite (bind_run _ _ _ _ _ E1).
  pose proof (keeps_run same_in _ _ _ _ (list_dir_same_in cur) E1) as H1.
  unfold same_in in H1.
  unfold bind at 1. unfold print_menu, cout. cbv beta iota.
  unfold bind at 1. unfold getline. simpl w_in. rewrite H1, Hin.
  cbn [fst snd negb].
  unfold command. cbn [String.eqb Ascii.eqb Bool.eqb].
  unfold input_path, bind at 1 2 3, cout, getline, ret.
  cbn [w_in put_out set_in].
  destruct rest as [| dir rest']; cbn [snd empty]; [discriminate |].
  destruct (empty dir); [discriminate |].
  unfold bind.
  match goal with
  | |- context [enter_directory cur dir ?x] =>
      destruct (enter_directory cur dir x) as [[c | e0] w2] eqn:Ee
  end; [discriminate |].
  intros H; inversion H; subst.
  exact (enter_directory_throws _ _ _ _ _ Ee).
Qed.

Lemma main_loop_throw_origin (fuel : nat) :
  forall cur w e w',
    main_loop fuel cur w = Some (Throw e, w') ->
    In "2" (w_in w)
    /\ fe_op e = "status" /\ is_not_found_error (fe_code e) = false.
Proof.
  induction fuel as [| fuel IH]; intros cur w e w' E; [discriminate |].
  simpl in E.
  pose proof (iteration_input_within cur w) as Hin.
  destruct (iteration cur w) as [[[c p] | e0] w1] eqn:Ei.
  - destruct c; [| discriminate].
    destruct (IH _ _ _ _ E) as [H2 Ho].
    split; [exact (Hin _ H2) | exact Ho].
  - inversion E; subst.
    destruct (iteration_throws_on_enter_only _ _ _ _ Ei) as [rest Hr].
    split; [rewrite Hr; now left |].
    exact (iteration_throw_origin _ _ _ _ Ei).
Qed.

(** X14: the process can end other than by returning 0 in two ways only,
    both an exception that nothing catches.  Either [fs::current_path]
    throws before the first turn, because the working directory is gone:
    then nothing was printed and no input was read.  Or some input line
    was "2" and the status query of "Enter directory" threw, with an
    error that is not "no such file" (a directory that may not be
    searched, links that loop). *)
Theorem only_two_exceptions_terminate :
  forall (fuel : nat) (w w' : world) (e : fs_error),
    main fuel w = Some (Terminated e, w') ->
    (current_path (w_fs w) = inl (fe_code e)
     /\ e = mk_error "cannot get current path" (fe_code e) EmptyString
     /\ w_out w' = w_out w
     /\ w_in w' = w_in w)
    \/ (In "2" (w_in w)
        /\ fe_op e = "status"
        /\ is_not_found_error (fe_code e) = false).
Proof.
  intros fuel w w' e. unfold main. rewrite fs_current_path_run.
  destruct (current_path (w_fs w)) as [e0 | cur] eqn:Hc.
  - intros H. inversion H; subst. left. repeat split.
  - destruct (main_loop fuel cur (log_call CCurrentPath w))
      as [[[[] | e0] w1] |] eqn:E; try discriminate.
    intros H; inversion H; subst. right.
    exact (main_loop_throw_origin _ _ _ _ _ E).
Qed.

(** X15: end of input at a prompt cancels the command like an empty
    line: for every command that asks for a pathname, and for the
    destination of copy and move as well, the command returns to the loop
    with the same cursor, no file-system call is made and the tree is not
    changed.  The search command does the same at end of input and on an
    empty line: no search is made. *)
Theorem end_of_input_cancels :
  forall (choice : string) (cur : path) (w : world) (first : string)
         (rest : list string),
    (In choice ["2"; "4"; "5"; "6"; "7"; "8"; "9"] /\ w_in w = [])
    \/ (In choice ["7"; "8"] /\ first <> "" /\ w_in w = [first])
    \/ (choice = "9" /\ w_in w = "" :: rest) ->
    exists w',
      command choice cur w = (Ret (Continue, cur), w')
      /\ w_fs w' = w_fs w
      /\ w_calls w' = w_calls w
      /\ w_err w' = w_err w.
Proof.
  intros choice cur w first rest [[Hc Hin] | [[Hc [Hne Hin]] | [-> Hin]]].
  - simpl in Hc.
    repeat (destruct Hc as [<- | Hc]; [|]); try contradiction;
      unfold command, input_path, bind, cout, getline, ret; simpl;
      rewrite Hin; simpl; eexists; repeat split; reflexivity.
  - assert (empty first = false) as He
        by (destruct first; [contradiction | reflexivity]).
    simpl in Hc.
    repeat (destruct Hc as [<- | Hc]; [|]); try contradiction;
      unfold command, input_path, bind, cout, getline, ret; simpl;
      rewrite Hin; simpl; rewrite He; simpl;
      eexists; repeat split; reflexivity.
  - unfold command, input_path, bind, cout, getline, ret; simpl;
      rewrite Hin; simpl; eexists; repeat split; reflexivity.
Qed.

(** X16: the cursor is always the pathname of a location: absolute, made
    of proper names, without dot, dot-dot or doubled separator.  The
    cursor the program starts with is one when the working directory is
    given by proper names, and a turn of the loop that returns leaves one
    when it started with one. *)
Theorem cursor_stays_canonical :
  forall (w : world),
    (forall cur w0,
        Forall (fun c => proper_name c = true) (cwd (w_fs w)) ->
        fs_current_path w = (Ret cur, w0) ->
        canonical_cursor cur)
    /\ (forall cur cur' w' c,
           canonical_cursor cur ->
           iteration cur w = (Ret (c, cur'), w') ->
           canonical_cursor cur').
Proof.
  intros w. split.
  - intros cur w0 Hp H. rewrite fs_current_path_run in H.
    unfold current_path in H.
    destruct (node_at (cwd (w_fs w)) (root (w_fs w))) as [[| | |] |];
      try discriminate.
    inversion H; subst.
    exists (cwd (w_fs w)). split; [exact Hp | reflexivity].
  - intros cur cur' w' c Hcur. unfold iteration.
    destruct (returns_unit _ (list_dir_returns cur) w) as [w1 E1].
    rewrite (bind_run _ _ _ _ _ E1).
    unfold bind at 1. unfold print_menu, cout. cbv beta iota.
    unfold bind at 1. unfold getline.
    match goal with
    | |- context [w_in ?x] => destruct (w_in x) as [| l rest]
    end; cbn [fst snd negb].
    + intros H; inversion H; subst. exact Hcur.
    + intros H. exact (command_canonical_cursor _ _ _ _ _ _ Hcur H).
Qed.

End WithPlatform.

Lemma tree_changes_only_on_mutating_commands_witness :
  w_fs (snd (@iteration Samples.bare_platform "/home/u"
               (Samples.home_world ["9"; "a"])))
  = w_fs (Samples.home_world ["9"; "a"]).
Proof.
  apply (@tree_changes_only_on_mutating_commands Samples.bare_platform).
  intros c rest Hin. cbn [In] in Hin.
  repeat (destruct Hin as [<- | Hin]; [discriminate |]). contradiction.
Defined.

Lemma only_two_exceptions_terminate_witness :
  (current_path (w_fs MoreSamples.lost_world)
   = inl (fe_code (mk_error "cannot get current path" ENOENT EmptyString))
   /\ mk_error "cannot get current path" ENOENT EmptyString
      = mk_error "cannot get current path"
          (fe_code (mk_error "cannot get current path" ENOENT EmptyString))
          EmptyString
   /\ w_out (log_call CCurrentPath MoreSamples.lost_world)
      = w_out MoreSamples.lost_world
   /\ w_in (log_call CCurrentPath MoreSamples.lost_world)
      = w_in MoreSamples.lost_world)
  \/ (In "2" (w_in MoreSamples.lost_world)
      /\ fe_op (mk_error "cannot get current path" ENOENT EmptyString)
         = "status"
      /\ is_not_found_error
           (fe_code (mk_error "cannot get current path" ENOENT EmptyString))
         = false).
Proof.
  apply (@only_two_exceptions_terminate Samples.bare_platform 1
           MoreSamples.lost_world
           (log_call CCurrentPath MoreSamples.lost_world)
           (mk_error "cannot get current path" ENOENT EmptyString)).
  vm_compute. reflexivity.
Defined.

(** Both ways happen: a working directory that is gone, and a candidate
    in a directory that may not be searched. *)
Example run_without_working_directory :
  @main Samples.bare_platform 1 MoreSamples.lost_world
  = Some (Terminated (mk_error "cannot get current path" ENOENT EmptyString),
          log_call CCurrentPath MoreSamples.lost_world).
Proof. vm_compute. reflexivity. Qed.

Lemma end_of_input_cancels_witness :
  exists w',
    @command Samples.bare_platform "4" "/home/u" (Samples.home_world [])
    = (Ret (Continue, "/home/u"), w')
    /\ w_fs w' = w_fs (Samples.home_world [])
    /\ w_calls w' = w_calls (Samples.home_world [])
    /\ w_err w' = w_err (Samples.home_world []).
Proof.
  apply (@end_of_input_cancels Samples.bare_platform "4" "/home/u"
           (Samples.home_world []) "" []).
  left. split; [cbn [In]; tauto | reflexivity].
Defined.

Lemma cursor_stays_canonical_witness : canonical_cursor "/home/u".
Proof.
  destruct (@cursor_stays_canonical Samples.bare_platform
              (Samples.home_world [])) as [H _].
  apply (H "/home/u" (log_call CCurrentPath (Samples.home_world []))).
  - repeat constructor.
  - reflexivity.
Defined.

End RunFacts.

(** ** Failures of search and removal *)

Module FailureFacts.
Import Str Path Perms Fs Explorer Notions ListingNotions.
Import PathFacts FsFacts MonadFacts NavigationFacts DeleteFacts.
Local Open Scope monad_scope.

(** X17: a search whose root cannot be opened prints no pathname and
    leaves the tree alone.  When the root may not be read the search is
    silent: nothing is reported either.  For every other reason (the root
    is gone, it is not a directory, a directory on the way may not be
    searched) one "Error searching" line goes to standard error. *)
Theorem search_recursive_unopenable :
  forall (rt : path) (needle : string) (w : world) (e : errno),
    opendir (w_fs w) rt = inl e ->
    exists w',
      search_recursive rt needle w = (Ret tt, w')
      /\ w_out w' = w_out w
      /\ w_fs w' = w_fs w
      /\ w_err w'
         = match e with
           | EACCES => w_err w
           | _ =>
               (w_err w
                  ++ [("Error searching: "
                       ++ what (mk_error
                                  "recursive directory iterator cannot open directory"
                                  e rt)
                       ++ nl)%string])%list
           end.
Proof.
  intros rt needle w e Hopen.
  unfold search_recursive, try_catch, fs_recursive_directory_iterator,
    query, bind, call, cerr.
  cbn [w_fs log_call]. unfold recursive_directory_iterator.
  rewrite Hopen.
  destruct e; cbn [for_each ret]; eexists; (split; [reflexivity |]);
    repeat split.
Qed.

Lemma search_recursive_unopenable_witness :
  exists w',
    search_recursive "/home/u/a.txt" "a" (Samples.home_world [])
    = (Ret tt, w')
    /\ w_out w' = w_out (Samples.home_world [])
    /\ w_fs w' = w_fs (Samples.home_world [])
    /\ w_err w'
       = (w_err (Samples.home_world [])
            ++ [("Error searching: "
                 ++ what (mk_error
                            "recursive directory iterator cannot open directory"
                            ENOTDIR "/home/u/a.txt")
                 ++ nl)%string])%list.
Proof.
  apply (search_recursive_unopenable "/home/u/a.txt" "a"
           (Samples.home_world []) ENOTDIR).
  vm_compute. reflexivity.
Defined.

(** X18: deleting a file (anything that is neither a directory nor a
    link) from a directory that may not be written fails cleanly: the
    exception of [fs::remove] is caught, "Error: ... cannot remove:
    Permission denied" goes to standard error, no count is printed, and
    the tree is as it was. *)
Theorem delete_path_denied :
  forall (p : path) (w : world) (name : string) (n : node) (parent : stack),
    is_absolute p = true ->
    resolve (w_fs w) false p = inr (Found ((name, n) :: parent)) ->
    is_dir n = false -> is_link n = false ->
    ends_in_dot p = false ->
    can_write (node_perms (here (root (w_fs w)) parent)) = false ->
    exists w',
      delete_path p w = (Ret tt, w')
      /\ w_fs w' = w_fs w
      /\ w_out w' = w_out w
      /\ w_err w'
         = (w_err w
              ++ [("Error: " ++ what (mk_error "cannot remove" EACCES p)
                   ++ nl)%string])%list.
Proof.
  intros p w name n parent Habs Hres Hleaf Hlink Hdot Hw.
  pose proof (resolve_absolute_good (w_fs w) false p Habs) as Hgood.
  rewrite Hres in Hgood. simpl in Hgood.
  destruct (chain_parent_dir _ _ _ _ Hgood) as [pm [m [es [Hhere _]]]].
  rewrite Hhere in Hw. simpl in Hw.
  pose proof (resolve_follow_same _ _ _ Hres Hlink) as Hres'.
  pose proof (status_of_resolved _ _ _ Hres') as Hst. simpl here in Hst.
  assert (remove (w_now w) (w_fs w) p = inl EACCES) as Hrm.
  { unfold remove. rewrite Hres, Hdot. simpl here.
    unfold unlink. rewrite Hhere, Hw. simpl.
    destruct n; try discriminate; reflexivity. }
  unfold delete_path, try_catch, fs_exists, fs_is_directory, fs_status,
    fs_remove, mutation, query, report, bind, call, ret, cout, cerr.
  cbn [w_fs w_now log_call]. rewrite Hst. cbv beta iota.
  rewrite node_status_exists. cbn [negb].
  cbn [w_fs w_now log_call]. rewrite Hst. cbv beta iota.
  rewrite node_status_is_directory, Hleaf.
  cbn [w_fs w_now log_call]. rewrite Hrm.
  eexists. split; [reflexivity |].
  cbn [w_fs w_out w_err put_err set_root log_call root cwd].
  repeat split. destruct (w_fs w); reflexivity.
Qed.

(** The exception of [fs::remove_all] names the entry that could not be
    removed beside the pathname it was given; when everything below the
    pathname went and only the pathname itself cannot go, the exception is
    that of [fs::remove], and the directory is left empty. *)
Example remove_all_names_the_entry :
  w_err (snd (delete_path "/home/u/top" MoreSamples.nested_world))
  = [("Error: filesystem error: cannot remove all: Permission denied"
      ++ " [/home/u/top] [/home/u/top/ro/f]" ++ nl)%string]
  /\ w_fs (snd (delete_path "/home/u/top" MoreSamples.nested_world))
     = w_fs MoreSamples.nested_world.
Proof. vm_compute. split; reflexivity. Qed.

Example remove_all_ends_in_remove :
  w_err (snd (delete_path "/home/u/ro/box" MoreSamples.nested_world))
  = [("Error: filesystem error: cannot remove: Permission denied"
      ++ " [/home/u/ro/box]" ++ nl)%string]
  /\ node_at ["home"; "u"; "ro"; "box"]
       (root (w_fs (snd (delete_path "/home/u/ro/box"
                           MoreSamples.nested_world))))
     = Some (Dir Samples.rwxr_xr_x 0 []).
Proof. vm_compute. split; reflexivity. Qed.

Lemma guarded_f_resolves :
  resolve (w_fs MoreSamples.guarded_world) false "/home/u/ro/f"
  = inr (Found
           [ ("f", File Samples.rw_r__r__ 0 "x");
             ("ro", Dir 365%N 0 [("f", File Samples.rw_r__r__ 0 "x")]);
             ("u",
              Dir Samples.rwxr_xr_x 0
                [("ro", Dir 365%N 0 [("f", File Samples.rw_r__r__ 0 "x")])]);
             ("home",
              Dir Samples.rwxr_xr_x 0
                [("u",
                  Dir Samples.rwxr_xr_x 0
                    [("ro",
                      Dir 365%N 0 [("f", File Samples.rw_r__r__ 0 "x")])])]) ]).
Proof. vm_compute. reflexivity. Qed.

Lemma delete_path_denied_witness :
  exists w',
    delete_path "/home/u/ro/f" MoreSamples.guarded_world = (Ret tt, w')
    /\ w_fs w' = w_fs MoreSamples.guarded_world
    /\ w_out w' = w_out MoreSamples.guarded_world
    /\ w_err w'
       = (w_err MoreSamples.guarded_world
            ++ [("Error: "
                 ++ what (mk_error "cannot remove" EACCES "/home/u/ro/f")
                 ++ nl)%string])%list.
Proof.
  eapply (delete_path_denied "/home/u/ro/f" MoreSamples.guarded_world).
  - reflexivity.
  - exact guarded_f_resolves.
  - reflexivity.
  - reflexivity.
  - vm_compute. reflexivity.
  - vm_compute. reflexivity.
Defined.

End FailureFacts.

(** ** Resolution in a tree that was changed at one place *)

Module OverlayFacts.
Import Str Path Perms Fs Explorer Notions Overlay.
Import PathFacts FsFacts MonadFacts NavigationFacts DeleteFacts CreateFacts.

Lemma here_lift g L rt st :
  here (update L g rt) (lift g L st) = image g L (location st) (here rt st).
Proof. destruct st as [| [c n] st]; reflexivity. Qed.

Lemma tl_lift g L st : tl (lift g L st) = lift g L (tl st).
Proof. destruct st as [| [c n] st]; reflexivity. Qed.

Lemma location_lift g L st : location (lift g L st) = location st.
Proof.
  unfold location. f_equal.
  induction st as [| [c n] st IH]; simpl; [reflexivity | now rewrite IH].
Qed.

Lemma strip_snoc (c : string) :
  forall l L,
    strip (l ++ [c])%list L =
    match strip l L with
    | Some (c2 :: l2) => if String.eqb c c2 then Some l2 else None
    | _ => None
    end.
Proof.
  induction l as [| a l IH]; intros L; simpl.
  - destruct L as [| c2 l2]; [reflexivity |].
    destruct (String.eqb c c2); reflexivity.
  - destruct L as [| c' L']; [reflexivity |].
    destruct (String.eqb a c'); [apply IH | reflexivity].
Qed.

Lemma strip_refl (l : list string) : strip l l = Some [].
Proof.
  induction l as [| c l IH]; simpl; [reflexivity |].
  now rewrite String.eqb_refl.
Qed.

Lemma lookup_map_entry_any (c c2 : string) (h : node -> node) es :
  lookup_entry c (map_entry c2 h es)
  = if String.eqb c c2 then option_map h (lookup_entry c es)
    else lookup_entry c es.
Proof.
  induction es as [| [k n] es IH]; simpl.
  - destruct (String.eqb c c2); reflexivity.
  - destruct (String.eqb c2 k) eqn:E2; simpl.
    + apply String.eqb_eq in E2. subst k.
      destruct (String.eqb c c2); reflexivity.
    + destruct (String.eqb c k) eqn:Ek.
      * apply String.eqb_eq in Ek. subst k.
        rewrite String.eqb_sym, E2. reflexivity.
      * exact IH.
Qed.

Lemma lookup_app_entry (c name : string) (f : node) es :
  lookup_entry c (es ++ [(name, f)])%list
  = match lookup_entry c es with
    | Some n => Some n
    | None => if String.eqb c name then Some f else None
    end.
Proof.
  induction es as [| [k n] es IH]; simpl.
  - reflexivity.
  - destruct (String.eqb c k); [reflexivity | exact IH].
Qed.

(** *** Resolution after a file was added *)

Section Added.
Variables (rt : node) (L : list string) (now : Z) (name : string).
Variables (pmf : perms) (mf : Z) (cf : string).

Let f : node := File pmf mf cf.
Let g : node -> node := add_child now name f.

Let added : resolved -> resolved := Overlay.added g L name f.

Lemma image_leaf l n :
  is_dir n = false -> image g L l n = n.
Proof.
  intros Hn. unfold image.
  destruct (strip l L) as [[| c2 l2] |]; [| | reflexivity];
    destruct n; try discriminate; reflexivity.
Qed.

Lemma image_dir l pm m es :
  exists m' es',
    image g L l (Dir pm m es) = Dir pm m' es'
    /\ (forall c,
           lookup_entry c es' =
           match lookup_entry c es with
           | Some n => Some (image g L (l ++ [c])%list n)
           | None =>
               match strip l L with
               | Some [] => if String.eqb c name then Some f else None
               | _ => None
               end
           end).
Proof.
  unfold image at 1.
  destruct (strip l L) as [[| c2 l2] |] eqn:Hs.
  - exists now, (es ++ [(name, f)])%list. split; [reflexivity |].
    intros c. rewrite lookup_app_entry.
    destruct (lookup_entry c es) as [n |]; [| reflexivity].
    unfold image. rewrite strip_snoc, Hs. reflexivity.
  - exists m, (map_entry c2 (update l2 g) es). split; [reflexivity |].
    intros c. rewrite lookup_map_entry_any.
    unfold image. rewrite strip_snoc, Hs.
    destruct (String.eqb c c2);
      destruct (lookup_entry c es) as [n |]; reflexivity.
  - exists m, es. split; [reflexivity |].
    intros c. unfold image. rewrite strip_snoc, Hs.
    destruct (lookup_entry c es); reflexivity.
Qed.

Lemma walk_added (fl : bool) :
  forall fuel todo st r,
    walk fuel rt fl st todo = inr r ->
    walk fuel (update L g rt) fl (lift g L st) todo = inr (added r).
Proof.
  induction fuel as [| fuel IHf];
    (induction todo as [| c rest IHt]; intros st r;
     [rewrite !walk_nil; intros H; inversion H; reflexivity |]);
    rewrite !walk_cons, here_lift;
    (destruct (here rt st) as [| | | pm m es] eqn:Hhere; try discriminate);
    destruct (image_dir (location st) pm m es) as [m' [es' [-> Hlook]]];
    (destruct (empty c); [apply IHt |]);
    (destruct (negb (can_search pm)); [discriminate |]);
    (destruct (String.eqb c "."); [apply IHt |]);
    (destruct (String.eqb c "..");
     [rewrite tl_lift; apply IHt |]);
    rewrite Hlook;
    (destruct (lookup_entry c es) as [n |] eqn:Hl;
     [| destruct (is_nil rest) eqn:Hrest; [| discriminate];
        intros H; inversion H; subst; unfold added, Overlay.added, hit;
        destruct (strip (location st) L) as [[| c2 l2] |];
        try reflexivity;
        destruct (String.eqb c name) eqn:Ec; [| reflexivity];
        apply String.eqb_eq in Ec; subst c;
        destruct rest; [| discriminate]; simpl; first [apply walk_nil | reflexivity]]);
    (destruct n as [pm' m0 ct | k pm' m0 | m0 target | pm' m0 es0];
     [ rewrite image_leaf by reflexivity; intros H;
       specialize (IHt _ _ H); simpl lift in IHt;
       rewrite location_cons, image_leaf in IHt by reflexivity; exact IHt
     | rewrite image_leaf by reflexivity; intros H;
       specialize (IHt _ _ H); simpl lift in IHt;
       rewrite location_cons, image_leaf in IHt by reflexivity; exact IHt
     | rewrite image_leaf by reflexivity
     | destruct (image_dir (location st ++ [c])%list pm' m0 es0)
         as [m1 [es1 [Himg _]]];
       rewrite Himg; intros H; specialize (IHt _ _ H);
       simpl lift in IHt; rewrite location_cons, Himg in IHt; exact IHt ]).
  - destruct (fl || negb (is_nil rest)); [discriminate |].
    intros H. specialize (IHt _ _ H). simpl lift in IHt.
    rewrite location_cons, image_leaf in IHt by reflexivity. exact IHt.
  - destruct (fl || negb (is_nil rest)).
    + destruct (empty target); [discriminate |].
      intros H. specialize (IHf _ _ _ H).
      destruct (is_absolute target); exact IHf.
    + intros H. specialize (IHt _ _ H). simpl lift in IHt.
      rewrite location_cons, image_leaf in IHt by reflexivity. exact IHt.
Qed.

Lemma resolve_added (cwd0 : list string) (fl : bool) (p : path) r :
  resolve (mk_fs rt cwd0) fl p = inr r ->
  resolve (mk_fs (update L g rt) cwd0) fl p = inr (added r).
Proof.
  unfold resolve. destruct (empty p); [discriminate |].
  cbn [root cwd].
  destruct (is_absolute p).
  - apply (walk_added fl max_symlinks (components p) []).
  - destruct (walk max_symlinks rt true [] cwd0)
      as [e | [st | ? ?]] eqn:Hc; try discriminate.
    pose proof (walk_added true _ _ [] _ Hc) as Hc'.
    unfold added in Hc'; cbn [lift Overlay.added] in Hc'. rewrite Hc'.
    apply walk_added.
Qed.

End Added.

End OverlayFacts.

Module DotFacts.
Import Str Path Perms Fs Explorer Notions Overlay.
Import PathFacts FsFacts.

Lemma last_cons_ne {A} (a : A) (l : list A) (d : A) :
  l <> [] -> last (a :: l) d = last l d.
Proof. destruct l; [contradiction | reflexivity]. Qed.

Lemma last_app_ne {A} (l1 l2 : list A) (d : A) :
  l2 <> [] -> last (l1 ++ l2)%list d = last l2 d.
Proof.
  intros H. induction l1 as [| a l1 IH]; [reflexivity |].
  simpl app. rewrite last_cons_ne; [exact IH |].
  destruct l1; [exact H | discriminate].
Qed.

(** A resolution that ends at an absent name was given a last name that
    is neither dot nor dot-dot. *)
Lemma walk_missing_last rt fl :
  forall fuel todo st s c,
    walk fuel rt fl st todo = inr (Missing s c) ->
    filter named todo <> []
    /\ String.eqb (last (filter named todo) "") "." = false
    /\ String.eqb (last (filter named todo) "") ".." = false.
Proof.
  assert (Hskip : forall (c0 : string) rest,
             filter named rest <> []
             /\ String.eqb (last (filter named rest) "") "." = false
             /\ String.eqb (last (filter named rest) "") ".." = false ->
             filter named (c0 :: rest) <> []
             /\ String.eqb (last (filter named (c0 :: rest)) "") "." = false
             /\ String.eqb (last (filter named (c0 :: rest)) "") ".." = false).
  { intros c0 rest [Hne H]. simpl. destruct (named c0); [| auto].
    split; [discriminate |]. rewrite last_cons_ne by exact Hne. exact H. }
  induction fuel as [| fuel IHf];
    (induction todo as [| c0 rest IHt]; intros st s c;
     [rewrite walk_nil; discriminate |]);
    rewrite walk_cons;
    (destruct (here rt st) as [| | | pm m es] eqn:Hhere; try discriminate);
    (destruct (empty c0) eqn:Ee;
     [intros H; apply Hskip; exact (IHt _ _ _ H) |]);
    (destruct (negb (can_search pm)); [discriminate |]);
    (destruct (String.eqb c0 ".") eqn:Ed;
     [intros H; apply Hskip; exact (IHt _ _ _ H) |]);
    (destruct (String.eqb c0 "..") eqn:Edd;
     [intros H; apply Hskip; exact (IHt _ _ _ H) |]);
    (destruct (lookup_entry c0 es) as [n |];
     [| destruct rest; [| discriminate]; intros _; cbn [filter];
        replace (named c0) with true by (unfold named; now rewrite Ee);
        simpl; repeat split; [discriminate | exact Ed | exact Edd]]);
    (destruct n as [pm' m' ct | k pm' m' | m' target | pm' m' es'];
     try (intros H; apply Hskip; exact (IHt _ _ _ H)));
    (destruct (fl || negb (is_nil rest));
     [| intros H; apply Hskip; exact (IHt _ _ _ H)]);
    try discriminate.
  destruct (empty target); [discriminate |].
  intros H. destruct (IHf _ _ _ _ H) as [Hne [H1 H2]].
  rewrite filter_app in *.
  assert (named c0 = true) as Hn by (unfold named; now rewrite Ee).
  cbn [filter]. rewrite Hn.
  destruct (filter named rest) as [| r0 rs] eqn:Hr.
  - simpl. repeat split; [discriminate | exact Ed | exact Edd].
  - split; [discriminate |].
    rewrite last_cons_ne by discriminate.
    rewrite last_app_ne in H1, H2 by discriminate. split; assumption.
Qed.

Lemma resolve_missing_not_dot (fs : filesys) (fl : bool) (p : path) s c :
  resolve fs fl p = inr (Missing s c) -> ends_in_dot p = false.
Proof.
  unfold resolve, ends_in_dot. destruct (empty p); [discriminate |].
  assert (forall st,
             walk max_symlinks (root fs) fl st (components p)
             = inr (Missing s c) ->
             (let c0 := last (filter (fun c => negb (empty c)) (components p))
                             "" in
              String.eqb c0 "." || String.eqb c0 "..") = false) as H.
  { intros st Hw.
    destruct (walk_missing_last _ _ _ _ _ _ _ Hw) as [_ [H1 H2]].
    cbv zeta. unfold named in *. rewrite H1, H2. reflexivity. }
  destruct (is_absolute p); [apply H |].
  destruct (walk max_symlinks (root fs) true [] (cwd fs))
    as [e | [st0 | ? ?]]; try discriminate.
  apply H.
Qed.

End DotFacts.

(** ** Creating and deleting, one after the other *)

Module CompositionFacts.
Import Str Path Perms Fs Explorer Notions Overlay.
Import PathFacts FsFacts MonadFacts NavigationFacts DeleteFacts CreateFacts.
Import OverlayFacts DotFacts.
Local Open Scope monad_scope.

(** What [create_file] does when the last name is absent from a
    directory that may be written. *)
Lemma create_file_run (p : path) (w : world) parent name :
  resolve (w_fs w) true p = inr (Missing parent name) ->
  can_write (node_perms (here (root (w_fs w)) parent)) = true ->
  create_file p w
  = (Ret tt,
     put_out ("File created: " ++ quoted p ++ nl)
       (set_root
          (update (location parent)
             (add_child (w_now w) name (new_file (w_now w) (w_umask w)))
             (root (w_fs w)))
          (log_call (COpenWrite p) (log_call (CStatus p) w)))).
Proof.
  intros Hres Hw.
  unfold create_file, try_catch, fs_exists, fs_status, ofstream_open, query,
    bind, call, ret, cout.
  cbn [w_fs w_now w_umask log_call].
  rewrite (status_of_missing _ _ _ _ Hres). cbv beta iota.
  cbn [status_exists st_type file_type_eqb negb andb].
  cbn [w_fs w_now w_umask log_call].
  unfold open_trunc. rewrite Hres, Hw. reflexivity.
Qed.

(** Where the pathname leads once the file is there. *)
Lemma resolve_created (fs : filesys) (fl : bool) (p : path) parent name
  now mask :
  resolve fs fl p = inr (Missing parent name) ->
  resolve
    (mk_fs (update (location parent)
              (add_child now name (new_file now mask)) (root fs))
           (cwd fs)) fl p
  = inr (Found ((name, new_file now mask)
                :: lift (add_child now name (new_file now mask))
                        (location parent) parent)).
Proof.
  intros Hres. destruct fs as [rt cw]. cbn [root cwd] in *.
  unfold new_file.
  rewrite (resolve_added rt (location parent) now name _ _ _ cw fl p _ Hres).
  unfold added, hit. rewrite strip_refl, String.eqb_refl. reflexivity.
Qed.

(** X19: a file that was created is there.  When the last name of the
    pathname is absent from a directory that may be written,
    [create_file] reports "File created"; right after, the status of the
    pathname is that of a regular file with mode 0666 less the umask, its
    size is 0, and a second [create_file] on the same pathname prints
    "Path already exists." and leaves the tree as the first one left
    it. *)
Theorem create_file_then_exists :
  forall (p : path) (w : world) (parent : stack) (name : string),
    resolve (w_fs w) true p = inr (Missing parent name) ->
    can_write (node_perms (here (root (w_fs w)) parent)) = true ->
    exists w1,
      create_file p w = (Ret tt, w1)
      /\ w_out w1
         = (w_out w ++ [("File created: " ++ quoted p ++ nl)%string])%list
      /\ status (w_fs w1) true p
         = inr (mk_status ft_regular (N.ldiff 438%N (w_umask w)))
      /\ file_size (w_fs w1) p = inr 0%N
      /\ exists w2,
           create_file p w1 = (Ret tt, w2)
           /\ w_out w2
              = (w_out w1 ++ [("Path already exists." ++ nl)%string])%list
           /\ w_err w2 = w_err w
           /\ w_fs w2 = w_fs w1.
Proof.
  intros p w parent name Hres Hw.
  rewrite (create_file_run _ _ _ _ Hres Hw).
  eexists. split; [reflexivity |].
  cbn [w_fs w_out w_err put_out set_root log_call].
  pose proof (resolve_created _ true p _ _ (w_now w) (w_umask w) Hres)
    as Hnew.
  pose proof (status_of_resolved _ _ _ Hnew) as Hst.
  cbn [here root] in Hst.
  split; [reflexivity |]. split; [exact Hst |]. split.
  - unfold file_size, stat_node. rewrite Hnew. reflexivity.
  - unfold create_file, try_catch, fs_exists, fs_status, query, bind, call,
      ret, cout.
    cbn [w_fs w_out w_err put_out set_root log_call]. rewrite Hst.
    eexists. split; [reflexivity |]. repeat split.
Qed.

(** A resolution that ends at an absent name met no link at the end:
    it is the same whether a last link is followed or not. *)
Lemma walk_missing_follow rt :
  forall fuel todo st s c,
    walk fuel rt false st todo = inr (Missing s c) ->
    walk fuel rt true st todo = inr (Missing s c).
Proof.
  induction fuel as [| fuel IHf];
    (induction todo as [| c0 rest IHt]; intros st s c;
     [rewrite !walk_nil; auto |]);
    rewrite !walk_cons;
    (destruct (here rt st) as [| | | pm m es] eqn:Hhere; try discriminate);
    (destruct (empty c0); [apply IHt |]);
    (destruct (negb (can_search pm)); [discriminate |]);
    (destruct (String.eqb c0 "."); [apply IHt |]);
    (destruct (String.eqb c0 ".."); [apply IHt |]);
    (destruct (lookup_entry c0 es) as [n |]; [| auto]);
    (destruct n as [pm' m' ct | k pm' m' | m' target | pm' m' es'];
     try apply IHt);
    (destruct rest as [| c' rest'];
     [rewrite walk_nil; discriminate |]);
    simpl; try discriminate.
  destruct (empty target); [discriminate |]. apply IHf.
Qed.

Lemma resolve_missing_follow (fs : filesys) (p : path) s c :
  resolve fs false p = inr (Missing s c) ->
  resolve fs true p = inr (Missing s c).
Proof.
  unfold resolve. destruct (empty p); [discriminate |].
  destruct (is_absolute p).
  - apply walk_missing_follow.
  - destruct (walk max_symlinks (root fs) true [] (cwd fs))
      as [e | [st0 | ? ?]]; try discriminate.
    apply walk_missing_follow.
Qed.

(** Two changes at the same place are one change. *)
Lemma update_twice (h1 h2 h3 : node -> node) :
  forall L rt d,
    node_at L rt = Some d -> h2 (h1 d) = h3 d ->
    update L h2 (update L h1 rt) = update L h3 rt.
Proof.
  induction L as [| c L IH]; intros rt d Hat Hd.
  - simpl in *. inversion Hat; subst. exact Hd.
  - simpl in Hat. destruct rt as [| | | pm m es]; simpl in Hat;
      try discriminate.
    simpl. f_equal.
    induction es as [| [k n] es IHes]; simpl in *; [discriminate |].
    destruct (String.eqb c k) eqn:Ek.
    + simpl. rewrite Ek. f_equal. f_equal. exact (IH _ _ Hat Hd).
    + simpl. rewrite Ek. f_equal. exact (IHes Hat).
Qed.

Lemma remove_entry_app_new (name : string) (f : node) es :
  lookup_entry name es = None ->
  remove_entry name (es ++ [(name, f)])%list = es.
Proof.
  induction es as [| [k n] es IH]; simpl.
  - now rewrite String.eqb_refl.
  - destruct (String.eqb name k); [discriminate |].
    intros H. now rewrite IH.
Qed.

(** What [delete_path] does when [fs::remove] removes something that is
    not a directory. *)
Lemma delete_path_run_leaf (p : path) (w : world) (s : file_status) rt2 :
  status (w_fs w) true p = inr s ->
  status_exists s = true ->
  status_is_directory s = false ->
  remove (w_now w) (w_fs w) p = inr (true, rt2) ->
  delete_path p w
  = (Ret tt,
     put_out ("Deleted entries: " ++ of_N 1 ++ nl)
       (set_root rt2
          (log_call (CRemove p)
             (log_call (CStatus p) (log_call (CStatus p) w))))).
Proof.
  intros Hst Hex Hdir Hrm.
  unfold delete_path, try_catch, fs_exists, fs_is_directory, fs_status,
    fs_remove, mutation, query, report, bind, call, ret, cout, cerr.
  cbn [w_fs w_now log_call]. rewrite Hst. cbv beta iota. rewrite Hex.
  cbn [negb]. cbn [w_fs w_now log_call]. rewrite Hst. cbv beta iota.
  rewrite Hdir. cbn [w_fs w_now log_call]. rewrite Hrm. reflexivity.
Qed.

(** X20: creating a file and deleting it again gives the tree back.
    For an absolute pathname whose last name is absent from a directory
    that may be written (and is not a link without a target), [create_file]
    followed by [delete_path] prints "File created" and "Deleted entries:
    1", writes nothing to standard error, and leaves the tree it started
    from, except that the directory carries a new modification time. *)
Theorem create_then_delete :
  forall (p : path) (w : world) (parent : stack) (name : string),
    is_absolute p = true ->
    resolve (w_fs w) false p = inr (Missing parent name) ->
    can_write (node_perms (here (root (w_fs w)) parent)) = true ->
    exists w1 w2,
      create_file p w = (Ret tt, w1)
      /\ delete_path p w1 = (Ret tt, w2)
      /\ w_out w2
         = (w_out w
              ++ [("File created: " ++ quoted p ++ nl)%string;
                  ("Deleted entries: " ++ of_N 1 ++ nl)%string])%list
      /\ w_err w2 = w_err w
      /\ w_fs w2
         = mk_fs (update (location parent) (touch (w_now w)) (root (w_fs w)))
                 (cwd (w_fs w)).
Proof.
  intros p w parent name Habs Hres0 Hw.
  pose proof (resolve_missing_not_dot _ _ _ _ _ Hres0) as Hdot.
  pose proof (resolve_missing_follow _ _ _ _ Hres0) as Hres.
  pose proof (resolve_absolute_good (w_fs w) true p Habs) as Hgood.
  rewrite Hres in Hgood. simpl in Hgood.
  destruct Hgood as [Hch [Hdir [Hx [Hl _]]]].
  destruct (here (root (w_fs w)) parent) as [| | | pm m es] eqn:Hhere;
    try discriminate.
  cbn [node_perms entries_of] in *.
  rewrite (create_file_run _ _ _ _ Hres); [| rewrite Hhere; exact Hw].
  set (now := w_now w) in *. set (mask := w_umask w) in *.
  set (g := add_child now name (new_file now mask)).
  set (rt' := update (location parent) g (root (w_fs w))).
  pose proof (resolve_created _ true p _ _ now mask Hres) as Hnew.
  pose proof (resolve_created _ false p _ _ now mask Hres0) as Hnew0.
  fold g in Hnew, Hnew0. fold rt' in Hnew, Hnew0.
  pose proof (status_of_resolved _ _ _ Hnew) as Hst.
  cbn [here root] in Hst.
  assert (here rt' (lift g (location parent) parent)
          = Dir pm now (es ++ [(name, new_file now mask)])%list) as Hhere'.
  { unfold rt'. rewrite here_lift, Hhere. unfold image.
    rewrite strip_refl. reflexivity. }
  assert (remove now (mk_fs rt' (cwd (w_fs w))) p
          = inr (true,
                 update (location parent) (touch now) (root (w_fs w))))
    as Hrm.
  { unfold remove. rewrite Hnew0, Hdot. cbn [here root].
    unfold new_file at 1.
    unfold unlink. cbn [root]. rewrite Hhere', Hw, Hx. cbn [andb].
    rewrite location_lift. unfold rt'.
    rewrite (update_twice g (drop_child now name) (touch now)
               (location parent) (root (w_fs w)) (Dir pm m es)).
    - reflexivity.
    - rewrite <- Hhere. apply chain_node_at. exact Hch.
    - unfold g. cbn [add_child drop_child touch].
      now rewrite remove_entry_app_new. }
  set (w1 := put_out ("File created: " ++ quoted p ++ nl)
               (set_root rt'
                  (log_call (COpenWrite p) (log_call (CStatus p) w)))).
  exists w1. eexists. split; [reflexivity |].
  split.
  - exact (delete_path_run_leaf p w1 (node_status (new_file now mask)) _
             Hst eq_refl eq_refl Hrm).
  - subst w1.
    cbn [w_fs w_now w_out w_err put_out set_root log_call root cwd].
    rewrite <- List.app_assoc. repeat split.
Qed.

Lemma home_new_absent :
  resolve (w_fs (Samples.home_world [])) false "/home/u/new.txt"
  = inr (Missing [("u", Samples.home_u); ("home", Samples.home_dir)]
                 "new.txt").
Proof. vm_compute. reflexivity. Qed.

Lemma create_file_then_exists_witness :
  exists w1,
    create_file "/home/u/new.txt" (Samples.home_world []) = (Ret tt, w1)
    /\ w_out w1
       = (w_out (Samples.home_world [])
            ++ [("File created: " ++ quoted "/home/u/new.txt" ++ nl)%string])%list
    /\ status (w_fs w1) true "/home/u/new.txt"
       = inr (mk_status ft_regular
                (N.ldiff 438%N (w_umask (Samples.home_world []))))
    /\ file_size (w_fs w1) "/home/u/new.txt" = inr 0%N
    /\ exists w2,
         create_file "/home/u/new.txt" w1 = (Ret tt, w2)
         /\ w_out w2
            = (w_out w1 ++ [("Path already exists." ++ nl)%string])%list
         /\ w_err w2 = w_err (Samples.home_world [])
         /\ w_fs w2 = w_fs w1.
Proof.
  apply (create_file_then_exists "/home/u/new.txt" (Samples.home_world [])
           [("u", Samples.home_u); ("home", Samples.home_dir)] "new.txt").
  - exact home_new_missing.
  - vm_compute. reflexivity.
Defined.

Lemma create_then_delete_witness :
  exists w1 w2,
    create_file "/home/u/new.txt" (Samples.home_world []) = (Ret tt, w1)
    /\ delete_path "/home/u/new.txt" w1 = (Ret tt, w2)
    /\ w_out w2
       = (w_out (Samples.home_world [])
            ++ [("File created: " ++ quoted "/home/u/new.txt" ++ nl)%string;
                ("Deleted entries: " ++ of_N 1 ++ nl)%string])%list
    /\ w_err w2 = w_err (Samples.home_world [])
    /\ w_fs w2
       = mk_fs (update
                  (location [("u", Samples.home_u);
                             ("home", Samples.home_dir)])
                  (touch (w_now (Samples.home_world [])))
                  (root (w_fs (Samples.home_world []))))
               (cwd (w_fs (Samples.home_world []))).
Proof.
  apply (create_then_delete "/home/u/new.txt" (Samples.home_world [])
           [("u", Samples.home_u); ("home", Samples.home_dir)] "new.txt").
  - reflexivity.
  - exact home_new_absent.
  - vm_compute. reflexivity.
Defined.

End CompositionFacts.

Module DropFacts.
Import Str Path Perms Fs Explorer Notions Overlay.
Import PathFacts FsFacts MonadFacts NavigationFacts DeleteFacts CreateFacts.
Import OverlayFacts.



(** *** Resolution after an entry was removed *)

Section Dropped.
Variables (rt : node) (L : list string) (now : Z) (name : string).
Variables (pmL : perms) (mL : Z) (esL : list (string * node)).
Hypothesis at_L : node_at L rt = Some (Dir pmL mL esL).
Hypothesis distinct : NoDup (map fst esL).

Let g : node -> node := drop_child now name.





End Dropped.







End DropFacts.
